(** * Feature store: durable store, cache tier and online serving path

    A shallow embedding of [store/postgres.py], [store/redis_cache.py],
    [api/routes.py] (the online read), [api/main.py] (the global exception
    handler) and [config/settings.py], with the properties of the serving
    and storage subsystem proved over it.

    Conventions.
    - A [datetime] is an integer number of microseconds ([Z]); a
      [timedelta] is the difference of two of them, so the sign of
      [total_seconds()] is the sign of that difference.
    - Python dictionaries are finite maps ([gmap]); SQL tables and Python
      lists are lists.
    - A coroutine that may raise returns an [outcome]; the objects it
      mutates are threaded through explicitly. *)

From Stdlib Require Import ZArith Ascii String.
From Stdlib Require OrderedTypeEx.
From stdpp Require Import base option list strings sorting gmap fin_maps.

Open Scope string_scope.
Open Scope list_scope.
Open Scope Z_scope.

(** ** Exceptions and results *)

Inductive exn : Type :=
  | PostgresError        (* pool / connection / query failure (asyncpg) *)
  | ForeignKeyViolation  (* asyncpg.ForeignKeyViolationError *)
  | RedisError           (* redis.exceptions.RedisError *)
  | MsgpackError         (* msgpack pack / unpack failure *)
  | AttributeError       (* method call on None *)
  | IndexError
  | HTTPException (status_code : Z).

Inductive outcome (A : Type) : Type :=
  | Ok (a : A)
  | Raise (e : exn).
Arguments Ok {A} a.
Arguments Raise {A} e.

Definition is_ok {A} (o : outcome A) : bool :=
  match o with Ok _ => true | Raise _ => false end.

#[global] Instance exn_eq_dec : EqDecision exn.
Proof. solve_decision. Defined.

(** ** JSON payloads *)

Inductive json : Type :=
  | JNull
  | JBool (b : bool)
  | JInt (n : Z)
  | JStr (s : string).

#[global] Instance json_eq_dec : EqDecision json.
Proof. solve_decision. Defined.

(** A JSON object used as the [metadata] column. *)
Abbreviation metadata := (list (string * json)).

(** A [datetime], in microseconds. *)
Abbreviation datetime := Z.

(** ** store/postgres.py *)

Module Postgres.

(** A row of table [features] (the registry). *)
Record FeatureRow : Type := {
  f_id : Z;
  f_name : string;
  f_version : Z }.

(** A row of table [feature_values]; [fv_metadata = None] is SQL NULL. *)
Record ValueRow : Type := {
  fv_feature_id : Z;
  fv_entity_id : string;
  fv_timestamp : datetime;
  fv_value : json;
  fv_metadata : option metadata }.

#[global] Instance ValueRow_eq_dec : EqDecision ValueRow.
Proof. solve_decision. Defined.

(** The conflict target of the upsert: (feature_id, entity_id, timestamp). *)
Definition row_key (r : ValueRow) : Z * string * Z :=
  (fv_feature_id r, fv_entity_id r, fv_timestamp r).

(** What the pool was asked to do, most recent event first. *)
Inductive pg_event : Type :=
  | AcquireConn
  | Fetch (entity_ids feature_names : list string) (as_of : datetime)
  | ExecuteMany (rows : nat).

(** The [FeatureStore] object together with the database behind it.
    [pool_up = false] stands for a pool that is missing, exhausted or
    unable to reach the server: [self.pool.acquire()] raises. *)
Record FeatureStore : Type := {
  features : list FeatureRow;
  feature_values : list ValueRow;
  pool_up : bool;
  pg_log : list pg_event }.

Definition log_event (ev : pg_event) (s : FeatureStore) : FeatureStore :=
  {| features := features s;
     feature_values := feature_values s;
     pool_up := pool_up s;
     pg_log := ev :: pg_log s |}.

Definition set_values (t : list ValueRow) (s : FeatureStore) : FeatureStore :=
  {| features := features s;
     feature_values := t;
     pool_up := pool_up s;
     pg_log := pg_log s |}.

(** *** write_features *)

(** One element of the [features] argument of [write_features]: a dict
    with keys feature_id, entity_id, timestamp, value and, optionally,
    metadata ([w_metadata = None] when the key is absent). *)
Record FeatureWrite : Type := {
  w_feature_id : Z;
  w_entity_id : string;
  w_timestamp : datetime;
  w_value : json;
  w_metadata : option metadata }.

(** The argument tuple built for one statement:
    [(f['feature_id'], f['entity_id'], f['timestamp'], f['value'],
      f.get('metadata', {}))]. *)
Definition to_args (f : FeatureWrite) : ValueRow :=
  {| fv_feature_id := w_feature_id f;
     fv_entity_id := w_entity_id f;
     fv_timestamp := w_timestamp f;
     fv_value := w_value f;
     fv_metadata := Some (default [] (w_metadata f)) |}.

(** [DO UPDATE SET value = EXCLUDED.value, metadata = EXCLUDED.metadata]. *)
Definition do_update (old excluded : ValueRow) : ValueRow :=
  {| fv_feature_id := fv_feature_id old;
     fv_entity_id := fv_entity_id old;
     fv_timestamp := fv_timestamp old;
     fv_value := fv_value excluded;
     fv_metadata := fv_metadata excluded |}.

(** [INSERT INTO feature_values ... ON CONFLICT (feature_id, entity_id,
    timestamp) DO UPDATE ...] for one argument tuple: the row holding the
    key is updated in place, otherwise a row is appended. *)
Fixpoint upsert (t : list ValueRow) (r : ValueRow) : list ValueRow :=
  match t with
  | [] => [r]
  | x :: t' =>
      if decide (row_key x = row_key r) then do_update x r :: t'
      else x :: upsert t' r
  end.

(** Modelled from the spec: the table definition (deploy/init.sql) is not
    part of the sources; the spec says that referential integrity of
    [feature_values.feature_id] is enforced by the schema, so a statement
    whose feature_id is not registered fails. *)
Definition fk_ok (s : FeatureStore) (r : ValueRow) : bool :=
  bool_decide (fv_feature_id r ∈ f_id <$> features s).

(** [conn.executemany(query, args)]: the statement once per tuple, in
    order; all of it or nothing. *)
Definition executemany (s : FeatureStore) (args : list ValueRow)
  : FeatureStore * outcome unit :=
  let s1 := log_event (ExecuteMany (length args)) s in
  if forallb (fk_ok s) args
  then (set_values (foldl upsert (feature_values s) args) s1, Ok tt)
  else (s1, Raise ForeignKeyViolation).

Definition write_features (s : FeatureStore) (batch : list FeatureWrite)
  : FeatureStore * outcome unit :=
  match batch with
  | [] => (s, Ok tt)                       (* if not features: return *)
  | _ :: _ =>
      if pool_up s
      then executemany (log_event AcquireConn s) (to_args <$> batch)
      else (s, Raise PostgresError)        (* logged, then re-raised *)
  end.

(** *** get_features *)

(** A row produced by the point-in-time query. *)
Record QueryRow : Type := {
  q_entity_id : string;
  q_feature_name : string;
  q_value : json;
  q_timestamp : datetime;
  q_metadata : option metadata }.

(** [FROM feature_values fv JOIN features f ON f.id = fv.feature_id]. *)
Definition join_features (s : FeatureStore) : list (ValueRow * FeatureRow) :=
  fv ← feature_values s;
  f ← features s;
  if decide (f_id f = fv_feature_id fv) then [(fv, f)] else [].

(** [WHERE fv.entity_id = ANY($1) AND f.name = ANY($2)
      AND fv.timestamp <= $3]. *)
Definition where_clause (entity_ids feature_names : list string)
    (as_of : datetime) (p : ValueRow * FeatureRow) : bool :=
  bool_decide (fv_entity_id p.1 ∈ entity_ids)
  && bool_decide (f_name p.2 ∈ feature_names)
  && bool_decide (fv_timestamp p.1 ≤ as_of).

(** The select list. *)
Definition select_row (p : ValueRow * FeatureRow) : QueryRow :=
  {| q_entity_id := fv_entity_id p.1;
     q_feature_name := f_name p.2;
     q_value := fv_value p.1;
     q_timestamp := fv_timestamp p.1;
     q_metadata := fv_metadata p.1 |}.

(** [ORDER BY fv.entity_id, f.name, fv.timestamp DESC], strings compared
    code point by code point. *)
Definition order_leb (a b : QueryRow) : bool :=
  match String.compare (q_entity_id a) (q_entity_id b) with
  | Lt => true
  | Gt => false
  | Eq =>
      match String.compare (q_feature_name a) (q_feature_name b) with
      | Lt => true
      | Gt => false
      | Eq => bool_decide (q_timestamp b ≤ q_timestamp a)
      end
  end.

Definition order_le (a b : QueryRow) : Prop := order_leb a b = true.

#[global] Instance order_le_dec : RelDecision order_le.
Proof. intros a b. unfold order_le. apply _. Defined.

Definition order_by (rows : list QueryRow) : list QueryRow :=
  merge_sort order_le rows.

Definition distinct_key (r : QueryRow) : string * string :=
  (q_entity_id r, q_feature_name r).

(** [SELECT DISTINCT ON (fv.entity_id, f.name)]: of each set of rows that
    agree on the two expressions only the first, in the order of the
    sorted input, is kept. *)
Fixpoint distinct_on (seen : list (string * string)) (rows : list QueryRow)
  : list QueryRow :=
  match rows with
  | [] => []
  | r :: rows' =>
      if decide (distinct_key r ∈ seen) then distinct_on seen rows'
      else r :: distinct_on (distinct_key r :: seen) rows'
  end.

(** Join, filter, project: the rows the query ranges over. *)
Definition matching_rows (s : FeatureStore)
    (entity_ids feature_names : list string) (as_of : datetime)
  : list QueryRow :=
  select_row <$>
    filter (λ p, where_clause entity_ids feature_names as_of p = true)
           (join_features s).

Definition run_query (s : FeatureStore) (entity_ids feature_names : list string)
    (as_of : datetime) : list QueryRow :=
  distinct_on [] (order_by (matching_rows s entity_ids feature_names as_of)).

(** The innermost dict of the result: value, timestamp, metadata. *)
Record FeatureData : Type := {
  fd_value : json;
  fd_timestamp : datetime;
  fd_metadata : metadata }.

#[global] Instance FeatureData_eq_dec : EqDecision FeatureData.
Proof. solve_decision. Defined.

Definition to_data (row : QueryRow) : FeatureData :=
  {| fd_value := q_value row;
     fd_timestamp := q_timestamp row;
     fd_metadata := default [] (q_metadata row) |}.   (* row['metadata'] or {} *)

(** One turn of the reshaping loop:
    [if entity_id not in result: result[entity_id] = {}] and then
    [result[entity_id][feature_name] = {...}]. *)
Definition reshape_step (result : gmap string (gmap string FeatureData))
    (row : QueryRow) : gmap string (gmap string FeatureData) :=
  <[q_entity_id row :=
      <[q_feature_name row := to_data row]>
        (default ∅ (result !! q_entity_id row))]> result.

Definition reshape (rows : list QueryRow) : gmap string (gmap string FeatureData) :=
  foldl reshape_step ∅ rows.

(** [get_features(entity_ids, feature_names, timestamp)]; [now] is what
    [datetime.utcnow()] returns when [timestamp] is [None]. *)
Definition get_features (s : FeatureStore) (entity_ids feature_names : list string)
    (timestamp : option datetime) (now : datetime)
  : FeatureStore * outcome (gmap string (gmap string FeatureData)) :=
  let as_of := default now timestamp in
  if pool_up s
  then
    let s1 := log_event (Fetch entity_ids feature_names as_of)
                        (log_event AcquireConn s) in
    (s1, Ok (reshape (run_query s entity_ids feature_names as_of)))
  else (s, Raise PostgresError).             (* logged, then re-raised *)

(** The slot of the nested result for one (entity, feature) pair. *)
Definition slot (result : gmap string (gmap string FeatureData))
    (entity_id feature_name : string) : option FeatureData :=
  result !! entity_id ≫= λ inner, inner !! feature_name.

(** Number of queries sent so far. *)
Definition is_fetch (ev : pg_event) : bool :=
  match ev with Fetch _ _ _ => true | _ => false end.

Definition fetch_count (s : FeatureStore) : nat :=
  length (filter (λ ev, is_fetch ev = true) (pg_log s)).

(** *** Vocabulary for the statements about the store *)

(** [fv] is a stored sample of feature [feature_name] for [entity]: a row
    of [feature_values] whose feature_id belongs to a registered feature
    of that name. *)
Definition stored (s : FeatureStore) (entity feature_name : string)
    (fv : ValueRow) : Prop :=
  fv ∈ feature_values s ∧ fv_entity_id fv = entity ∧
  ∃ f, f ∈ features s ∧ f_id f = fv_feature_id fv ∧ f_name f = feature_name.

(** [fv] is a stored sample not later than [as_of], and no stored sample
    of the pair that is not later than [as_of] is later than [fv]. *)
Definition latest_as_of (s : FeatureStore) (entity feature_name : string)
    (as_of : datetime) (fv : ValueRow) : Prop :=
  stored s entity feature_name fv ∧ fv_timestamp fv ≤ as_of ∧
  ∀ fv', stored s entity feature_name fv' → fv_timestamp fv' ≤ as_of →
         fv_timestamp fv' ≤ fv_timestamp fv.

(** The result dict a stored row is turned into. *)
Definition data_of (fv : ValueRow) : FeatureData :=
  {| fd_value := fv_value fv;
     fd_timestamp := fv_timestamp fv;
     fd_metadata := default [] (fv_metadata fv) |}.



End Postgres.

(** ** store/redis_cache.py *)

Module RedisCache.

(** The dict kept under a cache key: value, timestamp and (possibly
    missing) freshness_seconds. *)
Record CacheRecord : Type := {
  c_value : json;
  c_timestamp : datetime;
  c_freshness : option Z }.

#[global] Instance CacheRecord_eq_dec : EqDecision CacheRecord.
Proof. solve_decision. Defined.

(** What the code takes from its libraries: the msgpack wire format and
    the glob matching of the Redis server.  [packb] and [unpackb] return
    [None] where the library raises; [truthy] is Python truthiness of a
    bytes object (non-empty). *)
Class Wire : Type := {
  bytes : Type;
  packb : CacheRecord → option bytes;
  unpackb : bytes → option CacheRecord;
  truthy : bytes → bool;
  glob_match : string → string → bool }.

Definition try_except {A} (body : outcome A) (handler : exn → outcome A)
  : outcome A :=
  match body with
  | Ok a => Ok a
  | Raise e => handler e
  end.

(** A list comprehension whose element expression may raise. *)
Fixpoint comprehension {A B} (f : A → outcome B) (l : list A)
  : outcome (list B) :=
  match l with
  | [] => Ok []
  | x :: l' =>
      match f x with
      | Raise e => Raise e
      | Ok y =>
          match comprehension f l' with
          | Raise e => Raise e
          | Ok ys => Ok (y :: ys)
          end
      end
  end.

Section WithWire.
Context `{Wire}.

(** The [FeatureCache] object and the Redis database behind it: every key
    holds its bytes and the TTL (seconds) given to SETEX.
    [client_up = false]: every command sent to the server raises. *)
Record FeatureCache : Type := {
  keyspace : gmap string (bytes * Z);
  client_up : bool }.

Definition set_keyspace (ks : gmap string (bytes * Z)) (c : FeatureCache)
  : FeatureCache :=
  {| keyspace := ks; client_up := client_up c |}.

(** A pipeline of GET commands, executed. *)
Definition pipeline_get (c : FeatureCache) (keys : list string)
  : outcome (list (option bytes)) :=
  if client_up c
  then Ok ((λ key, fst <$> keyspace c !! key) <$> keys)
  else Raise RedisError.

(** [msgpack.unpackb(r, raw=False) if r else None]. *)
Definition unpack_result (r : option bytes) : outcome (option CacheRecord) :=
  match r with
  | None => Ok None
  | Some b =>
      if truthy b
      then match unpackb b with
           | Some v => Ok (Some v)
           | None => Raise MsgpackError
           end
      else Ok None
  end.

Definition get_many (c : FeatureCache) (keys : list string)
  : outcome (list (option CacheRecord)) :=
  match keys with
  | [] => Ok []                                   (* if not keys: return [] *)
  | _ :: _ =>
      try_except
        (match pipeline_get c keys with
         | Raise e => Raise e
         | Ok results => comprehension unpack_result results
         end)
        (λ _, Ok (replicate (length keys) None))  (* [None] * len(keys) *)
  end.

(** The body of the loop of [set_many]: serialize, queue a SETEX. *)
Definition queue_setex (kv : string * CacheRecord) : outcome (string * bytes) :=
  match packb kv.2 with
  | Some serialized => Ok (kv.1, serialized)
  | None => Raise MsgpackError
  end.

(** A pipeline of SETEX commands with one TTL, executed.  The keyspace
    records each write as the server applies it for a positive TTL, the
    only kind SETEX accepts; entries are not aged. *)
Definition pipeline_setex (c : FeatureCache) (cmds : list (string * bytes))
    (ttl : Z) : FeatureCache * outcome unit :=
  if client_up c
  then (set_keyspace
          (foldl (λ ks kb, <[kb.1 := (kb.2, ttl)]> ks) (keyspace c) cmds) c,
        Ok tt)
  else (c, Raise RedisError).

Definition set_many (c : FeatureCache) (data : gmap string CacheRecord) (ttl : Z)
  : FeatureCache * outcome unit :=
  if decide (data = ∅) then (c, Ok tt)            (* if not data: return *)
  else
    match comprehension queue_setex (map_to_list data) with
    | Raise _ => (c, Ok tt)                       (* warning logged *)
    | Ok cmds =>
        match pipeline_setex c cmds ttl with
        | (c', Ok _) => (c', Ok tt)
        | (c', Raise _) => (c', Ok tt)            (* warning logged *)
        end
    end.

(** [scan_iter(match=pattern, count=100)], collected. *)
Definition scan_iter (c : FeatureCache) (pattern : string)
  : outcome (list string) :=
  if client_up c
  then Ok (filter (λ key, glob_match pattern key = true)
                  (map_to_list (keyspace c)).*1)
  else Raise RedisError.

(** [DEL key ...]: the number of keys that existed. *)
Definition delete_keys (c : FeatureCache) (keys : list string)
  : FeatureCache * outcome Z :=
  if client_up c
  then (set_keyspace (foldr delete (keyspace c) keys) c,
        Ok (Z.of_nat (length (filter (λ key, is_Some (keyspace c !! key))
                                     (remove_dups keys)))))
  else (c, Raise RedisError).

Definition invalidate (c : FeatureCache) (pattern : string)
  : FeatureCache * outcome Z :=
  match scan_iter c pattern with
  | Raise _ => (c, Ok 0)                          (* error logged; return 0 *)
  | Ok keys =>
      match keys with
      | [] => (c, Ok 0)
      | _ :: _ =>
          match delete_keys c keys with
          | (c', Ok deleted) => (c', Ok deleted)
          | (c', Raise _) => (c', Ok 0)           (* error logged; return 0 *)
          end
      end
  end.

(** *** Vocabulary for the statements about the cache *)

(** The record held under [key], as a single GET followed by the
    decoding step would give it; [None] when the key is absent, empty or
    undecodable. *)
Definition cached_value (c : FeatureCache) (key : string) : option CacheRecord :=
  match keyspace c !! key with
  | Some (b, _) => if truthy b then unpackb b else None
  | None => None
  end.

(** [msgpack.unpackb] would not raise on what is stored under [key]. *)
Definition decodes (c : FeatureCache) (key : string) : bool :=
  match keyspace c !! key with
  | Some (b, _) => if truthy b then bool_decide (is_Some (unpackb b)) else true
  | None => true
  end.

(** A batched read goes through when the server answers and every stored
    payload among [keys] decodes. *)
Definition batch_ok (c : FeatureCache) (keys : list string) : bool :=
  client_up c && forallb (decodes c) keys.

(** What one batched read over [keys] answers for each of them. *)
Definition answer (c : FeatureCache) (keys : list string) (key : string)
  : option CacheRecord :=
  if batch_ok c keys then cached_value c key else None.

End WithWire.
Arguments FeatureCache {_}.

End RedisCache.

(** ** config/settings.py *)

Module Config.

Record Settings : Type := {
  postgres_min_pool : Z;
  postgres_max_pool : Z;
  redis_max_connections : Z;
  default_ttl_hours : Z;
  cache_ttl_seconds : Z;
  log_level : string;
  max_batch_size : Z;
  query_timeout_seconds : Z }.

(** The values used when the environment overrides nothing. *)
Definition defaults : Settings :=
  {| postgres_min_pool := 10;
     postgres_max_pool := 50;
     redis_max_connections := 100;
     default_ttl_hours := 24;
     cache_ttl_seconds := 3600;
     log_level := "INFO";
     max_batch_size := 1000;
     query_timeout_seconds := 5 |}.

(** [Settings()] with CACHE_TTL_SECONDS set in the environment. *)
Definition with_cache_ttl (ttl : Z) (s : Settings) : Settings :=
  {| postgres_min_pool := postgres_min_pool s;
     postgres_max_pool := postgres_max_pool s;
     redis_max_connections := redis_max_connections s;
     default_ttl_hours := default_ttl_hours s;
     cache_ttl_seconds := ttl;
     log_level := log_level s;
     max_batch_size := max_batch_size s;
     query_timeout_seconds := query_timeout_seconds s |}.

End Config.

(** ** api/routes.py: the online read *)

Module Routes.
Import Postgres RedisCache.

(** api/models.py *)
Record FeatureValue : Type := {
  value : json;
  timestamp : datetime;
  freshness_seconds : option Z }.

Record OnlineFeatureRequest : Type := {
  entity_id : string;
  feature_names : list string }.

Record OnlineFeatureResponse : Type := {
  r_entity_id : string;
  r_features : gmap string FeatureValue;
  r_timestamp : datetime;
  r_source : string;
  r_cache_hit : bool }.

Section WithWire.
Context `{Wire}.

(** [req.app.state], the process-wide settings object and the wall clock:
    the [n]-th call of [datetime.utcnow()] returns [clock n].  The cache
    handle is [None] when Redis could not be reached at start-up. *)
Record World : Type := {
  store : FeatureStore;
  cache : option FeatureCache;
  settings : Config.Settings;
  clock : nat → datetime;
  ticks : nat }.

Definition set_store (s : FeatureStore) (w : World) : World :=
  {| store := s; cache := cache w; settings := settings w;
     clock := clock w; ticks := ticks w |}.

Definition set_cache (c : FeatureCache) (w : World) : World :=
  {| store := store w; cache := Some c; settings := settings w;
     clock := clock w; ticks := ticks w |}.

Definition set_ticks (n : nat) (w : World) : World :=
  {| store := store w; cache := cache w; settings := settings w;
     clock := clock w; ticks := n |}.

Definition utcnow (w : World) : datetime * World :=
  (clock w (ticks w), set_ticks (S (ticks w)) w).

(** [f"{request.entity_id}:{f}"]. *)
Definition cache_key (entity : string) (feature_name : string) : string :=
  entity +:+ ":" +:+ feature_name.

(** The [FeatureValue] built on a cache hit. *)
Definition of_cached (v : CacheRecord) : FeatureValue :=
  {| value := c_value v;
     timestamp := c_timestamp v;
     freshness_seconds := c_freshness v |}.

(** missing_features, features, cache_hit *)
Definition cache_acc : Type := list string * gmap string FeatureValue * bool.

(** The loop over [enumerate(zip(cache_keys, cached))], entered at
    index [i]. *)
Fixpoint process_cached (names : list string) (i : nat)
    (zipped : list (string * option CacheRecord)) (acc : cache_acc)
  : outcome cache_acc :=
  match zipped with
  | [] => Ok acc
  | (key, v) :: rest =>
      match names !! i with
      | None => Raise IndexError
      | Some feature_name =>
          let '(missing_features, features, cache_hit) := acc in
          process_cached names (S i) rest
            match v with
            | Some v =>
                (missing_features, <[feature_name := of_cached v]> features,
                 cache_hit)
            | None =>
                (missing_features ++ [feature_name], features, false)
            end
      end
  end.

(** Everything up to the database fallback: keys, one [get_many], the
    loop above. *)
Definition cache_step (c : FeatureCache) (request : OnlineFeatureRequest)
  : outcome cache_acc :=
  let cache_keys := cache_key (entity_id request) <$> feature_names request in
  match get_many c cache_keys with
  | Raise e => Raise e
  | Ok cached =>
      process_cached (feature_names request) 0 (zip cache_keys cached)
                     ([], ∅, true)
  end.

(** features, cache_data, number of clock readings taken *)
Definition db_acc : Type :=
  gmap string FeatureValue * gmap string CacheRecord * nat.

(** One turn of the loop over [entity_features.items()]. *)
Definition db_step (clk : nat → datetime) (entity : string)
    (feature_name : string) (feature_data : FeatureData) (acc : db_acc)
  : db_acc :=
  let '(features, cache_data, n) := acc in
  let age_seconds := clk n - fd_timestamp feature_data in
  (<[feature_name :=
       {| value := fd_value feature_data;
          timestamp := fd_timestamp feature_data;
          freshness_seconds := Some age_seconds |}]> features,
   <[cache_key entity feature_name :=
       {| c_value := fd_value feature_data;
          c_timestamp := fd_timestamp feature_data;
          c_freshness := Some age_seconds |}]> cache_data,
   S n).

(** The final [return OnlineFeatureResponse(...)]. *)
Definition respond (w : World) (request : OnlineFeatureRequest)
    (features : gmap string FeatureValue) (missing_features : list string)
    (cache_hit : bool) : World * outcome OnlineFeatureResponse :=
  let '(now, w') := utcnow w in
  (w', Ok {| r_entity_id := entity_id request;
             r_features := features;
             r_timestamp := now;
             r_source :=
               if cache_hit && bool_decide (missing_features = [])
               then "cache" else "database";
             r_cache_hit := cache_hit |}).

Definition get_online_features (w : World) (request : OnlineFeatureRequest)
  : World * outcome OnlineFeatureResponse :=
  match cache w with
  | None => (w, Raise AttributeError)
  | Some c =>
      match cache_step c request with
      | Raise e => (w, Raise e)
      | Ok (missing_features, features, cache_hit) =>
          match missing_features with
          | [] => respond w request features missing_features cache_hit
          | _ :: _ =>
              let '(now, w1) := utcnow w in
              match get_features (store w1) [entity_id request]
                                 missing_features (Some now) now with
              | (s', Raise e) => (set_store s' w1, Raise e)
              | (s', Ok db_results) =>
                  let w2 := set_store s' w1 in
                  let entity_features :=
                    default ∅ (db_results !! entity_id request) in
                  let '(features', cache_data, n) :=
                    map_fold (db_step (clock w2) (entity_id request))
                             (features, ∅, ticks w2) entity_features in
                  let w3 := set_ticks n w2 in
                  if decide (cache_data = ∅)
                  then respond w3 request features' missing_features cache_hit
                  else
                    match set_many c cache_data 3600 with
                    | (c', Raise e) => (set_cache c' w3, Raise e)
                    | (c', Ok _) =>
                        respond (set_cache c' w3) request features'
                                missing_features cache_hit
                    end
              end
          end
      end
  end.

(** *** Vocabulary for the statements about the online read *)

(** The cache keys of a request, in input order. *)
Definition request_keys (request : OnlineFeatureRequest) : list string :=
  cache_key (entity_id request) <$> feature_names request.

(** What the batched cache read of the request answers for one feature
    name. *)
Definition hit (c : FeatureCache) (request : OnlineFeatureRequest)
    (feature_name : string) : option CacheRecord :=
  answer c (request_keys request) (cache_key (entity_id request) feature_name).

(** The requested names the cache did not answer, in input order. *)
Definition misses (c : FeatureCache) (request : OnlineFeatureRequest)
  : list string :=
  filter (λ name, hit c request name = None) (feature_names request).

(** The number of requested names the cache answered (K). *)
Definition hit_count (c : FeatureCache) (request : OnlineFeatureRequest) : nat :=
  length (filter (λ name, is_Some (hit c request name)) (feature_names request)).

(** The features taken from the cache: each answered name with the
    [FeatureValue] built from its record. *)
Definition collect_hits (h : string → option CacheRecord)
    (features : gmap string FeatureValue) (names : list string)
  : gmap string FeatureValue :=
  foldl (λ features name,
           match h name with
           | Some v => <[name := of_cached v]> features
           | None => features
           end) features names.

Definition hits (c : FeatureCache) (request : OnlineFeatureRequest)
  : gmap string FeatureValue :=
  collect_hits (hit c request) ∅ (feature_names request).

(** One turn of the loop over the cached results, without the index. *)
Definition cache_loop_step (acc : cache_acc) (p : string * option CacheRecord)
  : cache_acc :=
  let '(missing_features, features, cache_hit) := acc in
  match p.2 with
  | Some v => (missing_features, <[p.1 := of_cached v]> features, cache_hit)
  | None => (missing_features ++ [p.1], features, false)
  end.

(** The [FeatureValue] built from a store answer at the [i]-th clock
    reading. *)
Definition of_store (clk : nat → datetime) (i : nat) (d : FeatureData)
  : FeatureValue :=
  {| value := fd_value d;
     timestamp := fd_timestamp d;
     freshness_seconds := Some (clk i - fd_timestamp d) |}.

(** What the store answers for the entity of the request when asked for
    [missing_features] at the first clock reading of [w]. *)
Definition entity_features_of (w : World) (request : OnlineFeatureRequest)
    (missing_features : list string) : gmap string FeatureData :=
  default ∅
    (reshape (run_query (store w) [entity_id request] missing_features
                        (clock w (ticks w)))
     !! entity_id request).

(** The state of the loop over the store's answer when it ends. *)
Definition db_loop (w : World) (request : OnlineFeatureRequest)
    (missing_features : list string) (features : gmap string FeatureValue)
  : db_acc :=
  map_fold (db_step (clock w) (entity_id request))
           (features, ∅, S (ticks w))
           (entity_features_of w request missing_features).

(** The [features] map of the response. *)
Definition merged_features (w : World) (request : OnlineFeatureRequest)
    (missing_features : list string) (features : gmap string FeatureValue)
  : gmap string FeatureValue :=
  match missing_features with
  | [] => features
  | _ :: _ => (db_loop w request missing_features features).1.1
  end.

(** A clock that never goes backwards. *)
Definition monotone (clk : nat → datetime) : Prop :=
  ∀ i j : nat, (i ≤ j)%nat → clk i ≤ clk j.

(** Projections of what a route returned. *)
Definition response_of (x : World * outcome OnlineFeatureResponse)
  : option OnlineFeatureResponse :=
  match x.2 with Ok resp => Some resp | Raise _ => None end.

(** TTL under which [key] sits in the cache of a world, if it does. *)
Definition cached_ttl (w : World) (key : string) : option Z :=
  c ← cache w; snd <$> keyspace c !! key.

End WithWire.
Arguments World {_}.

End Routes.

(** ** api/main.py: how a handler's result becomes a status code *)

Module Main.

(** [@app.exception_handler(Exception)]: status 500 whatever the
    exception. *)
Definition global_exception_handler (exc : exn) : Z := 500.

(** An [HTTPException] keeps its own status; anything else that escapes a
    route reaches the global handler. *)
Definition status_code {A} (result : outcome A) : Z :=
  match result with
  | Ok _ => 200
  | Raise (HTTPException code) => code
  | Raise exc => global_exception_handler exc
  end.

End Main.

(** ** Concrete stores, caches and requests *)

Module Examples.
Import Postgres RedisCache Routes.

(** Patterns of the form used by the invalidation route: literal
    characters, with a final [*] matching any rest. *)
Fixpoint star_glob (pattern key : string) : bool :=
  match pattern with
  | EmptyString => bool_decide (key = EmptyString)
  | String a pattern' =>
      if bool_decide (a = "*"%char) && bool_decide (pattern' = EmptyString)
      then true
      else match key with
           | EmptyString => false
           | String b key' => bool_decide (a = b) && star_glob pattern' key'
           end
  end.

(** A wire format under which a record is its own serialization. *)
#[global] Instance plain_wire : Wire :=
  {| bytes := CacheRecord;
     packb := Some;
     unpackb := Some;
     truthy := λ _, true;
     glob_match := star_glob |}.

Definition registry : list FeatureRow :=
  [ {| f_id := 1; f_name := "user_age"; f_version := 1 |};
    {| f_id := 2; f_name := "user_ltv"; f_version := 1 |} ].

Definition age_row : ValueRow :=
  {| fv_feature_id := 1; fv_entity_id := "u42"; fv_timestamp := 1000;
     fv_value := JInt 30; fv_metadata := None |}.

Definition ltv_row : ValueRow :=
  {| fv_feature_id := 2; fv_entity_id := "u42"; fv_timestamp := 990;
     fv_value := JInt 1500; fv_metadata := None |}.

Definition pg (rows : list ValueRow) (up : bool) : FeatureStore :=
  {| features := registry; feature_values := rows;
     pool_up := up; pg_log := [] |}.

Definition redis (ks : gmap string (CacheRecord * Z)) (up : bool)
  : FeatureCache :=
  {| keyspace := ks; client_up := up |}.

Definition age_cached : CacheRecord :=
  {| c_value := JInt 30; c_timestamp := 1000; c_freshness := Some 5 |}.

(** A clock that advances by one microsecond per reading. *)
Definition steady (start : datetime) (n : nat) : datetime :=
  start + Z.of_nat n.

(** A clock set back by 20 microseconds after its first reading. *)
Definition stepped_back (start : datetime) (n : nat) : datetime :=
  match n with O => start | S _ => start - 20 end.

Definition world (s : FeatureStore) (c : FeatureCache)
    (cfg : Config.Settings) (clk : nat → datetime) : World :=
  {| store := s; cache := Some c; settings := cfg; clock := clk; ticks := 0 |}.

(** Cold read: the row is in the store, the cache is empty. *)
Definition cold : World :=
  world (pg [age_row] true) (redis ∅ true) Config.defaults (steady 1005).

(** One of two features cached, the other only in the store. *)
Definition half_cached : World :=
  world (pg [age_row; ltv_row] true)
        (redis {[ "u42:user_age" := (age_cached, 3600) ]} true)
        Config.defaults (steady 1005).

(** Every requested feature cached, the store unreachable. *)
Definition warm_store_down : World :=
  world (pg [age_row] false)
        (redis {[ "u42:user_age" := (age_cached, 3600) ]} true)
        Config.defaults (steady 1005).

(** Nothing cached, the store unreachable. *)
Definition cold_store_down : World :=
  world (pg [age_row] false) (redis ∅ true) Config.defaults (steady 1005).

(** Cold read under a clock that goes backwards. *)
Definition cold_skewed : World :=
  world (pg [age_row] true) (redis ∅ true) Config.defaults (stepped_back 1005).

(** Cold read with CACHE_TTL_SECONDS=60. *)
Definition cold_ttl_60 : World :=
  world (pg [age_row] true) (redis ∅ true)
        (Config.with_cache_ttl 60 Config.defaults) (steady 1005).

Definition ask (names : list string) : OnlineFeatureRequest :=
  {| entity_id := "u42"; feature_names := names |}.

Definition down_cache : FeatureCache :=
  redis {[ "u42:user_age" := (age_cached, 3600) ]} false.

Definition write_a : FeatureWrite :=
  {| w_feature_id := 1; w_entity_id := "u1"; w_timestamp := 900;
     w_value := JStr "A"; w_metadata := None |}.

Definition write_b : FeatureWrite :=
  {| w_feature_id := 1; w_entity_id := "u1"; w_timestamp := 900;
     w_value := JStr "B"; w_metadata := Some [("src", JStr "test")] |}.

End Examples.

(** ** store/postgres.py: feature history *)

Module History.
Import Postgres.

(** [WHERE fv.entity_id = $1 AND f.name = $2 AND fv.timestamp >= $3
      AND fv.timestamp <= $4]. *)
Definition history_where (entity feature_name : string)
    (start_time end_time : datetime) (p : ValueRow * FeatureRow) : bool :=
  bool_decide (fv_entity_id p.1 = entity)
  && bool_decide (f_name p.2 = feature_name)
  && bool_decide (start_time ≤ fv_timestamp p.1)
  && bool_decide (fv_timestamp p.1 ≤ end_time).

(** [ORDER BY fv.timestamp ASC]. *)
Definition oldest_first (p q : ValueRow * FeatureRow) : Prop :=
  fv_timestamp p.1 ≤ fv_timestamp q.1.

#[global] Instance oldest_first_dec : RelDecision oldest_first.
Proof. intros p q. unfold oldest_first. apply _. Defined.

Definition history_rows (s : FeatureStore) (entity feature_name : string)
    (start_time end_time : datetime) : list (ValueRow * FeatureRow) :=
  merge_sort oldest_first
    (filter (λ p, history_where entity feature_name start_time end_time p = true)
            (join_features s)).

(** [get_feature_history(entity_id, feature_name, start_time, end_time)]:
    one dict (value, timestamp, metadata or {}) per row.  The log of the
    pool has no event for this statement; the acquired connection is
    recorded. *)
Definition get_feature_history (s : FeatureStore) (entity feature_name : string)
    (start_time end_time : datetime)
  : FeatureStore * outcome (list FeatureData) :=
  if pool_up s
  then (log_event AcquireConn s,
        Ok ((λ p, data_of p.1) <$>
              history_rows s entity feature_name start_time end_time))
  else (s, Raise PostgresError).             (* logged, then re-raised *)

End History.

(** ** store/postgres.py: the feature registry *)

Module Registry.

(** A row of table [features], all columns. *)
Record Feature : Type := {
  id : Z;
  name : string;
  version : Z;
  dtype : string;
  entity_type : string;
  ttl_hours : Z;
  description : string;
  tags : list string;
  created_at : datetime;
  updated_at : datetime }.

#[global] Instance Feature_eq_dec : EqDecision Feature.
Proof. solve_decision. Defined.

(** The [FeatureRegistry] object and the table behind it. *)
Record FeatureRegistry : Type := {
  rows : list Feature;
  registry_up : bool }.

Definition set_rows (t : list Feature) (r : FeatureRegistry) : FeatureRegistry :=
  {| rows := t; registry_up := registry_up r |}.

(** The arguments of [register]. *)
Record Schema : Type := {
  s_name : string;
  s_version : Z;
  s_dtype : string;
  s_entity_type : string;
  s_ttl_hours : Z;
  s_description : string;
  s_tags : option (list string) }.

(** [DO UPDATE SET dtype, entity_type, ttl_hours, description, tags =
    EXCLUDED..., updated_at = NOW()]: id, name, version and created_at
    stay. *)
Definition update_feature (old : Feature) (sc : Schema) (now : datetime)
  : Feature :=
  {| id := id old;
     name := name old;
     version := version old;
     dtype := s_dtype sc;
     entity_type := s_entity_type sc;
     ttl_hours := s_ttl_hours sc;
     description := s_description sc;
     tags := default [] (s_tags sc);          (* tags or [] *)
     created_at := created_at old;
     updated_at := now |}.

(** The row a plain INSERT creates.  The columns the statement does not
    list take what the table gives them: [fresh_id] for the id, and
    Modelled from the spec: the table definition (deploy/init.sql) is not
    part of the sources; the spec has created_at and updated_at set when
    the row is created, here to [now]. *)
Definition new_feature (fresh_id : Z) (sc : Schema) (now : datetime) : Feature :=
  {| id := fresh_id;
     name := s_name sc;
     version := s_version sc;
     dtype := s_dtype sc;
     entity_type := s_entity_type sc;
     ttl_hours := s_ttl_hours sc;
     description := s_description sc;
     tags := default [] (s_tags sc);
     created_at := now;
     updated_at := now |}.

(** [INSERT INTO features ... ON CONFLICT (name, version) DO UPDATE ...
    RETURNING id, created_at]: the table afterwards and the returned
    row. *)
Fixpoint upsert_feature (t : list Feature) (fresh_id : Z) (sc : Schema)
    (now : datetime) : list Feature * Feature :=
  match t with
  | [] => ([new_feature fresh_id sc now], new_feature fresh_id sc now)
  | x :: t' =>
      if decide (name x = s_name sc ∧ version x = s_version sc)
      then (update_feature x sc now :: t', update_feature x sc now)
      else let '(t'', row) := upsert_feature t' fresh_id sc now in
           (x :: t'', row)
  end.

(** [register(name, version, dtype, entity_type, ttl_hours, description,
    tags)]; [fresh_id] is the id the table would give to a new row and
    [now] the time of the statement. *)
Definition register (r : FeatureRegistry) (fresh_id : Z) (now : datetime)
    (sc : Schema) : FeatureRegistry * outcome (Z * datetime) :=
  if registry_up r
  then let '(t, row) := upsert_feature (rows r) fresh_id sc now in
       (set_rows t r, Ok (id row, created_at row))
  else (r, Raise PostgresError).             (* logged, then re-raised *)

(** [ORDER BY version DESC]. *)
Definition newest_version_first (a b : Feature) : Prop := version b ≤ version a.

#[global] Instance newest_version_first_dec : RelDecision newest_version_first.
Proof. intros a b. unfold newest_version_first. apply _. Defined.

(** [get_feature(name, version=None)].  [if version:] sends both [None]
    and 0 to the latest-version query. *)
Definition get_feature (r : FeatureRegistry) (feature_name : string)
    (feature_version : option Z) : outcome (option Feature) :=
  if registry_up r
  then
    match feature_version with
    | Some v =>
        if decide (v = 0)
        then Ok (head (merge_sort newest_version_first
                         (filter (λ x, name x = feature_name) (rows r))))
        else Ok (head (filter (λ x, name x = feature_name ∧ version x = v)
                              (rows r)))
    | None =>
        Ok (head (merge_sort newest_version_first
                    (filter (λ x, name x = feature_name) (rows r))))
    end
  else Raise PostgresError.

(** [ORDER BY name, version]. *)
Definition name_version_leb (a b : Feature) : bool :=
  match String.compare (name a) (name b) with
  | Lt => true
  | Gt => false
  | Eq => bool_decide (version a ≤ version b)
  end.

Definition name_version_le (a b : Feature) : Prop := name_version_leb a b = true.

#[global] Instance name_version_le_dec : RelDecision name_version_le.
Proof. intros a b. unfold name_version_le. apply _. Defined.

(** [list_features(entity_type=None)].  [if entity_type:] sends both
    [None] and the empty string to the unfiltered query. *)
Definition list_features (r : FeatureRegistry) (etype : option string)
  : outcome (list Feature) :=
  if registry_up r
  then
    match etype with
    | Some e =>
        if decide (e = "")
        then Ok (merge_sort name_version_le (rows r))
        else Ok (merge_sort name_version_le
                   (filter (λ x, entity_type x = e) (rows r)))
    | None => Ok (merge_sort name_version_le (rows r))
    end
  else Raise PostgresError.

(** [get_feature_by_id(feature_id)]. *)
Definition get_feature_by_id (r : FeatureRegistry) (feature_id : Z)
  : outcome (option Feature) :=
  if registry_up r
  then Ok (head (filter (λ x, id x = feature_id) (rows r)))
  else Raise PostgresError.

(** The unique constraint on (name, version). *)
Definition name_version (x : Feature) : string * Z := (name x, version x).

End Registry.

(** ** store/redis_cache.py: single-key operations and flush *)

Module CacheOps.
Import RedisCache.

Section WithWire.
Context `{Wire}.

(** [get(key)]: the value is decoded when it is there and non-empty; any
    failure is logged and gives [None]. *)
Definition get (c : FeatureCache) (key : string) : outcome (option CacheRecord) :=
  try_except
    (if client_up c
     then match fst <$> keyspace c !! key with
          | Some b =>
              if truthy b
              then match unpackb b with
                   | Some v => Ok (Some v)
                   | None => Raise MsgpackError
                   end
              else Ok None
          | None => Ok None
          end
     else Raise RedisError)
    (λ _, Ok None).

(** [set(key, value, ttl)]: serialize, SETEX; any failure is logged and
    dropped.  As for [pipeline_setex], the write is recorded as the server
    applies it for a positive TTL. *)
Definition set (c : FeatureCache) (key : string) (v : CacheRecord) (ttl : Z)
  : FeatureCache * outcome unit :=
  match packb v with
  | None => (c, Ok tt)                               (* warning logged *)
  | Some serialized =>
      if client_up c
      then (set_keyspace (<[key := (serialized, ttl)]> (keyspace c)) c, Ok tt)
      else (c, Ok tt)                                (* warning logged *)
  end.

(** [flush()]: FLUSHDB; a failure is logged and re-raised. *)
Definition flush (c : FeatureCache) : FeatureCache * outcome unit :=
  if client_up c
  then (set_keyspace ∅ c, Ok tt)
  else (c, Raise RedisError).

(** [connect()]: the client is created and pinged; a failure is logged
    and re-raised. *)
Definition connect (c : FeatureCache) : outcome FeatureCache :=
  if client_up c then Ok c else Raise RedisError.

(** The codec gives back what it was given, as non-empty bytes. *)
Definition round_trips (v : CacheRecord) : Prop :=
  ∃ b, packb v = Some b ∧ truthy b = true ∧ unpackb b = Some v.

End WithWire.

End CacheOps.

(** ** api/auth.py *)

Module Auth.




End Auth.

(** ** api/routes.py: the other routes *)

Module MoreRoutes.
Import Postgres RedisCache Routes.

Record BatchFeatureRequest : Type := {
  entity_ids : list string;
  b_feature_names : list string;
  b_timestamp : option datetime }.

Record BatchFeatureResponse : Type := {
  b_features : gmap string (gmap string FeatureValue);
  b_as_of : datetime;                       (* the [timestamp] field *)
  b_count : nat }.

Record InvalidateResponse : Type := {
  i_status : string;
  i_entity_id : string;
  invalidated_count : Z }.

Record ReadinessResponse : Type := {
  rd_status : string;
  rd_database : bool;
  rd_cache : bool;
  rd_timestamp : datetime }.

(** [FeatureValue(value=..., timestamp=...)]: no freshness. *)
Definition of_batch (d : FeatureData) : FeatureValue :=
  {| value := fd_value d;
     timestamp := fd_timestamp d;
     freshness_seconds := None |}.

Section WithWire.
Context `{Wire}.

(** [request.timestamp or datetime.utcnow()]: the clock is read only when
    the request carries no timestamp. *)
Definition timestamp_or_now (w : World) (request : BatchFeatureRequest)
  : datetime * World :=
  match b_timestamp request with
  | Some t => (t, w)
  | None => utcnow w
  end.

(** [get_batch_features]: no cache, one point-in-time query, then the
    matrix is reshaped.  [request.timestamp or datetime.utcnow()] is
    evaluated once for the query and once more for the response. *)
Definition get_batch_features (w : World) (request : BatchFeatureRequest)
  : World * outcome BatchFeatureResponse :=
  let '(as_of, w1) := timestamp_or_now w request in
  match get_features (store w1) (entity_ids request) (b_feature_names request)
                     (Some as_of) as_of with
  | (s', Raise e) => (set_store s' w1, Raise e)
  | (s', Ok feature_matrix) =>
      let w2 := set_store s' w1 in
      let formatted_features :=
        (λ features : gmap string FeatureData, of_batch <$> features)
          <$> feature_matrix in
      let '(stamp, w3) := timestamp_or_now w2 request in
      (w3, Ok {| b_features := formatted_features;
                 b_as_of := stamp;
                 b_count := size formatted_features |})
  end.

(** [invalidate_cache(entity_id)]. *)
Definition invalidate_cache (w : World) (entity : string)
  : World * outcome InvalidateResponse :=
  match cache w with
  | None => (w, Raise AttributeError)
  | Some c =>
      match invalidate c (entity +:+ ":*") with
      | (c', Raise e) => (set_cache c' w, Raise e)
      | (c', Ok n) =>
          (set_cache c' w,
           Ok {| i_status := "success";
                 i_entity_id := entity;
                 invalidated_count := n |})
      end
  end.

(** [readiness_check]: the store is probed, then the cache; whatever
    fails, status 503. *)
Definition readiness_check (w : World) : World * outcome ReadinessResponse :=
  if pool_up (store w)
  then
    let w1 := set_store (log_event AcquireConn (store w)) w in
    match cache w1 with
    | None => (w1, Raise (HTTPException 503))        (* AttributeError *)
    | Some c =>
        if client_up c
        then let '(now, w2) := utcnow w1 in
             (w2, Ok {| rd_status := "ready"; rd_database := true;
                        rd_cache := true; rd_timestamp := now |})
        else (w1, Raise (HTTPException 503))
    end
  else (w, Raise (HTTPException 503)).


End WithWire.

(** [get_feature_metadata(name, version)]: 404 when the registry has no
    such feature. *)
Definition get_feature_metadata (r : Registry.FeatureRegistry)
    (feature_name : string) (feature_version : option Z)
  : outcome Registry.Feature :=
  match Registry.get_feature r feature_name feature_version with
  | Raise e => Raise e
  | Ok None => Raise (HTTPException 404)
  | Ok (Some feature) => Ok feature
  end.

(** [register_feature(schema)]: any failure of the registry becomes an
    HTTPException with status 500. *)
Definition register_feature (r : Registry.FeatureRegistry) (fresh_id : Z)
    (now : datetime) (sc : Registry.Schema)
  : Registry.FeatureRegistry * outcome (Z * datetime) :=
  match Registry.register r fresh_id now sc with
  | (r', Raise _) => (r', Raise (HTTPException 500))
  | (r', Ok res) => (r', Ok res)
  end.

End MoreRoutes.

(** ** api/main.py: start-up *)

Module Lifespan.
Import Postgres RedisCache Routes.

(** [FeatureStore.connect()]: the pool is created; a failure is logged
    and re-raised. *)
Definition connect_store (s : FeatureStore) : outcome FeatureStore :=
  if pool_up s then Ok s else Raise PostgresError.

Definition connect_registry (r : Registry.FeatureRegistry)
  : outcome Registry.FeatureRegistry :=
  if Registry.registry_up r then Ok r else Raise PostgresError.

Section WithWire.
Context `{Wire}.

(** The start-up half of [lifespan]: store and registry must connect;
    if Redis does not, the application goes on with [cache = None]. *)
Definition startup (s : FeatureStore) (r : Registry.FeatureRegistry)
    (c : FeatureCache) (cfg : Config.Settings) (clk : nat → datetime)
  : outcome (World * Registry.FeatureRegistry) :=
  match connect_store s with
  | Raise e => Raise e
  | Ok s' =>
      match connect_registry r with
      | Raise e => Raise e
      | Ok r' =>
          Ok ({| store := s';
                 cache := match CacheOps.connect c with
                          | Ok c' => Some c'
                          | Raise _ => None
                          end;
                 settings := cfg; clock := clk; ticks := 0 |}, r')
      end
  end.

End WithWire.

End Lifespan.

(** ** Further vocabulary and scenarios *)

Module Vocabulary.
Import Postgres.

(** Every feature name is registered under one id only (one version). *)
Definition single_version (s : FeatureStore) : Prop :=
  Forall (λ fr, Forall (λ fr', f_name fr = f_name fr' → f_id fr = f_id fr')
                       (features s)) (features s).

(** The unique index on (feature_id, entity_id, timestamp) holds. *)
Definition unique_keys (s : FeatureStore) : Prop :=
  NoDup (row_key <$> feature_values s).

(** The keys a batch writes. *)
Definition batch_keys (batch : list FeatureWrite) : list (Z * string * Z) :=
  (λ f, row_key (to_args f)) <$> batch.

End Vocabulary.

(** ** More concrete inputs *)

Module Scenarios.
Import Postgres RedisCache Routes.

(** A wire format that cannot serialize a record whose value is null and
    is the identity otherwise. *)
Definition picky_wire : Wire :=
  {| bytes := CacheRecord;
     packb := λ v, match c_value v with JNull => None | _ => Some v end;
     unpackb := Some;
     truthy := λ _, true;
     glob_match := Examples.star_glob |}.

Definition null_record : CacheRecord :=
  {| c_value := JNull; c_timestamp := 1000; c_freshness := None |}.

Definition ltv_cached : CacheRecord :=
  {| c_value := JInt 1500; c_timestamp := 990; c_freshness := Some 15 |}.

(** Two entities cached, three keys. *)
Definition three_keys : gmap string (CacheRecord * Z) :=
  {[ "u42:user_age" := (Examples.age_cached, 3600);
     "u42:user_ltv" := (ltv_cached, 3600);
     "u7:user_age" := (Examples.age_cached, 60) ]}.

Definition batch_ask (ids names : list string) (t : option datetime)
  : MoreRoutes.BatchFeatureRequest :=
  {| MoreRoutes.entity_ids := ids;
     MoreRoutes.b_feature_names := names;
     MoreRoutes.b_timestamp := t |}.

(** The store is fine, Redis was not reachable at start-up. *)
Definition no_cache : World :=
  {| store := Examples.pg [Examples.age_row] true; cache := None;
     settings := Config.defaults; clock := Examples.steady 1005; ticks := 0 |}.

Definition age_v1 : Registry.Feature :=
  {| Registry.id := 1; Registry.name := "user_age"; Registry.version := 1;
     Registry.dtype := "int64"; Registry.entity_type := "user";
     Registry.ttl_hours := 24; Registry.description := "age";
     Registry.tags := []; Registry.created_at := 100;
     Registry.updated_at := 100 |}.

Definition age_v2 : Registry.Feature :=
  {| Registry.id := 5; Registry.name := "user_age"; Registry.version := 2;
     Registry.dtype := "float64"; Registry.entity_type := "user";
     Registry.ttl_hours := 12; Registry.description := "age, v2";
     Registry.tags := ["demo"]; Registry.created_at := 200;
     Registry.updated_at := 200 |}.

Definition price_v1 : Registry.Feature :=
  {| Registry.id := 3; Registry.name := "price"; Registry.version := 1;
     Registry.dtype := "float64"; Registry.entity_type := "product";
     Registry.ttl_hours := 24; Registry.description := "";
     Registry.tags := []; Registry.created_at := 150;
     Registry.updated_at := 150 |}.

Definition catalog : Registry.FeatureRegistry :=
  {| Registry.rows := [age_v1; price_v1; age_v2];
     Registry.registry_up := true |}.

Definition age_v1_again : Registry.Schema :=
  {| Registry.s_name := "user_age"; Registry.s_version := 1;
     Registry.s_dtype := "float64"; Registry.s_entity_type := "user";
     Registry.s_ttl_hours := 48; Registry.s_description := "age in years";
     Registry.s_tags := None |}.

(** A wire format whose packer refuses every record, as a packer does
    that has no encoding for one of the fields; what is already in the
    cache still decodes. *)
Definition strict_wire : Wire :=
  {| bytes := CacheRecord;
     packb := λ _, None;
     unpackb := Some;
     truthy := λ _, true;
     glob_match := Examples.star_glob |}.

(** One of two features cached, the other only in the store, behind
    [strict_wire]. *)
Definition half_cached_strict : @World strict_wire :=
  {| store := Examples.pg [Examples.age_row; Examples.ltv_row] true;
     cache :=
       Some {| keyspace := {[ "u42:user_age" := (Examples.age_cached, 3600) ]};
               client_up := true |};
     settings := Config.defaults;
     clock := Examples.steady 1005;
     ticks := 0 |}.

(** The record the online read builds for the cache from [ltv_row] at the
    second reading of that clock. *)
Definition ltv_backfill : CacheRecord :=
  {| c_value := JInt 1500; c_timestamp := 990; c_freshness := Some 16 |}.

End Scenarios.

(** * Properties *)

(** ** The durable store: writes *)

Section WriteFacts.
Import Postgres.

Lemma do_update_same_key (x r : ValueRow) :
  row_key x = row_key r → do_update x r = r.
Proof.
  destruct x, r. unfold row_key, do_update. simpl.
  intros [= -> -> ->]. reflexivity.
Qed.














Lemma write_features_cons (s : FeatureStore) (f : FeatureWrite)
    (batch : list FeatureWrite) :
  write_features s (f :: batch) =
  if pool_up s
  then executemany (log_event AcquireConn s) (to_args <$> f :: batch)
  else (s, Raise PostgresError).
Proof. reflexivity. Qed.

Lemma executemany_values (s : FeatureStore) (args : list ValueRow) :
  feature_values (executemany s args).1 =
  if forallb (fk_ok s) args then foldl upsert (feature_values s) args
  else feature_values s.
Proof. unfold executemany. by destruct (forallb _ _). Qed.





(** An upsert on a key that is present updates in place: the table keeps
    its keys, hence its length. *)
Lemma upsert_present_keys (t : list ValueRow) (r : ValueRow) :
  row_key r ∈ row_key <$> t → row_key <$> upsert t r = row_key <$> t.
Proof.
  induction t as [|x t IH]; intros Hin; [by apply elem_of_nil in Hin|].
  simpl. case_decide as Hk; [done|].
  simpl. f_equal. apply IH.
  apply elem_of_cons in Hin as [Heq|Hin]; [congruence | done].
Qed.

(** The unique index on (feature_id, entity_id, timestamp) is preserved. *)
Lemma upsert_keys (t : list ValueRow) (r : ValueRow) :
  row_key <$> upsert t r =
  if decide (row_key r ∈ row_key <$> t) then row_key <$> t
  else (row_key <$> t) ++ [row_key r].
Proof.
  induction t as [|x t IH].
  - rewrite decide_False; [done | apply not_elem_of_nil].
  - rewrite fmap_cons. cbn [upsert].
    destruct (decide (row_key x = row_key r)) as [Hk|Hk].
    + rewrite decide_True; [done | rewrite Hk; apply list_elem_of_here].
    + rewrite fmap_cons, IH.
      destruct (decide (row_key r ∈ row_key <$> t)) as [Hin|Hin].
      * rewrite decide_True; [done | by apply list_elem_of_further].
      * rewrite decide_False; [done|].
        intros [Heq|Hin']%elem_of_cons; congruence.
Qed.

Lemma upsert_NoDup (t : list ValueRow) (r : ValueRow) :
  NoDup (row_key <$> t) → NoDup (row_key <$> upsert t r).
Proof.
  intros Hnd. rewrite upsert_keys. case_decide as Hin; [done|].
  apply NoDup_app. split_and!; [done | | apply NoDup_singleton].
  intros k Hk ->%list_elem_of_singleton. done.
Qed.

(** The row found under the key of the statement just run carries the
    value and the metadata of that statement. *)
Lemma upsert_lookup (t : list ValueRow) (r : ValueRow) :
  list_find (λ x, row_key x = row_key r) (upsert t r) =
  Some (default (length t) (fst <$> list_find (λ x, row_key x = row_key r) t), r).
Proof.
  induction t as [|x t IH]; simpl.
  - by rewrite decide_True.
  - destruct (decide (row_key x = row_key r)) as [Hk|Hk].
    + simpl. rewrite decide_True by apply Hk.
      by rewrite do_update_same_key.
    + simpl. rewrite decide_False by done. rewrite IH. simpl.
      destruct (list_find _ t) as [[i y]|]; reflexivity.
Qed.



(** C10.  [write_features] on an empty batch returns normally and is a
    complete no-op: the store object it returns is the one it was given,
    so no connection was acquired and no statement was sent (the log of
    the pool is unchanged), nothing was raised, and both tables are
    untouched. *)
Theorem write_features_empty_noop (s : FeatureStore) :
  write_features s [] = (s, Ok tt) ∧
  pg_log (write_features s []).1 = pg_log s ∧
  feature_values (write_features s []).1 = feature_values s.
Proof. done. Qed.

End WriteFacts.

(** ** The durable store: the point-in-time query *)

Section OrderFacts.
Import Postgres.

Lemma compare_refl (a : string) : String.compare a a = Eq.
Proof. by apply OrderedTypeEx.String_as_OT.cmp_eq. Qed.

Lemma compare_eq (a b : string) : String.compare a b = Eq → a = b.
Proof. apply OrderedTypeEx.String_as_OT.cmp_eq. Qed.

Lemma compare_gt_lt (a b : string) :
  String.compare a b = Gt → String.compare b a = Lt.
Proof.
  intros Hgt. rewrite OrderedTypeEx.String_as_OT.cmp_antisym.
  unfold OrderedTypeEx.String_as_OT.cmp. by rewrite Hgt.
Qed.

Lemma compare_lt_trans (a b c : string) :
  String.compare a b = Lt → String.compare b c = Lt → String.compare a c = Lt.
Proof.
  intros Hab Hbc.
  apply OrderedTypeEx.String_as_OT.cmp_lt.
  eapply OrderedTypeEx.String_as_OT.lt_trans;
    by apply OrderedTypeEx.String_as_OT.cmp_lt.
Qed.

(** The sort order, spelled out. *)
Lemma order_le_spec (a b : QueryRow) :
  order_le a b ↔
  String.compare (q_entity_id a) (q_entity_id b) = Lt ∨
  (q_entity_id a = q_entity_id b ∧
   (String.compare (q_feature_name a) (q_feature_name b) = Lt ∨
    (q_feature_name a = q_feature_name b ∧ q_timestamp b ≤ q_timestamp a))).
Proof.
  unfold order_le, order_leb.
  destruct (String.compare (q_entity_id a) (q_entity_id b)) eqn:He.
  - apply compare_eq in He.
    destruct (String.compare (q_feature_name a) (q_feature_name b)) eqn:Hn.
    + apply compare_eq in Hn. rewrite bool_decide_eq_true.
      split; [by auto|]. intros [?|[_ [?|[_ ?]]]]; done.
    + split; [|done]. intros _. right. split; [done|]. by left.
    + split; [done|].
      intros [?|[_ [?|[Heq _]]]]; try done.
      rewrite Heq, compare_refl in Hn. done.
  - split; [|done]. intros _. by left.
  - split; [done|].
    intros [?|[Heq _]]; [done|].
    rewrite Heq, compare_refl in He. done.
Qed.

#[global] Instance order_le_total : Total order_le.
Proof.
  intros a b. rewrite !order_le_spec.
  destruct (String.compare (q_entity_id a) (q_entity_id b)) eqn:He.
  - apply compare_eq in He.
    destruct (String.compare (q_feature_name a) (q_feature_name b)) eqn:Hn.
    + apply compare_eq in Hn.
      destruct (Z.le_ge_cases (q_timestamp a) (q_timestamp b));
        [right | left]; right; split; try done; right; split; done.
    + left. right. split; [done|]. by left.
    + apply compare_gt_lt in Hn. right. right. split; [done|]. by left.
  - left. by left.
  - apply compare_gt_lt in He. right. by left.
Qed.

#[global] Instance order_le_trans : Transitive order_le.
Proof.
  intros a b c. rewrite !order_le_spec.
  intros [Hab|[Heab Hab]] [Hbc|[Hebc Hbc]].
  - left. by eapply compare_lt_trans.
  - left. by rewrite <- Hebc.
  - left. by rewrite Heab.
  - right. split; [congruence|].
    destruct Hab as [Hab|[Hnab Hab]], Hbc as [Hbc|[Hnbc Hbc]].
    + left. by eapply compare_lt_trans.
    + left. by rewrite <- Hnbc.
    + left. by rewrite Hnab.
    + right. split; [congruence | lia].
Qed.

(** Within one (entity, feature) group, earlier in the order means not
    older. *)
Lemma order_le_same_key (a b : QueryRow) :
  order_le a b → distinct_key a = distinct_key b →
  q_timestamp b ≤ q_timestamp a.
Proof.
  rewrite order_le_spec. unfold distinct_key. intros Hle [= He Hn].
  rewrite He, Hn, !compare_refl in Hle.
  by destruct Hle as [?|[_ [?|[_ ?]]]].
Qed.

Lemma order_by_elem_of (rows : list QueryRow) (q : QueryRow) :
  q ∈ order_by rows ↔ q ∈ rows.
Proof. unfold order_by. by rewrite merge_sort_Permutation. Qed.

Lemma order_by_sorted (rows : list QueryRow) :
  StronglySorted order_le (order_by rows).
Proof. apply StronglySorted_merge_sort; apply _. Qed.

End OrderFacts.

Section QueryFacts.
Import Postgres.

Lemma elem_of_join_features (s : FeatureStore) (fv : ValueRow) (f : FeatureRow) :
  (fv, f) ∈ join_features s ↔
  fv ∈ feature_values s ∧ f ∈ features s ∧ f_id f = fv_feature_id fv.
Proof.
  unfold join_features. rewrite list_elem_of_bind. split.
  - intros (fv' & Hin & Hfv).
    apply list_elem_of_bind in Hin as (f' & Hin & Hf).
    case_decide as Hid; [|by apply elem_of_nil in Hin].
    apply list_elem_of_singleton in Hin as [= -> ->]. done.
  - intros (Hfv & Hf & Hid). exists fv. split; [|done].
    apply list_elem_of_bind. exists f. split; [|done].
    rewrite decide_True by done. apply list_elem_of_here.
Qed.

Lemma elem_of_matching_rows (s : FeatureStore) (ids names : list string)
    (as_of : datetime) (q : QueryRow) :
  q ∈ matching_rows s ids names as_of ↔
  ∃ fv f, fv ∈ feature_values s ∧ f ∈ features s ∧
          f_id f = fv_feature_id fv ∧
          fv_entity_id fv ∈ ids ∧ f_name f ∈ names ∧
          fv_timestamp fv ≤ as_of ∧ q = select_row (fv, f).
Proof.
  unfold matching_rows. rewrite list_elem_of_fmap. split.
  - intros ([fv f] & -> & Hin).
    apply list_elem_of_filter in Hin as [Hw Hin].
    apply elem_of_join_features in Hin as (? & ? & ?).
    unfold where_clause in Hw. simpl in Hw.
    apply andb_true_iff in Hw as [Hw Ht].
    apply andb_true_iff in Hw as [He Hn].
    apply bool_decide_eq_true in He, Hn, Ht.
    exists fv, f. done.
  - intros (fv & f & ? & ? & ? & He & Hn & Ht & ->).
    exists (fv, f). split; [done|].
    apply list_elem_of_filter. split; [|by apply elem_of_join_features].
    unfold where_clause. simpl.
    by rewrite !bool_decide_eq_true_2.
Qed.

(** A row kept by DISTINCT ON is the first of its group. *)
Lemma distinct_on_first (seen : list (string * string)) (rows : list QueryRow)
    (q : QueryRow) :
  q ∈ distinct_on seen rows →
  ∃ before after, rows = before ++ (q :: after) ∧
                  (distinct_key q ∉ seen) ∧
                  (distinct_key q ∉ distinct_key <$> before).
Proof.
  revert seen. induction rows as [|r rows IH]; intros seen Hin; simpl in Hin.
  - by apply elem_of_nil in Hin.
  - destruct (decide (distinct_key r ∈ seen)) as [Hseen|Hseen].
    + destruct (IH _ Hin) as (before & after & -> & Hq & Hb).
      exists (r :: before), after. split_and!; [done..|].
      rewrite fmap_cons. intros [Heq|?]%elem_of_cons; [|done].
      congruence.
    + apply elem_of_cons in Hin as [->|Hin].
      * exists [], rows. split_and!; [done..|]. apply not_elem_of_nil.
      * destruct (IH _ Hin) as (before & after & -> & Hq & Hb).
        apply not_elem_of_cons in Hq as [Hne Hq].
        exists (r :: before), after. split_and!; [done..|].
        rewrite fmap_cons. intros [Heq|?]%elem_of_cons; done.
Qed.

(** Every group of the input is represented in the output. *)
Lemma distinct_on_covers (seen : list (string * string)) (rows : list QueryRow)
    (q : QueryRow) :
  q ∈ rows → distinct_key q ∉ seen →
  ∃ q', q' ∈ distinct_on seen rows ∧ distinct_key q' = distinct_key q.
Proof.
  revert seen. induction rows as [|r rows IH]; intros seen Hin Hseen.
  - by apply elem_of_nil in Hin.
  - simpl. destruct (decide (distinct_key r = distinct_key q)) as [Hk|Hk].
    + rewrite decide_False by congruence.
      exists r. split; [apply list_elem_of_here | done].
    + apply elem_of_cons in Hin as [->|Hin]; [done|].
      destruct (decide (distinct_key r ∈ seen)).
      * by apply IH.
      * destruct (IH (distinct_key r :: seen) Hin) as (q' & Hq' & Hkq').
        { apply not_elem_of_cons. split; [congruence | done]. }
        exists q'. split; [by apply list_elem_of_further | done].
Qed.

Lemma slot_reshape_step (m : gmap string (gmap string FeatureData))
    (q : QueryRow) (e f : string) :
  slot (reshape_step m q) e f =
  if decide (distinct_key q = (e, f)) then Some (to_data q) else slot m e f.
Proof.
  unfold slot, reshape_step, distinct_key.
  destruct (decide (q_entity_id q = e)) as [<-|He].
  - rewrite lookup_insert_eq. simpl.
    destruct (decide (q_feature_name q = f)) as [<-|Hf].
    + rewrite lookup_insert_eq. by rewrite decide_True.
    + rewrite lookup_insert_ne by done.
      rewrite decide_False by congruence.
      by destruct (m !! q_entity_id q).
  - rewrite lookup_insert_ne by done.
    by rewrite decide_False by congruence.
Qed.

Lemma slot_reshape_mono (rows : list QueryRow)
    (m : gmap string (gmap string FeatureData)) (e f : string) :
  is_Some (slot m e f) → is_Some (slot (foldl reshape_step m rows) e f).
Proof.
  revert m. induction rows as [|q rows IH]; intros m Hm; [done|].
  simpl. apply IH. rewrite slot_reshape_step. by case_decide.
Qed.

Lemma slot_reshape_Some (rows : list QueryRow)
    (m : gmap string (gmap string FeatureData)) (e f : string) (d : FeatureData) :
  slot (foldl reshape_step m rows) e f = Some d →
  (∃ q, q ∈ rows ∧ distinct_key q = (e, f) ∧ d = to_data q) ∨
  slot m e f = Some d.
Proof.
  revert m. induction rows as [|q rows IH]; intros m Hd; [by right|].
  simpl in Hd. apply IH in Hd as [(q' & Hin & Hk & Hd)|Hd].
  - left. exists q'. split; [by apply list_elem_of_further | done].
  - rewrite slot_reshape_step in Hd. case_decide as Hk; [|by right].
    left. exists q. split; [apply list_elem_of_here|]. by injection Hd as <-.
Qed.

Lemma slot_reshape_is_Some (rows : list QueryRow)
    (m : gmap string (gmap string FeatureData)) (e f : string) (q : QueryRow) :
  q ∈ rows → distinct_key q = (e, f) →
  is_Some (slot (foldl reshape_step m rows) e f).
Proof.
  revert m. induction rows as [|r rows IH]; intros m Hin Hk.
  - by apply elem_of_nil in Hin.
  - simpl. apply elem_of_cons in Hin as [->|Hin]; [|by apply IH].
    apply slot_reshape_mono. rewrite slot_reshape_step.
    by rewrite decide_True.
Qed.

Lemma slot_empty (e f : string) : slot ∅ e f = None.
Proof. unfold slot. by rewrite lookup_empty. Qed.

(** What the query returns for a pair is a latest stored sample of that
    pair among those not later than [as_of], and the pair was asked for. *)
Lemma run_query_sound (s : FeatureStore) (ids names : list string)
    (as_of : datetime) (q : QueryRow) :
  q ∈ run_query s ids names as_of →
  q_entity_id q ∈ ids ∧ q_feature_name q ∈ names ∧
  ∃ fv, latest_as_of s (q_entity_id q) (q_feature_name q) as_of fv ∧
        to_data q = data_of fv.
Proof.
  unfold run_query. intros Hq.
  apply distinct_on_first in Hq as (before & after & Hsplit & _ & Hfirst).
  pose proof (order_by_sorted (matching_rows s ids names as_of)) as Hsorted.
  assert (q ∈ matching_rows s ids names as_of) as Hin.
  { apply order_by_elem_of. rewrite Hsplit.
    apply elem_of_app. right. apply list_elem_of_here. }
  apply elem_of_matching_rows in Hin
    as (fv & f & Hfv & Hf & Hid & He & Hn & Ht & ->).
  simpl. split_and!; [done..|].
  exists fv. split; [|done].
  split_and!; [by repeat split; eauto | done |].
  intros fv' (Hfv' & He' & f' & Hf' & Hid' & Hn') Ht'.
  set (q' := select_row (fv', f')).
  assert (q' ∈ order_by (matching_rows s ids names as_of)) as Hin'.
  { apply order_by_elem_of, elem_of_matching_rows.
    exists fv', f'. split_and!; try done; congruence. }
  assert (distinct_key q' = distinct_key (select_row (fv, f))) as Hkey.
  { unfold distinct_key, q'. simpl. congruence. }
  rewrite Hsplit in Hin', Hsorted.
  apply (order_le_same_key (select_row (fv, f)) q'); [|done].
  apply elem_of_app in Hin' as [Hin'|Hin'].
  - exfalso. apply Hfirst. rewrite <- Hkey. by apply list_elem_of_fmap_2.
  - apply StronglySorted_app_1_r in Hsorted.
    apply StronglySorted_cons in Hsorted as [Hall _].
    apply elem_of_cons in Hin' as [->|Hin'].
    + apply order_le_spec. right. split; [done|]. right. split; [done | lia].
    + by eapply Forall_forall in Hall.
Qed.

(** A pair that was asked for and has a stored sample not later than
    [as_of] is represented in the rows the query returns. *)
Lemma run_query_complete (s : FeatureStore) (ids names : list string)
    (as_of : datetime) (e f : string) (fv : ValueRow) :
  e ∈ ids → f ∈ names → stored s e f fv → fv_timestamp fv ≤ as_of →
  ∃ q, q ∈ run_query s ids names as_of ∧ distinct_key q = (e, f).
Proof.
  intros He Hf (Hfv & Heq & fr & Hfr & Hid & Hname) Ht.
  set (q := select_row (fv, fr)).
  assert (q ∈ order_by (matching_rows s ids names as_of)) as Hin.
  { apply order_by_elem_of, elem_of_matching_rows.
    exists fv, fr. split_and!; try done; congruence. }
  destruct (distinct_on_covers [] _ q Hin) as (q' & Hq' & Hk).
  { apply not_elem_of_nil. }
  exists q'. split; [done|].
  rewrite Hk. unfold distinct_key, q. simpl. congruence.
Qed.

Lemma get_features_up (s : FeatureStore) (ids names : list string)
    (timestamp : option datetime) (now : datetime) :
  pool_up s = true →
  get_features s ids names timestamp now =
  (log_event (Fetch ids names (default now timestamp))
             (log_event AcquireConn s),
   Ok (reshape (run_query s ids names (default now timestamp)))).
Proof. unfold get_features. by intros ->. Qed.

Lemma get_features_down (s : FeatureStore) (ids names : list string)
    (timestamp : option datetime) (now : datetime) :
  pool_up s = false →
  get_features s ids names timestamp now = (s, Raise PostgresError).
Proof. unfold get_features. by intros ->. Qed.

(** A filled slot of the result. *)
Lemma query_slot_Some (s : FeatureStore) (ids names : list string)
    (as_of : datetime) (e f : string) (d : FeatureData) :
  slot (reshape (run_query s ids names as_of)) e f = Some d →
  e ∈ ids ∧ f ∈ names ∧ ∃ fv, latest_as_of s e f as_of fv ∧ d = data_of fv.
Proof.
  intros Hd. apply slot_reshape_Some in Hd as [(q & Hq & Hk & ->)|Hd].
  - apply run_query_sound in Hq. unfold distinct_key in Hk.
    injection Hk as <- <-. done.
  - by rewrite slot_empty in Hd.
Qed.

(** An empty slot of the result. *)
Lemma query_slot_None (s : FeatureStore) (ids names : list string)
    (as_of : datetime) (e f : string) :
  slot (reshape (run_query s ids names as_of)) e f = None ↔
  ¬ (e ∈ ids ∧ f ∈ names ∧ ∃ fv, stored s e f fv ∧ fv_timestamp fv ≤ as_of).
Proof.
  split.
  - intros Hnone (He & Hf & fv & Hfv & Ht).
    destruct (run_query_complete s ids names as_of e f fv) as (q & Hq & Hk);
      [done..|].
    destruct (slot_reshape_is_Some _ ∅ e f q Hq Hk) as [d Hd].
    unfold reshape in Hnone. congruence.
  - intros Hno.
    destruct (slot (reshape _) e f) as [d|] eqn:Hd; [|done].
    exfalso. apply Hno.
    apply query_slot_Some in Hd as (He & Hf & fv & (Hst & Ht & _) & _).
    eauto.
Qed.

(** C1.  A call of [get_features] with entity_ids, feature_names and an
    as_of timestamp on a reachable store returns a nested map in which,
    for every (entity_id, feature_name) pair: a filled slot belongs to a
    requested pair and holds the value, timestamp and metadata of a stored
    row of that pair whose timestamp is at most as_of and is the greatest
    among the stored rows of the pair that are at most as_of (so nothing
    returned is later than as_of); and the slot is absent from the map
    exactly when the pair was not requested or has no stored row at or
    before as_of. *)
Theorem get_features_point_in_time (s : FeatureStore)
    (entity_ids feature_names : list string) (as_of now : datetime) :
  pool_up s = true →
  ∃ result,
    (get_features s entity_ids feature_names (Some as_of) now).2 = Ok result ∧
    ∀ entity feature_name,
      (∀ d, slot result entity feature_name = Some d →
            entity ∈ entity_ids ∧ feature_name ∈ feature_names ∧
            fd_timestamp d ≤ as_of ∧
            ∃ fv, latest_as_of s entity feature_name as_of fv ∧
                  d = data_of fv) ∧
      (slot result entity feature_name = None ↔
       ¬ (entity ∈ entity_ids ∧ feature_name ∈ feature_names ∧
          ∃ fv, stored s entity feature_name fv ∧ fv_timestamp fv ≤ as_of)).
Proof.
  intros Hup. rewrite get_features_up by done. simpl.
  eexists. split; [reflexivity|].
  intros e f. split; [|apply query_slot_None].
  intros d Hd.
  apply query_slot_Some in Hd as (He & Hf & fv & Hlatest & ->).
  split_and!; [done..| |by exists fv].
  by destruct Hlatest as (_ & Ht & _).
Qed.

Lemma get_features_point_in_time_witness :
  pool_up (Examples.pg [Examples.age_row; Examples.ltv_row] true) = true ∧
  ∃ result,
    (get_features (Examples.pg [Examples.age_row; Examples.ltv_row] true)
                  ["u42"] ["user_age"] (Some 1005) 0).2 = Ok result ∧
    ∀ entity feature_name,
      (∀ d, slot result entity feature_name = Some d →
            entity ∈ ["u42"] ∧ feature_name ∈ ["user_age"] ∧
            fd_timestamp d ≤ 1005 ∧
            ∃ fv, latest_as_of
                    (Examples.pg [Examples.age_row; Examples.ltv_row] true)
                    entity feature_name 1005 fv ∧
                  d = data_of fv) ∧
      (slot result entity feature_name = None ↔
       ¬ (entity ∈ ["u42"] ∧ feature_name ∈ ["user_age"] ∧
          ∃ fv, stored (Examples.pg [Examples.age_row; Examples.ltv_row] true)
                       entity feature_name fv ∧ fv_timestamp fv ≤ 1005)).
Proof.
  split; [reflexivity|].
  apply (get_features_point_in_time
           (Examples.pg [Examples.age_row; Examples.ltv_row] true)
           ["u42"] ["user_age"] 1005 0).
  reflexivity.
Defined.

End QueryFacts.

(** ** The cache tier *)

Section CacheFacts.
Import RedisCache.
Context `{Wire}.

Lemma comprehension_unpack (c : FeatureCache) (keys : list string) :
  comprehension unpack_result ((λ key, fst <$> keyspace c !! key) <$> keys) =
  if forallb (decodes c) keys then Ok (cached_value c <$> keys)
  else Raise MsgpackError.
Proof.
  induction keys as [|key keys IH]; [done|].
  rewrite !fmap_cons. cbn [comprehension forallb].
  rewrite IH. unfold unpack_result, decodes, cached_value.
  destruct (keyspace c !! key) as [[b ttl]|]; simpl.
  - destruct (truthy b); simpl.
    + destruct (unpackb b) as [v|]; simpl; [|done].
      by destruct (forallb _ keys).
    + by destruct (forallb _ keys).
  - by destruct (forallb _ keys).
Qed.

Lemma replicate_const_fmap {A B} (l : list A) (y : B) :
  replicate (length l) y = (λ _, y) <$> l.
Proof. induction l; simpl; by f_equal. Qed.

Lemma get_many_nonempty (c : FeatureCache) (keys : list string) :
  keys ≠ [] →
  get_many c keys =
  try_except
    (match pipeline_get c keys with
     | Raise e => Raise e
     | Ok results => comprehension unpack_result results
     end)
    (λ _, Ok (replicate (length keys) None)).
Proof. by destruct keys. Qed.

(** [get_many] in closed form: it never raises, and answers key by key. *)
Lemma get_many_answer (c : FeatureCache) (keys : list string) :
  get_many c keys = Ok (answer c keys <$> keys).
Proof.
  destruct (decide (keys = [])) as [->|Hne]; [done|].
  rewrite get_many_nonempty by done.
  unfold pipeline_get, answer, batch_ok.
  destruct (client_up c); simpl.
  - rewrite comprehension_unpack.
    destruct (forallb (decodes c) keys); simpl; [done|].
    by rewrite replicate_const_fmap.
  - by rewrite replicate_const_fmap.
Qed.

Lemma set_many_never_raises (c : FeatureCache) (data : gmap string CacheRecord)
    (ttl : Z) :
  (set_many c data ttl).2 = Ok tt.
Proof.
  unfold set_many, pipeline_setex. case_decide; [done|].
  destruct (comprehension _ _); [|done]. by destruct (client_up c).
Qed.

Lemma set_many_down (c : FeatureCache) (data : gmap string CacheRecord) (ttl : Z) :
  client_up c = false → set_many c data ttl = (c, Ok tt).
Proof.
  intros Hdown. unfold set_many, pipeline_setex. case_decide; [done|].
  destruct (comprehension _ _); [|done]. by rewrite Hdown.
Qed.

Lemma invalidate_never_raises (c : FeatureCache) (pattern : string) :
  ∃ n, (invalidate c pattern).2 = Ok n.
Proof.
  unfold invalidate, scan_iter, delete_keys.
  destruct (client_up c); [|by eexists].
  destruct (filter _ _); by eexists.
Qed.

Lemma invalidate_down (c : FeatureCache) (pattern : string) :
  client_up c = false → invalidate c pattern = (c, Ok 0).
Proof. intros Hdown. unfold invalidate, scan_iter. by rewrite Hdown. Qed.

(** C5.  For every list of keys [get_many] returns normally, with a list
    as long as the input whose i-th element answers the i-th key: when the
    batched operation goes through, element i is the record cached under
    key i (absent if there is none); when it fails (the server does not
    answer, or a payload does not decode), every position is [None], so
    that the read path falls through to the durable store. *)
Theorem get_many_ordered_or_all_absent (c : FeatureCache) (keys : list string) :
  ∃ results,
    get_many c keys = Ok results ∧
    length results = length keys ∧
    results = (if batch_ok c keys then cached_value c <$> keys
               else replicate (length keys) None) ∧
    ∀ i, results !! i =
         (λ key, if batch_ok c keys then cached_value c key else None)
           <$> keys !! i.
Proof.
  exists (answer c keys <$> keys). split_and!.
  - apply get_many_answer.
  - apply length_fmap.
  - unfold answer. destruct (batch_ok c keys); [done|].
    by rewrite replicate_const_fmap.
  - intros i. by rewrite list_lookup_fmap.
Qed.

(** C3 (as the code has it).  When the cache server fails, no cache
    operation lets the error reach its caller, [invalidate] included: it
    returns 0, [get_many] answers all-absent and [set_many] returns
    normally. *)
Theorem cache_failures_never_propagate (c : FeatureCache) (pattern : string)
    (keys : list string) (data : gmap string CacheRecord) (ttl : Z) :
  client_up c = false →
  (invalidate c pattern).2 = Ok 0 ∧
  get_many c keys = Ok (replicate (length keys) None) ∧
  (set_many c data ttl).2 = Ok tt.
Proof.
  intros Hdown. split_and!.
  - by rewrite invalidate_down.
  - rewrite get_many_answer. f_equal. rewrite replicate_const_fmap.
    unfold answer, batch_ok. by rewrite Hdown.
  - by rewrite set_many_down.
Qed.

End CacheFacts.

Lemma cache_failures_never_propagate_witness :
  RedisCache.client_up Examples.down_cache = false ∧
  (RedisCache.invalidate Examples.down_cache "u42:*").2 = Ok 0 ∧
  RedisCache.get_many Examples.down_cache ["u42:user_age"] = Ok [None] ∧
  (RedisCache.set_many Examples.down_cache
     {[ "u42:user_age" := Examples.age_cached ]} 3600).2 = Ok tt.
Proof.
  split; [reflexivity|].
  apply (cache_failures_never_propagate Examples.down_cache "u42:*"
           ["u42:user_age"] {[ "u42:user_age" := Examples.age_cached ]} 3600).
  reflexivity.
Defined.

(** C3, as stated, fails: with the server down and an entry to
    invalidate, [invalidate] returns 0 instead of raising. *)
Lemma invalidate_swallows_failure :
  RedisCache.client_up Examples.down_cache = false ∧
  (RedisCache.invalidate Examples.down_cache "u42:*").2 = Ok 0 ∧
  ¬ ∃ e, (RedisCache.invalidate Examples.down_cache "u42:*").2 = Raise e.
Proof.
  split_and!; [reflexivity | reflexivity |].
  intros [e He]. vm_compute in He. discriminate He.
Qed.

(** ** The online read *)

Section CacheStepFacts.
Import Postgres RedisCache Routes.
Context `{Wire}.

(** The indexed loop never runs past the list of names. *)
Lemma process_cached_fold (names : list string) (i : nat)
    (zipped : list (string * option CacheRecord)) (acc : cache_acc) :
  (i + length zipped ≤ length names)%nat →
  process_cached names i zipped acc =
  Ok (foldl cache_loop_step acc (zip (drop i names) zipped.*2)).
Proof.
  revert i acc. induction zipped as [|[key v] rest IH]; intros i acc Hlen.
  - simpl. by rewrite zip_with_nil_r.
  - simpl in Hlen. cbn [process_cached].
    destruct (lookup_lt_is_Some_2 names i) as [name Hname]; [lia|].
    rewrite Hname, (drop_S names name i) by done.
    destruct acc as [[missing_features features] cache_hit].
    rewrite IH by lia. rewrite fmap_cons. simpl. by destruct v.
Qed.

Lemma zip_names_answers {A} (names : list string) (k : string → string)
    (g : string → A) :
  zip names (g <$> (k <$> names)) = (λ name, (name, g (k name))) <$> names.
Proof. induction names as [|n names IH]; simpl; by f_equal. Qed.

Lemma collect_hits_cons (h : string → option CacheRecord)
    (features : gmap string FeatureValue) (n : string) (names : list string) :
  collect_hits h features (n :: names) =
  collect_hits h (match h n with
                  | Some v => <[n := of_cached v]> features
                  | None => features
                  end) names.
Proof. reflexivity. Qed.

Lemma cache_loop_fold (h : string → option CacheRecord) (names : list string)
    (missing_features : list string) (features : gmap string FeatureValue)
    (cache_hit : bool) :
  foldl cache_loop_step (missing_features, features, cache_hit)
        ((λ name, (name, h name)) <$> names) =
  (missing_features ++ filter (λ name, h name = None) names,
   collect_hits h features names,
   cache_hit && bool_decide (filter (λ name, h name = None) names = [])).
Proof.
  revert missing_features features cache_hit.
  induction names as [|n names IH]; intros missing_features features cache_hit.
  - simpl. by rewrite app_nil_r, andb_true_r.
  - rewrite fmap_cons, collect_hits_cons.
    cbn [foldl cache_loop_step snd fst].
    destruct (h n) as [v|] eqn:Hn.
    + rewrite IH.
      rewrite filter_cons_False by (rewrite Hn; done). done.
    + rewrite IH.
      rewrite filter_cons_True by done.
      rewrite <- app_assoc. simpl. by rewrite andb_false_r.
Qed.

(** The cache step in closed form: it never raises; the names it leaves
    to the store are the unanswered ones, in input order; [cache_hit]
    says that there is none. *)
Lemma cache_step_spec (c : FeatureCache) (request : OnlineFeatureRequest) :
  cache_step c request =
  Ok (misses c request, hits c request, bool_decide (misses c request = [])).
Proof.
  unfold cache_step. rewrite get_many_answer.
  rewrite process_cached_fold.
  - rewrite drop_0, snd_zip by (by rewrite !length_fmap).
    change (cache_key (entity_id request) <$> feature_names request)
      with (request_keys request).
    unfold request_keys at 2. rewrite zip_names_answers.
    change (λ name, (name, answer c (request_keys request)
                                  (cache_key (entity_id request) name)))
      with (λ name, (name, hit c request name)).
    by rewrite cache_loop_fold.
  - rewrite length_zip_with, !length_fmap. lia.
Qed.

Lemma collect_hits_lookup (h : string → option CacheRecord)
    (features : gmap string FeatureValue) (names : list string) (k : string) :
  collect_hits h features names !! k =
  match h k with
  | Some v => if decide (k ∈ names) then Some (of_cached v) else features !! k
  | None => features !! k
  end.
Proof.
  revert features. induction names as [|n names IH]; intros features.
  - simpl. by destruct (h k).
  - rewrite collect_hits_cons, IH.
    destruct (h k) as [v|] eqn:Hk.
    + destruct (decide (k ∈ names)) as [Hin|Hin].
      * rewrite decide_True; [done | by apply list_elem_of_further].
      * destruct (decide (k = n)) as [->|Hne].
        -- rewrite Hk, lookup_insert_eq.
           rewrite decide_True; [done | apply list_elem_of_here].
        -- rewrite decide_False by (intros [?|?]%elem_of_cons; done).
           destruct (h n); [by rewrite lookup_insert_ne | done].
    + destruct (decide (k = n)) as [->|Hne]; [by rewrite Hk|].
      destruct (h n); [by rewrite lookup_insert_ne | done].
Qed.

Lemma hits_lookup (c : FeatureCache) (request : OnlineFeatureRequest)
    (k : string) :
  hits c request !! k =
  if decide (k ∈ feature_names request) then of_cached <$> hit c request k
  else None.
Proof.
  unfold hits. rewrite collect_hits_lookup, lookup_empty.
  destruct (hit c request k); by case_decide.
Qed.

Lemma elem_of_misses (c : FeatureCache) (request : OnlineFeatureRequest)
    (k : string) :
  k ∈ misses c request ↔ k ∈ feature_names request ∧ hit c request k = None.
Proof. unfold misses. rewrite list_elem_of_filter. tauto. Qed.

(** K + (number of misses) = N. *)
Lemma hit_count_misses (c : FeatureCache) (request : OnlineFeatureRequest) :
  (hit_count c request + length (misses c request))%nat =
  length (feature_names request).
Proof.
  unfold hit_count, misses.
  induction (feature_names request) as [|n names IH]; [done|].
  destruct (hit c request n) as [v|] eqn:Hn.
  - rewrite filter_cons_True by (rewrite Hn; eauto).
    rewrite filter_cons_False by (rewrite Hn; done). simpl. lia.
  - rewrite filter_cons_False by (rewrite Hn; by intros [??]).
    rewrite filter_cons_True by done. simpl. lia.
Qed.

End CacheStepFacts.

Section OnlineReadFacts.
Import Postgres RedisCache Routes.
Context `{Wire}.

(** What the loop over the store's answer has done when it ends. *)
Lemma db_loop_inv (clk : nat → datetime) (e : string)
    (features : gmap string FeatureValue) (t0 : nat)
    (m : gmap string FeatureData) :
  let '(features', cache_data, n) :=
    map_fold (db_step clk e) (features, ∅, t0) m in
  n = (t0 + size m)%nat ∧
  (∀ k, m !! k = None → features' !! k = features !! k) ∧
  (∀ k d, m !! k = Some d →
          ∃ i, (t0 ≤ i < n)%nat ∧ features' !! k = Some (of_store clk i d)) ∧
  (cache_data = ∅ ↔ m = ∅) ∧
  (∀ key r, cache_data !! key = Some r →
            ∃ k d, m !! k = Some d ∧ key = cache_key e k).
Proof.
  apply (map_fold_weak_ind
           (λ (acc : db_acc) (m : gmap string FeatureData),
              let '(features', cache_data, n) := acc in
              n = (t0 + size m)%nat ∧
              (∀ k, m !! k = None → features' !! k = features !! k) ∧
              (∀ k d, m !! k = Some d →
                 ∃ i, (t0 ≤ i < n)%nat ∧
                      features' !! k = Some (of_store clk i d)) ∧
              (cache_data = ∅ ↔ m = ∅) ∧
              (∀ key r, cache_data !! key = Some r →
                 ∃ k d, m !! k = Some d ∧ key = cache_key e k))).
  - split_and!; [by rewrite map_size_empty, Nat.add_0_r | done | | done |].
    + intros k d Hk. by rewrite lookup_empty in Hk.
    + intros key r Hk. by rewrite lookup_empty in Hk.
  - intros k x m' [[features' cache_data] n] Hfresh
           (Hn & Hkeep & Hnew & Hempty & Hkeys).
    unfold db_step. split_and!.
    + rewrite map_size_insert_None by done. lia.
    + intros k' Hk'. apply lookup_insert_None in Hk' as [Hk' Hne].
      rewrite lookup_insert_ne by done. by apply Hkeep.
    + intros k' d Hk'. destruct (decide (k = k')) as [<-|Hne].
      * rewrite lookup_insert_eq in Hk'. injection Hk' as <-.
        exists n. split; [lia|]. by rewrite lookup_insert_eq.
      * rewrite lookup_insert_ne in Hk' by done.
        destruct (Hnew k' d Hk') as (i & Hi & Hf).
        exists i. split; [lia|]. by rewrite lookup_insert_ne.
    + split; intros Habs; by apply insert_non_empty in Habs.
    + intros key r Hkey.
      destruct (decide (cache_key e k = key)) as [<-|Hne].
      * exists k, x. by rewrite lookup_insert_eq.
      * rewrite lookup_insert_ne in Hkey by done.
        destruct (Hkeys key r Hkey) as (k' & d & Hk' & ->).
        exists k', d. split; [|done].
        rewrite lookup_insert_ne; [done|]. by intros ->; rewrite Hfresh in Hk'.
Qed.

Lemma respond_spec (w : World) (request : OnlineFeatureRequest)
    (features : gmap string FeatureValue) (missing_features : list string)
    (cache_hit : bool) :
  respond w request features missing_features cache_hit =
  (set_ticks (S (ticks w)) w,
   Ok {| r_entity_id := entity_id request;
         r_features := features;
         r_timestamp := clock w (ticks w);
         r_source := if cache_hit && bool_decide (missing_features = [])
                     then "cache" else "database";
         r_cache_hit := cache_hit |}).
Proof. reflexivity. Qed.

(** Every requested feature answered by the cache: the store is not
    touched. *)
Lemma online_read_all_cached (w : World) (c : FeatureCache)
    (request : OnlineFeatureRequest) :
  cache w = Some c → misses c request = [] →
  get_online_features w request =
  (set_ticks (S (ticks w)) w,
   Ok {| r_entity_id := entity_id request;
         r_features := hits c request;
         r_timestamp := clock w (ticks w);
         r_source := "cache";
         r_cache_hit := true |}).
Proof.
  intros Hc Hm. unfold get_online_features.
  rewrite Hc, cache_step_spec, Hm. reflexivity.
Qed.

(** Some feature left to the store, and the store unreachable: the
    exception of the store leaves the route. *)
Lemma online_read_store_down (w : World) (c : FeatureCache)
    (request : OnlineFeatureRequest) :
  cache w = Some c → misses c request ≠ [] → pool_up (store w) = false →
  get_online_features w request =
  (set_ticks (S (ticks w)) w, Raise PostgresError).
Proof.
  intros Hc Hm Hdown. unfold get_online_features.
  rewrite Hc, cache_step_spec.
  destruct (misses c request) as [|name rest]; [done|].
  unfold utcnow. rewrite get_features_down by done.
  by destruct w.
Qed.

(** Some feature left to the store, and the store reachable: one query,
    then the answer is merged and written back. *)
Lemma online_read_store_up (w : World) (c : FeatureCache)
    (request : OnlineFeatureRequest) :
  cache w = Some c → misses c request ≠ [] → pool_up (store w) = true →
  ∃ w' now,
    get_online_features w request =
    (w', Ok {| r_entity_id := entity_id request;
               r_features :=
                 merged_features w request (misses c request) (hits c request);
               r_timestamp := now;
               r_source := "database";
               r_cache_hit := false |}) ∧
    store w' =
      log_event (Fetch [entity_id request] (misses c request)
                       (clock w (ticks w)))
                (log_event AcquireConn (store w)) ∧
    cache w' =
      Some (if decide ((db_loop w request (misses c request)
                                (hits c request)).1.2 = ∅)
            then c
            else (set_many c (db_loop w request (misses c request)
                                      (hits c request)).1.2 3600).1).
Proof.
  intros Hc Hm Hup. unfold get_online_features.
  rewrite Hc, cache_step_spec.
  unfold merged_features, db_loop, entity_features_of.
  destruct (misses c request) as [|name rest] eqn:Hmiss; [done|].
  unfold utcnow. cbn [store clock ticks set_ticks set_store].
  rewrite get_features_up by done. cbn [default].
  destruct (map_fold _ _ _) as [[features' cache_data] n].
  cbn [fst snd]. rewrite !respond_spec.
  destruct (decide (cache_data = ∅)) as [Hcd|Hcd].
  - eexists _, _. split_and!; [reflexivity | done | exact Hc].
  - pose proof (set_many_never_raises c cache_data 3600) as Hset.
    destruct (set_many c cache_data 3600) as [c' [[]|e]]; [|done].
    eexists _, _. split_and!; [reflexivity | done | done].
Qed.

Lemma entity_features_slot (w : World) (request : OnlineFeatureRequest)
    (missing_features : list string) (k : string) :
  entity_features_of w request missing_features !! k =
  slot (reshape (run_query (store w) [entity_id request] missing_features
                           (clock w (ticks w))))
       (entity_id request) k.
Proof.
  unfold entity_features_of, slot.
  destruct (reshape _ !! entity_id request); [done|].
  simpl. apply lookup_empty.
Qed.

(** A name the cache cannot answer is not among the hits. *)
Lemma hits_lookup_unanswered (c : FeatureCache) (request : OnlineFeatureRequest)
    (k : string) :
  hit c request k = None → hits c request !! k = None.
Proof. intros Hk. rewrite hits_lookup, Hk. by case_decide. Qed.

Lemma hit_uncached (c : FeatureCache) (request : OnlineFeatureRequest)
    (k : string) :
  cached_value c (cache_key (entity_id request) k) = None →
  hit c request k = None.
Proof. intros Hk. unfold hit, answer. rewrite Hk. by destruct (batch_ok _ _). Qed.

(** A name the store did not return has in the merged map what the cache
    step gave it. *)
Lemma merged_features_kept (w : World) (c : FeatureCache)
    (request : OnlineFeatureRequest) (k : string) :
  misses c request = [] ∨
  entity_features_of w request (misses c request) !! k = None →
  merged_features w request (misses c request) (hits c request) !! k =
  hits c request !! k.
Proof.
  unfold merged_features, db_loop.
  destruct (misses c request) as [|name rest]; [done|].
  intros [?|Hk]; [done|].
  set (missing := name :: rest) in *.
  pose proof (db_loop_inv (clock w) (entity_id request) (hits c request)
                (S (ticks w)) (entity_features_of w request missing)) as Hinv.
  destruct (map_fold _ _ _) as [[features' cache_data] n].
  destruct Hinv as (_ & Hkeep & _). by apply Hkeep.
Qed.

(** A name returned from the store carries the unclamped age measured at
    a clock reading taken after the one passed to the query. *)
Lemma merged_features_from_store (w : World) (c : FeatureCache)
    (request : OnlineFeatureRequest) (k : string) (d : FeatureData) :
  misses c request ≠ [] →
  entity_features_of w request (misses c request) !! k = Some d →
  ∃ i, (ticks w < i)%nat ∧
       merged_features w request (misses c request) (hits c request) !! k =
       Some (of_store (clock w) i d).
Proof.
  intros Hm Hk. unfold merged_features, db_loop.
  destruct (misses c request) as [|name rest]; [done|].
  set (missing := name :: rest) in *.
  pose proof (db_loop_inv (clock w) (entity_id request) (hits c request)
                (S (ticks w)) (entity_features_of w request missing)) as Hinv.
  destruct (map_fold _ _ _) as [[features' cache_data] n].
  destruct Hinv as (_ & _ & Hnew & _).
  destruct (Hnew k d Hk) as (i & Hi & Hf).
  exists i. split; [lia | done].
Qed.

(** C7.  With the cache configured and the store reachable, the online
    read answers normally whatever is missing; every name in the
    features map of the response is a requested name; and a name that is
    neither in the cache nor in the store (at the time of the read) is
    simply not in the map. *)
Theorem online_read_subset_of_requested (w : World) (c : FeatureCache)
    (request : OnlineFeatureRequest) :
  cache w = Some c → pool_up (store w) = true →
  ∃ w' resp,
    get_online_features w request = (w', Ok resp) ∧
    (∀ name, is_Some (r_features resp !! name) →
             name ∈ feature_names request) ∧
    (∀ name,
       cached_value c (cache_key (entity_id request) name) = None →
       ¬ (∃ fv, stored (store w) (entity_id request) name fv ∧
                fv_timestamp fv ≤ clock w (ticks w)) →
       r_features resp !! name = None).
Proof.
  intros Hc Hup.
  assert (∃ w' resp, get_online_features w request = (w', Ok resp) ∧
            r_features resp =
            merged_features w request (misses c request) (hits c request))
    as (w' & resp & Hrun & Hfeat).
  { destruct (decide (misses c request = [])) as [Hm|Hm].
    - rewrite (online_read_all_cached w c) by done.
      eexists _, _. split; [reflexivity|]. simpl.
      unfold merged_features. by rewrite Hm.
    - destruct (online_read_store_up w c request Hc Hm Hup)
        as (w' & now & Hrun & _).
      rewrite Hrun. eexists _, _. split; [reflexivity | done]. }
  exists w', resp. split; [done|]. rewrite Hfeat. split.
  - intros name Hsome.
    destruct (entity_features_of w request (misses c request) !! name)
      as [d|] eqn:Hd.
    + rewrite entity_features_slot in Hd.
      apply query_slot_Some in Hd as (_ & Hin & _).
      by apply elem_of_misses in Hin as [? _].
    + rewrite merged_features_kept, hits_lookup in Hsome by by right.
      case_decide; [done | by destruct Hsome].
  - intros name Hcache Hstore.
    apply hit_uncached, hits_lookup_unanswered in Hcache.
    destruct (entity_features_of w request (misses c request) !! name)
      as [d|] eqn:Hd.
    + exfalso. apply Hstore.
      rewrite entity_features_slot in Hd.
      apply query_slot_Some in Hd as (_ & _ & fv & (Hst & Ht & _) & _).
      by exists fv.
    + by rewrite merged_features_kept by by right.
Qed.

(** C2 (as the code has it).  For an online read of N requested names of
    which the cache answered K, a response that is produced is tagged
    ["cache"] when K = N and ["database"] otherwise, a partial hit
    0 < K < N included: the code has no ["mixed"] tag.  The cache_hit
    flag is true exactly when nothing was missed. *)
Theorem online_source_tag (w w' : World) (c : FeatureCache)
    (request : OnlineFeatureRequest) (resp : OnlineFeatureResponse) :
  cache w = Some c →
  get_online_features w request = (w', Ok resp) →
  r_source resp =
    (if decide (hit_count c request = length (feature_names request))
     then "cache" else "database") ∧
  r_cache_hit resp =
    bool_decide (hit_count c request = length (feature_names request)) ∧
  (r_cache_hit resp = true ↔ misses c request = []).
Proof.
  intros Hc Hrun.
  pose proof (hit_count_misses c request) as Hcount.
  destruct (decide (misses c request = [])) as [Hm|Hm].
  - rewrite (online_read_all_cached w c) in Hrun by done.
    injection Hrun as _ <-. simpl.
    rewrite Hm in Hcount. simpl in Hcount.
    rewrite decide_True, bool_decide_eq_true_2 by lia. done.
  - assert ((length (misses c request) > 0)%nat) as Hpos.
    { destruct (misses c request); [done | simpl; lia]. }
    destruct (pool_up (store w)) eqn:Hup.
    + destruct (online_read_store_up w c request Hc Hm Hup)
        as (w1 & now & Hrun' & _).
      rewrite Hrun' in Hrun. injection Hrun as _ <-. simpl.
      rewrite decide_False, bool_decide_eq_false_2 by lia.
      split_and!; [done..|]. split; [done|]. by intros ?.
    + rewrite (online_read_store_down w c) in Hrun by done. done.
Qed.

(** C8 (as the code has it).  With the store unreachable: if the cache
    step leaves no name missing, the read succeeds with source ["cache"]
    (status 200); if it leaves some, the exception of the store escapes
    the route and the global handler turns it into status 500. *)
Theorem online_read_store_failure (w : World) (c : FeatureCache)
    (request : OnlineFeatureRequest) :
  cache w = Some c → pool_up (store w) = false →
  match misses c request with
  | [] =>
      ∃ w' resp,
        get_online_features w request = (w', Ok resp) ∧
        r_source resp = "cache" ∧
        Main.status_code (get_online_features w request).2 = 200
  | _ :: _ =>
      (get_online_features w request).2 = Raise PostgresError ∧
      Main.status_code (get_online_features w request).2 = 500
  end.
Proof.
  intros Hc Hdown.
  destruct (misses c request) as [|name rest] eqn:Hm.
  - rewrite (online_read_all_cached w c) by done.
    eexists _, _. split_and!; reflexivity.
  - rewrite (online_read_store_down w c) by (rewrite ?Hm; done).
    split; reflexivity.
Qed.

(** C4 (as the code has it).  A feature fetched from the store on a
    cache miss is returned with freshness_seconds equal to a clock
    reading taken after the query, minus its timestamp; nothing clamps
    it.  The timestamp is at most the clock reading passed to the query,
    so the freshness is non-negative whenever the clock does not go
    backwards. *)
Theorem online_freshness_unclamped (w w' : World) (c : FeatureCache)
    (request : OnlineFeatureRequest) (resp : OnlineFeatureResponse)
    (name : string) (fv : FeatureValue) :
  cache w = Some c →
  get_online_features w request = (w', Ok resp) →
  name ∈ misses c request →
  r_features resp !! name = Some fv →
  ∃ i, (ticks w < i)%nat ∧
       freshness_seconds fv = Some (clock w i - timestamp fv) ∧
       timestamp fv ≤ clock w (ticks w) ∧
       (monotone (clock w) → 0 ≤ clock w i - timestamp fv).
Proof.
  intros Hc Hrun Hname Hfv.
  assert (misses c request ≠ []) as Hm.
  { intros Hnil. rewrite Hnil in Hname. by apply elem_of_nil in Hname. }
  destruct (pool_up (store w)) eqn:Hup;
    [|by rewrite (online_read_store_down w c) in Hrun].
  destruct (online_read_store_up w c request Hc Hm Hup)
    as (w1 & now & Hrun' & _).
  rewrite Hrun' in Hrun. injection Hrun as _ <-. simpl in Hfv.
  apply elem_of_misses in Hname as [_ Hmiss].
  destruct (entity_features_of w request (misses c request) !! name)
    as [d|] eqn:Hd.
  - destruct (merged_features_from_store w c request name d Hm Hd)
      as (i & Hi & Hmerged).
    rewrite Hmerged in Hfv. injection Hfv as <-.
    rewrite entity_features_slot in Hd.
    apply query_slot_Some in Hd as (_ & _ & row & (_ & Ht & _) & ->).
    exists i. simpl. split_and!; [done..|].
    intros Hmono. specialize (Hmono (ticks w) i). lia.
  - rewrite merged_features_kept in Hfv by by right.
    by rewrite hits_lookup_unanswered in Hfv.
Qed.

End OnlineReadFacts.

Lemma online_read_subset_of_requested_witness :
  Routes.cache Examples.half_cached =
    Some (Examples.redis {[ "u42:user_age" := (Examples.age_cached, 3600) ]}
                         true) ∧
  Postgres.pool_up (Routes.store Examples.half_cached) = true ∧
  ∃ w' resp,
    Routes.get_online_features Examples.half_cached
      (Examples.ask ["user_age"; "user_ltv"; "user_score"]) = (w', Ok resp) ∧
    (∀ name, is_Some (Routes.r_features resp !! name) →
             name ∈ ["user_age"; "user_ltv"; "user_score"]) ∧
    (∀ name,
       RedisCache.cached_value
         (Examples.redis {[ "u42:user_age" := (Examples.age_cached, 3600) ]}
                         true)
         (Routes.cache_key "u42" name) = None →
       ¬ (∃ fv, Postgres.stored (Routes.store Examples.half_cached) "u42"
                                name fv ∧
                Postgres.fv_timestamp fv ≤ 1005) →
       Routes.r_features resp !! name = None).
Proof.
  split; [reflexivity|]. split; [reflexivity|].
  apply (online_read_subset_of_requested Examples.half_cached
           (Examples.redis
              {[ "u42:user_age" := (Examples.age_cached, 3600) ]} true)
           (Examples.ask ["user_age"; "user_ltv"; "user_score"]));
    reflexivity.
Defined.

(** ** The online read on concrete worlds *)

Lemma online_source_tag_witness :
  ∃ w' resp,
    Routes.cache Examples.half_cached =
      Some (Examples.redis
              {[ "u42:user_age" := (Examples.age_cached, 3600) ]} true) ∧
    Routes.get_online_features Examples.half_cached
      (Examples.ask ["user_age"; "user_ltv"]) = (w', Ok resp) ∧
    Routes.r_source resp =
      (if decide (Routes.hit_count
                    (Examples.redis
                       {[ "u42:user_age" := (Examples.age_cached, 3600) ]} true)
                    (Examples.ask ["user_age"; "user_ltv"]) =
                  length ["user_age"; "user_ltv"])
       then "cache" else "database") ∧
    Routes.r_cache_hit resp =
      bool_decide (Routes.hit_count
                     (Examples.redis
                        {[ "u42:user_age" := (Examples.age_cached, 3600) ]} true)
                     (Examples.ask ["user_age"; "user_ltv"]) =
                   length ["user_age"; "user_ltv"]) ∧
    (Routes.r_cache_hit resp = true ↔
     Routes.misses
       (Examples.redis
          {[ "u42:user_age" := (Examples.age_cached, 3600) ]} true)
       (Examples.ask ["user_age"; "user_ltv"]) = []).
Proof.
  eexists _, _. split; [reflexivity|]. split.
  - vm_compute. reflexivity.
  - eapply (online_source_tag Examples.half_cached);
      [reflexivity | vm_compute; reflexivity].
Defined.

(** C2, as stated, fails: one of two requested features is cached, the
    other is found in the store, and the response is tagged ["database"],
    not ["mixed"]. *)
Lemma partial_hit_tagged_database :
  Routes.hit_count
    (Examples.redis {[ "u42:user_age" := (Examples.age_cached, 3600) ]} true)
    (Examples.ask ["user_age"; "user_ltv"]) = 1%nat ∧
  ∃ resp,
    Routes.response_of
      (Routes.get_online_features Examples.half_cached
         (Examples.ask ["user_age"; "user_ltv"])) = Some resp ∧
    is_Some (Routes.r_features resp !! "user_age") ∧
    is_Some (Routes.r_features resp !! "user_ltv") ∧
    Routes.r_source resp = "database" ∧
    Routes.r_source resp ≠ "mixed".
Proof.
  split; [reflexivity|].
  eexists. split; [vm_compute; reflexivity|].
  split_and!; [by eexists | by eexists | reflexivity | discriminate].
Qed.

Lemma online_read_store_failure_witness :
  Routes.cache Examples.cold_store_down = Some (Examples.redis ∅ true) ∧
  Postgres.pool_up (Routes.store Examples.cold_store_down) = false ∧
  match Routes.misses (Examples.redis ∅ true) (Examples.ask ["user_age"]) with
  | [] =>
      ∃ w' resp,
        Routes.get_online_features Examples.cold_store_down
          (Examples.ask ["user_age"]) = (w', Ok resp) ∧
        Routes.r_source resp = "cache" ∧
        Main.status_code
          (Routes.get_online_features Examples.cold_store_down
             (Examples.ask ["user_age"])).2 = 200
  | _ :: _ =>
      (Routes.get_online_features Examples.cold_store_down
         (Examples.ask ["user_age"])).2 = Raise PostgresError ∧
      Main.status_code
        (Routes.get_online_features Examples.cold_store_down
           (Examples.ask ["user_age"])).2 = 500
  end.
Proof.
  split; [reflexivity|]. split; [reflexivity|].
  apply (online_read_store_failure Examples.cold_store_down
           (Examples.redis ∅ true) (Examples.ask ["user_age"]));
    reflexivity.
Defined.

(** C8, as stated, fails: nothing is cached, the store is unreachable,
    and the request ends with status 500, not 503. *)
Lemma store_failure_answers_500 :
  Postgres.pool_up (Routes.store Examples.cold_store_down) = false ∧
  Routes.misses (Examples.redis ∅ true) (Examples.ask ["user_age"]) =
    ["user_age"] ∧
  Main.status_code
    (Routes.get_online_features Examples.cold_store_down
       (Examples.ask ["user_age"])).2 = 500 ∧
  Main.status_code
    (Routes.get_online_features Examples.cold_store_down
       (Examples.ask ["user_age"])).2 ≠ 503.
Proof. split_and!; [reflexivity.. | discriminate]. Qed.

Lemma online_freshness_unclamped_witness :
  ∃ w' resp fv,
    Routes.cache Examples.cold = Some (Examples.redis ∅ true) ∧
    Routes.get_online_features Examples.cold (Examples.ask ["user_age"]) =
      (w', Ok resp) ∧
    "user_age" ∈ Routes.misses (Examples.redis ∅ true)
                               (Examples.ask ["user_age"]) ∧
    Routes.r_features resp !! "user_age" = Some fv ∧
    ∃ i, (Routes.ticks Examples.cold < i)%nat ∧
         Routes.freshness_seconds fv =
           Some (Routes.clock Examples.cold i - Routes.timestamp fv) ∧
         Routes.timestamp fv ≤
           Routes.clock Examples.cold (Routes.ticks Examples.cold) ∧
         (Routes.monotone (Routes.clock Examples.cold) →
          0 ≤ Routes.clock Examples.cold i - Routes.timestamp fv).
Proof.
  eexists _, _, _. split; [reflexivity|].
  assert ("user_age" ∈ Routes.misses (Examples.redis ∅ true)
                                     (Examples.ask ["user_age"])) as Hmiss.
  { vm_compute. constructor. }
  split; [vm_compute; reflexivity|].
  split; [exact Hmiss|].
  split; [vm_compute; reflexivity|].
  eapply (online_freshness_unclamped Examples.cold _ (Examples.redis ∅ true)
            (Examples.ask ["user_age"]) _ "user_age");
    [reflexivity | vm_compute; reflexivity | exact Hmiss
    | vm_compute; reflexivity].
Defined.

(** C4, as stated, fails: when the clock is set back between the reading
    passed to the query and the reading used for the age, the feature
    fetched from the store is returned with a negative freshness. *)
Lemma freshness_negative_after_clock_step :
  Routes.misses (Examples.redis ∅ true) (Examples.ask ["user_age"]) =
    ["user_age"] ∧
  ∃ resp fv,
    Routes.response_of
      (Routes.get_online_features Examples.cold_skewed
         (Examples.ask ["user_age"])) = Some resp ∧
    Routes.r_features resp !! "user_age" = Some fv ∧
    Routes.freshness_seconds fv = Some (-15) ∧
    ¬ (∃ age, Routes.freshness_seconds fv = Some age ∧ 0 ≤ age).
Proof.
  split; [reflexivity|].
  eexists _, _. split; [vm_compute; reflexivity|].
  split; [vm_compute; reflexivity|].
  split; [reflexivity|].
  intros (age & Hage & Hpos). simpl in Hage. injection Hage as <-. lia.
Qed.

(** ** The backfill and the configured TTL *)

Section BackfillFacts.
Import Postgres RedisCache Routes.
Context `{Wire}.

(** A pipeline of SETEX commands leaves under a key what was there or an
    entry with the TTL of the pipeline. *)
Lemma foldl_setex_entries (cmds : list (string * bytes)) (ttl : Z)
    (ks : gmap string (bytes * Z)) (key : string) (b : bytes) (t : Z) :
  foldl (λ ks kb, <[kb.1 := (kb.2, ttl)]> ks) ks cmds !! key = Some (b, t) →
  ks !! key = Some (b, t) ∨ t = ttl.
Proof.
  revert ks. induction cmds as [|[k' b'] cmds IH]; intros ks; simpl;
    [by left|].
  intros Hlook. destruct (IH _ Hlook) as [Hins | ->]; [|by right].
  destruct (decide (k' = key)) as [->|Hne].
  - rewrite lookup_insert_eq in Hins. injection Hins as _ <-. by right.
  - rewrite lookup_insert_ne in Hins by done. by left.
Qed.

(** Whatever the codec and the server do, an entry found in the cache
    after [set_many] was there before or carries the TTL of the call. *)
Lemma set_many_entries (c : FeatureCache) (data : gmap string CacheRecord)
    (ttl : Z) (key : string) (b : bytes) (t : Z) :
  keyspace (set_many c data ttl).1 !! key = Some (b, t) →
  keyspace c !! key = Some (b, t) ∨ t = ttl.
Proof.
  unfold set_many. destruct (decide (data = ∅)); [by left|].
  destruct (comprehension queue_setex (map_to_list data)) as [cmds|e];
    [|by left].
  unfold pipeline_setex. destruct (client_up c); [|by left].
  cbn [fst keyspace set_keyspace]. apply foldl_setex_entries.
Qed.

(** The cache an online read leaves behind: the handle is still there,
    and every entry was there before the read or sits under TTL 3600. *)
Lemma online_read_entries (w w' : World) (c : FeatureCache)
    (request : OnlineFeatureRequest) (resp : OnlineFeatureResponse) :
  cache w = Some c →
  get_online_features w request = (w', Ok resp) →
  ∃ c', cache w' = Some c' ∧
        ∀ key b t, keyspace c' !! key = Some (b, t) →
                   keyspace c !! key = Some (b, t) ∨ t = 3600.
Proof.
  intros Hc Hrun.
  destruct (decide (misses c request = [])) as [Hm|Hm].
  - rewrite (online_read_all_cached w c request Hc Hm) in Hrun.
    injection Hrun as <- _. exists c. split; [exact Hc | by left].
  - destruct (pool_up (store w)) eqn:Hup.
    + destruct (online_read_store_up w c request Hc Hm Hup)
        as (w1 & now & Hrun1 & _ & Hcache).
      rewrite Hrun1 in Hrun. injection Hrun as <- _.
      eexists. split; [exact Hcache|].
      intros key b t. case_decide; [by left | apply set_many_entries].
    + by rewrite (online_read_store_down w c request Hc Hm Hup) in Hrun.
Qed.

(** C9, where it fails.  Whatever the codec, after an online read that
    started from an empty cache every key of the cache is absent or sits
    under TTL 3600, the constant of the route.  So when the configured
    cache_ttl_seconds is any other value, no feature returned in the
    response is in the cache with the configured TTL: it is there with
    TTL 3600, or (when its record could not be serialized or the server
    did not take the write) not there at all. *)
Theorem online_backfill_ignores_configured_ttl (w w' : World)
    (c : FeatureCache) (request : OnlineFeatureRequest)
    (resp : OnlineFeatureResponse) (name : string) (fv : FeatureValue) :
  cache w = Some c → keyspace c = ∅ →
  Config.cache_ttl_seconds (settings w) ≠ 3600 →
  get_online_features w request = (w', Ok resp) →
  r_features resp !! name = Some fv →
  (∀ key, cached_ttl w' key = None ∨ cached_ttl w' key = Some 3600) ∧
  cached_ttl w' (cache_key (entity_id request) name)
    ≠ Some (Config.cache_ttl_seconds (settings w)).
Proof.
  intros Hc Hempty Hcfg Hrun _.
  destruct (online_read_entries w w' c request resp Hc Hrun)
    as (c' & Hc' & Hentries).
  assert (∀ key, cached_ttl w' key = None ∨ cached_ttl w' key = Some 3600)
    as Hall.
  { intros key. unfold cached_ttl. rewrite Hc'. simpl.
    destruct (keyspace c' !! key) as [[b t]|] eqn:Hkey; [|by left].
    destruct (Hentries key b t Hkey) as [Hold| ->]; [|by right].
    by rewrite Hempty, lookup_empty in Hold. }
  split; [exact Hall|].
  destruct (Hall (cache_key (entity_id request) name)) as [-> | ->];
    [done|]. intros [= Heq]. by apply Hcfg.
Qed.

End BackfillFacts.

Lemma online_backfill_ignores_configured_ttl_witness :
  ∃ w' resp fv,
    Routes.cache Examples.cold_ttl_60 = Some (Examples.redis ∅ true) ∧
    RedisCache.keyspace (Examples.redis ∅ true) = ∅ ∧
    Config.cache_ttl_seconds (Routes.settings Examples.cold_ttl_60) = 60 ∧
    Config.cache_ttl_seconds (Routes.settings Examples.cold_ttl_60) ≠ 3600 ∧
    Routes.get_online_features Examples.cold_ttl_60
      (Examples.ask ["user_age"]) = (w', Ok resp) ∧
    Routes.r_features resp !! "user_age" = Some fv ∧
    Routes.r_source resp = "database" ∧
    Routes.cached_ttl w' "u42:user_age" = Some 3600 ∧
    (∀ key, Routes.cached_ttl w' key = None ∨
            Routes.cached_ttl w' key = Some 3600) ∧
    Routes.cached_ttl w' "u42:user_age" ≠ Some 60.
Proof.
  assert (Config.cache_ttl_seconds (Routes.settings Examples.cold_ttl_60)
            ≠ 3600) as Hcfg by (intros Heq; vm_compute in Heq; discriminate Heq).
  eexists _, _, _. split; [reflexivity|]. split; [reflexivity|].
  split; [reflexivity|]. split; [exact Hcfg|].
  split; [vm_compute; reflexivity|].
  split; [vm_compute; reflexivity|].
  split; [reflexivity|]. split; [vm_compute; reflexivity|].
  eapply (online_backfill_ignores_configured_ttl Examples.cold_ttl_60 _
            (Examples.redis ∅ true) (Examples.ask ["user_age"]) _
            "user_age");
    [reflexivity | reflexivity | exact Hcfg | vm_compute; reflexivity
    | vm_compute; reflexivity].
Defined.

(** * Further properties *)

(** ** The durable store: what a write keeps and what a read sees *)

Section WriteMoreFacts.
Import Postgres Vocabulary.

Lemma upsert_batch_NoDup (t args : list ValueRow) :
  NoDup (row_key <$> t) → NoDup (row_key <$> foldl upsert t args).
Proof.
  revert t. induction args as [|r args IH]; intros t Hnd; [done|].
  simpl. by apply IH, upsert_NoDup.
Qed.

Lemma upsert_keys_prefix (t : list ValueRow) (r : ValueRow) :
  (row_key <$> t) `prefix_of` (row_key <$> upsert t r).
Proof.
  rewrite upsert_keys. case_decide; [done|]. by apply prefix_app_r.
Qed.

Lemma upsert_batch_keys_prefix (t args : list ValueRow) :
  (row_key <$> t) `prefix_of` (row_key <$> foldl upsert t args).
Proof.
  revert t. induction args as [|r args IH]; intros t; [done|].
  simpl. etrans; [apply (upsert_keys_prefix t r) | apply IH].
Qed.

Lemma upsert_other_key (t : list ValueRow) (r x : ValueRow) :
  x ∈ t → row_key r ≠ row_key x → x ∈ upsert t r.
Proof.
  induction t as [|y t IH]; intros Hin Hne; [by apply elem_of_nil in Hin|].
  simpl. apply elem_of_cons in Hin as [->|Hin].
  - rewrite decide_False by done. apply list_elem_of_here.
  - case_decide; apply list_elem_of_further; [done | by apply IH].
Qed.

Lemma upsert_batch_other_keys (t args : list ValueRow) (x : ValueRow) :
  x ∈ t → Forall (λ r, row_key r ≠ row_key x) args → x ∈ foldl upsert t args.
Proof.
  revert t. induction args as [|r args IH]; intros t Hin Hall; [done|].
  apply Forall_cons in Hall as [Hr Hall].
  simpl. apply IH; [|done]. by apply upsert_other_key.
Qed.

Lemma upsert_elem_of (t : list ValueRow) (r : ValueRow) : r ∈ upsert t r.
Proof.
  induction t as [|y t IH]; simpl; [apply list_elem_of_here|].
  case_decide as Hk.
  - rewrite do_update_same_key by done. apply list_elem_of_here.
  - by apply list_elem_of_further.
Qed.

(** The tables after a call that returned normally. *)
Lemma write_features_ok (s s' : FeatureStore) (batch : list FeatureWrite) :
  write_features s batch = (s', Ok tt) → batch ≠ [] →
  pool_up s = true ∧ pool_up s' = true ∧ features s' = features s ∧
  feature_values s' = foldl upsert (feature_values s) (to_args <$> batch).
Proof.
  destruct batch as [|f batch]; [done|]. intros Hw _.
  rewrite write_features_cons in Hw.
  destruct (pool_up s) eqn:Hup; [|done].
  unfold executemany in Hw.
  destruct (forallb _ _); [|done].
  injection Hw as <-. done.
Qed.

Lemma write_features_values_cases (s : FeatureStore) (batch : list FeatureWrite) :
  feature_values (write_features s batch).1 = feature_values s ∨
  feature_values (write_features s batch).1 =
    foldl upsert (feature_values s) (to_args <$> batch).
Proof.
  destruct batch as [|f batch]; [by left|].
  rewrite write_features_cons. destruct (pool_up s); [|by left].
  rewrite executemany_values. destruct (forallb _ _); [by right | by left].
Qed.

(** X1.  [write_features] keeps the unique index: if no two stored rows
    share (feature_id, entity_id, timestamp) before the call, none do
    after it, whatever the batch and however the call ends. *)
Theorem write_features_keeps_unique_keys (s : FeatureStore)
    (batch : list FeatureWrite) :
  unique_keys s → unique_keys (write_features s batch).1.
Proof.
  unfold unique_keys. intros Hnd.
  destruct (write_features_values_cases s batch) as [->| ->]; [done|].
  by apply upsert_batch_NoDup.
Qed.

(** X2.  [write_features] never deletes or moves a row: the keys stored
    before the call are, in the same order, the first keys stored after
    it, and a row whose key the batch does not mention is still there
    unchanged. *)
Theorem write_features_never_deletes (s : FeatureStore)
    (batch : list FeatureWrite) :
  (row_key <$> feature_values s)
    `prefix_of` (row_key <$> feature_values (write_features s batch).1) ∧
  ∀ x, x ∈ feature_values s → row_key x ∉ batch_keys batch →
       x ∈ feature_values (write_features s batch).1.
Proof.
  destruct (write_features_values_cases s batch) as [->| ->]; [done|].
  split; [apply upsert_batch_keys_prefix|].
  intros x Hin Hfresh. apply upsert_batch_other_keys; [done|].
  apply Forall_forall. intros r Hr Hk. apply Hfresh.
  apply list_elem_of_fmap in Hr as (f & -> & Hf).
  unfold batch_keys. rewrite <- Hk.
  apply list_elem_of_fmap. by exists f.
Qed.

(** X3.  Within one batch the last statement on a key wins: after a
    successful [write_features], the row built from a batch element that
    no later element of the batch overwrites is stored as written. *)
Theorem write_features_last_write_wins (s s' : FeatureStore)
    (before after : list FeatureWrite) (f : FeatureWrite) :
  write_features s (before ++ f :: after) = (s', Ok tt) →
  Forall (λ g, row_key (to_args g) ≠ row_key (to_args f)) after →
  to_args f ∈ feature_values s'.
Proof.
  intros Hw Hafter.
  apply write_features_ok in Hw as (_ & _ & _ & ->);
    [|by destruct before].
  rewrite fmap_app, fmap_cons, foldl_app. simpl.
  apply upsert_batch_other_keys; [apply upsert_elem_of|].
  apply Forall_fmap. by eapply Forall_impl.
Qed.

Lemma upsert_batch_covers (t args : list ValueRow) (r : ValueRow) :
  r ∈ args → row_key r ∈ row_key <$> foldl upsert t args.
Proof.
  revert t. induction args as [|a args IH]; intros t Hin.
  - by apply elem_of_nil in Hin.
  - simpl. apply elem_of_cons in Hin as [->|Hin]; [|by apply IH].
    eapply elem_of_prefix; [|apply upsert_batch_keys_prefix].
    apply list_elem_of_fmap_2, upsert_elem_of.
Qed.

(** X4.  Read your writes: after a successful [write_features], a
    point-in-time read of a written (entity, feature) pair as of the
    written timestamp finds a sample carrying exactly that timestamp. *)
Theorem write_then_read_as_of (s s' : FeatureStore) (batch : list FeatureWrite)
    (f : FeatureWrite) (fr : FeatureRow) (now : datetime) :
  write_features s batch = (s', Ok tt) →
  f ∈ batch → fr ∈ features s → f_id fr = w_feature_id f →
  ∃ result d,
    (get_features s' [w_entity_id f] [f_name fr]
                  (Some (w_timestamp f)) now).2 = Ok result ∧
    slot result (w_entity_id f) (f_name fr) = Some d ∧
    fd_timestamp d = w_timestamp f.
Proof.
  intros Hw Hf Hfr Hid.
  apply write_features_ok in Hw as (_ & Hup & Hfeat & Hvals);
    [|by intros ->; apply elem_of_nil in Hf].
  rewrite get_features_up by done. cbn [default snd].
  assert (∃ x, stored s' (w_entity_id f) (f_name fr) x ∧
               fv_timestamp x = w_timestamp f) as (x & Hx & Hxt).
  { assert (row_key (to_args f) ∈ row_key <$> feature_values s') as Hk.
    { rewrite Hvals. by apply upsert_batch_covers, list_elem_of_fmap_2. }
    apply list_elem_of_fmap in Hk as (x & Hk & Hx).
    injection Hk as Hk1 Hk2 Hk3.
    exists x. split; [|done].
    split_and!; [done | done |].
    exists fr. rewrite Hfeat. split_and!; [done | congruence | done]. }
  set (result := reshape _).
  destruct (slot result (w_entity_id f) (f_name fr)) as [d|] eqn:Hd.
  - exists result, d. split_and!; [done..|].
    apply query_slot_Some in Hd as (_ & _ & fv & (_ & Hle & Hmax) & ->).
    simpl. unfold id in *. specialize (Hmax x Hx ltac:(lia)). lia.
  - exfalso. apply query_slot_None in Hd. apply Hd.
    split_and!; [apply list_elem_of_here.. |].
    exists x. split; [done | unfold id; lia].
Qed.

End WriteMoreFacts.

Lemma write_features_keeps_unique_keys_witness :
  Vocabulary.unique_keys
    (Examples.pg [Examples.age_row; Examples.ltv_row] true) ∧
  Vocabulary.unique_keys
    (Postgres.write_features
       (Examples.pg [Examples.age_row; Examples.ltv_row] true)
       [Examples.write_a; Examples.write_b]).1.
Proof.
  assert (Vocabulary.unique_keys
            (Examples.pg [Examples.age_row; Examples.ltv_row] true)) as Hnd.
  { unfold Vocabulary.unique_keys.
    apply (bool_decide_unpack _). vm_compute. exact I. }
  split; [exact Hnd|].
  apply (write_features_keeps_unique_keys _ _ Hnd).
Defined.

Lemma write_features_last_write_wins_witness :
  ∃ s',
    Postgres.write_features (Examples.pg [] true)
      ([Examples.write_a] ++ Examples.write_b :: []) = (s', Ok tt) ∧
    Forall (λ g, Postgres.row_key (Postgres.to_args g) ≠
                 Postgres.row_key (Postgres.to_args Examples.write_b)) [] ∧
    Postgres.to_args Examples.write_b ∈ Postgres.feature_values s'.
Proof.
  eexists. split; [vm_compute; reflexivity|]. split; [constructor|].
  eapply (write_features_last_write_wins (Examples.pg [] true) _
            [Examples.write_a] [] Examples.write_b);
    [vm_compute; reflexivity | constructor].
Defined.

Lemma write_then_read_as_of_witness :
  ∃ s',
    Postgres.write_features (Examples.pg [] true)
      [Examples.write_a; Examples.write_b] = (s', Ok tt) ∧
    Examples.write_b ∈ [Examples.write_a; Examples.write_b] ∧
    {| Postgres.f_id := 1; Postgres.f_name := "user_age";
       Postgres.f_version := 1 |}
      ∈ Postgres.features (Examples.pg [] true) ∧
    ∃ result d,
      (Postgres.get_features s' ["u1"] ["user_age"] (Some 900) 0).2 =
        Ok result ∧
      Postgres.slot result "u1" "user_age" = Some d ∧
      Postgres.fd_timestamp d = 900.
Proof.
  eexists. split; [vm_compute; reflexivity|].
  split; [apply list_elem_of_further, list_elem_of_here|].
  split; [apply list_elem_of_here|].
  eapply (write_then_read_as_of (Examples.pg [] true) _
            [Examples.write_a; Examples.write_b] Examples.write_b
            {| Postgres.f_id := 1; Postgres.f_name := "user_age";
               Postgres.f_version := 1 |} 0);
    [vm_compute; reflexivity
    | apply list_elem_of_further, list_elem_of_here
    | apply list_elem_of_here
    | reflexivity].
Defined.

(** ** The durable store: point-in-time reads compared *)

Section ReadMoreFacts.
Import Postgres Vocabulary.

(** With one id per name and the unique index, a pair has one latest
    sample. *)
Lemma latest_as_of_unique (s : FeatureStore) (e f : string) (as_of : datetime)
    (fv fv' : ValueRow) :
  single_version s → unique_keys s →
  latest_as_of s e f as_of fv → latest_as_of s e f as_of fv' → fv = fv'.
Proof.
  intros Hsingle Hnd (Hst & Ht & Hmax) (Hst' & Ht' & Hmax').
  pose proof (Hmax fv' Hst' Ht'). pose proof (Hmax' fv Hst Ht).
  destruct Hst as (Hin & He & fr & Hfr & Hid & Hn).
  destruct Hst' as (Hin' & He' & fr' & Hfr' & Hid' & Hn').
  assert (f_id fr = f_id fr') as Hids.
  { unfold single_version in Hsingle.
    rewrite Forall_forall in Hsingle. specialize (Hsingle fr Hfr).
    rewrite Forall_forall in Hsingle. apply (Hsingle fr' Hfr'). congruence. }
  assert (row_key fv = row_key fv') as Hk.
  { unfold row_key. f_equal; [f_equal|]; [congruence | congruence | lia]. }
  apply list_elem_of_lookup in Hin as [i Hi].
  apply list_elem_of_lookup in Hin' as [j Hj].
  assert (i = j) as ->; [|congruence].
  eapply (NoDup_lookup _ i j (row_key fv) Hnd).
  - by rewrite list_lookup_fmap, Hi.
  - by rewrite list_lookup_fmap, Hj, Hk.
Qed.

(** X5.  Point-in-time reads are monotone in as_of: if a pair has a
    sample as of [t1] and [t1 ≤ t2], it has one as of [t2], and that one
    is not older. *)
Theorem get_features_monotone_in_as_of (s : FeatureStore)
    (ids names : list string) (t1 t2 now : datetime)
    (r1 r2 : gmap string (gmap string FeatureData))
    (e f : string) (d1 : FeatureData) :
  t1 ≤ t2 →
  (get_features s ids names (Some t1) now).2 = Ok r1 →
  (get_features s ids names (Some t2) now).2 = Ok r2 →
  slot r1 e f = Some d1 →
  ∃ d2, slot r2 e f = Some d2 ∧ fd_timestamp d1 ≤ fd_timestamp d2.
Proof.
  intros Hle H1 H2 Hd1.
  destruct (pool_up s) eqn:Hup; [|by rewrite get_features_down in H1].
  rewrite get_features_up in H1, H2 by done.
  simpl in H1, H2. injection H1 as <-. injection H2 as <-.
  apply query_slot_Some in Hd1 as (He & Hf & fv & (Hst & Ht & _) & ->).
  destruct (slot (reshape (run_query s ids names t2)) e f) as [d2|] eqn:Hd2.
  - exists d2. split; [done|].
    apply query_slot_Some in Hd2 as (_ & _ & fv2 & (_ & _ & Hmax) & ->).
    simpl. apply Hmax; [done | lia].
  - exfalso. apply query_slot_None in Hd2. apply Hd2.
    split_and!; [done..|]. exists fv. split; [done | lia].
Qed.

(** X6.  What a point-in-time read returns for a pair does not depend on
    what else was asked for: with one registered id per name and the
    unique index in place, two reads as of the same time whose requests
    both contain the pair fill its slot identically.  (This is what lets
    the online read ask the store for the missed names only.) *)
Theorem get_features_request_independent (s : FeatureStore)
    (ids1 names1 ids2 names2 : list string) (as_of now : datetime)
    (e f : string) :
  single_version s → unique_keys s →
  e ∈ ids1 → f ∈ names1 → e ∈ ids2 → f ∈ names2 →
  ∃ r1 r2,
    (get_features s ids1 names1 (Some as_of) now).2 =
      (if pool_up s then Ok r1 else Raise PostgresError) ∧
    (get_features s ids2 names2 (Some as_of) now).2 =
      (if pool_up s then Ok r2 else Raise PostgresError) ∧
    slot r1 e f = slot r2 e f.
Proof.
  intros Hsingle Hnd He1 Hf1 He2 Hf2.
  exists (reshape (run_query s ids1 names1 as_of)),
         (reshape (run_query s ids2 names2 as_of)).
  split_and!.
  - unfold get_features. by destruct (pool_up s).
  - unfold get_features. by destruct (pool_up s).
  - destruct (slot (reshape (run_query s ids1 names1 as_of)) e f)
      as [d1|] eqn:Hd1;
    destruct (slot (reshape (run_query s ids2 names2 as_of)) e f)
      as [d2|] eqn:Hd2; [| | |done].
    + apply query_slot_Some in Hd1 as (_ & _ & fv1 & Hl1 & ->).
      apply query_slot_Some in Hd2 as (_ & _ & fv2 & Hl2 & ->).
      by rewrite (latest_as_of_unique s e f as_of fv1 fv2).
    + exfalso. apply query_slot_None in Hd2. apply Hd2.
      apply query_slot_Some in Hd1 as (_ & _ & fv1 & (? & ? & _) & _).
      split_and!; [done..|]. by exists fv1.
    + exfalso. apply query_slot_None in Hd1. apply Hd1.
      apply query_slot_Some in Hd2 as (_ & _ & fv2 & (? & ? & _) & _).
      split_and!; [done..|]. by exists fv2.
Qed.

Lemma matching_rows_empty (s : FeatureStore) (ids names : list string)
    (as_of : datetime) :
  ids = [] ∨ names = [] → matching_rows s ids names as_of = [].
Proof.
  intros Hempty. apply elem_of_nil_inv. intros q Hq.
  apply elem_of_matching_rows in Hq as (fv & fr & _ & _ & _ & He & Hn & _).
  destruct Hempty as [-> | ->]; by eapply elem_of_nil.
Qed.

(** X7.  A point-in-time read with no entity ids or no feature names
    returns the empty map; the query is sent all the same. *)
Theorem get_features_empty_request (s : FeatureStore) (ids names : list string)
    (timestamp : option datetime) (now : datetime) :
  pool_up s = true → ids = [] ∨ names = [] →
  (get_features s ids names timestamp now).2 = Ok ∅ ∧
  fetch_count (get_features s ids names timestamp now).1 =
    S (fetch_count s).
Proof.
  intros Hup Hempty. rewrite get_features_up by done. split.
  - simpl. unfold run_query. by rewrite matching_rows_empty.
  - reflexivity.
Qed.

(** Reshaping never leaves an entity with an empty dict. *)
Lemma reshape_inner_nonempty (rows : list QueryRow)
    (m : gmap string (gmap string FeatureData)) :
  (∀ e inner, m !! e = Some inner → inner ≠ ∅) →
  ∀ e inner, foldl reshape_step m rows !! e = Some inner → inner ≠ ∅.
Proof.
  revert m. induction rows as [|q rows IH]; intros m Hm; [done|].
  simpl. apply IH. intros e inner. unfold reshape_step.
  destruct (decide (q_entity_id q = e)) as [<-|Hne].
  - rewrite lookup_insert_eq. intros [= <-]. apply insert_non_empty.
  - rewrite lookup_insert_ne by done. apply Hm.
Qed.

Lemma slot_is_Some_inner (m : gmap string (gmap string FeatureData))
    (e : string) (inner : gmap string FeatureData) :
  m !! e = Some inner → inner ≠ ∅ → ∃ f d, slot m e f = Some d.
Proof.
  intros He Hne.
  destruct (map_choose inner Hne) as (f & d & Hf).
  exists f, d. unfold slot. by rewrite He.
Qed.

(** X8.  Every entity that appears in the result of a point-in-time
    read was asked for, has at least one feature in it, and has only
    features that were asked for: an entity without a visible sample is
    left out, not mapped to an empty dict. *)
Theorem get_features_no_empty_entity (s : FeatureStore)
    (ids names : list string) (timestamp : option datetime) (now : datetime)
    (result : gmap string (gmap string FeatureData)) (e : string)
    (inner : gmap string FeatureData) :
  (get_features s ids names timestamp now).2 = Ok result →
  result !! e = Some inner →
  e ∈ ids ∧ inner ≠ ∅ ∧ ∀ f d, inner !! f = Some d → f ∈ names.
Proof.
  intros Hrun He.
  destruct (pool_up s) eqn:Hup; [|by rewrite get_features_down in Hrun].
  rewrite get_features_up in Hrun by done. simpl in Hrun.
  injection Hrun as <-.
  assert (inner ≠ ∅) as Hne.
  { eapply (reshape_inner_nonempty _ ∅); [|exact He].
    intros e' inner'. by rewrite lookup_empty. }
  destruct (slot_is_Some_inner _ e inner He Hne) as (f0 & d0 & Hd0).
  apply query_slot_Some in Hd0 as (Hin & _).
  split_and!; [done..|]. intros f d Hd.
  assert (slot (reshape (run_query s ids names (default now timestamp))) e f
            = Some d) as Hslot by (unfold slot; by rewrite He).
  by apply query_slot_Some in Hslot as (_ & Hf & _).
Qed.

End ReadMoreFacts.

Lemma get_features_monotone_in_as_of_witness :
  ∃ r1 r2 d1,
    1000 ≤ 1005 ∧
    (Postgres.get_features
       (Examples.pg [Examples.age_row; Examples.ltv_row] true)
       ["u42"] ["user_age"] (Some 1000) 0).2 = Ok r1 ∧
    (Postgres.get_features
       (Examples.pg [Examples.age_row; Examples.ltv_row] true)
       ["u42"] ["user_age"] (Some 1005) 0).2 = Ok r2 ∧
    Postgres.slot r1 "u42" "user_age" = Some d1 ∧
    ∃ d2, Postgres.slot r2 "u42" "user_age" = Some d2 ∧
          Postgres.fd_timestamp d1 ≤ Postgres.fd_timestamp d2.
Proof.
  eexists _, _, _. split; [lia|].
  split; [vm_compute; reflexivity|].
  split; [vm_compute; reflexivity|].
  split; [vm_compute; reflexivity|].
  eapply (get_features_monotone_in_as_of
            (Examples.pg [Examples.age_row; Examples.ltv_row] true)
            ["u42"] ["user_age"] 1000 1005 0 _ _ "u42" "user_age");
    [lia | vm_compute; reflexivity | vm_compute; reflexivity
    | vm_compute; reflexivity].
Defined.

Lemma get_features_request_independent_witness :
  Vocabulary.single_version
    (Examples.pg [Examples.age_row; Examples.ltv_row] true) ∧
  Vocabulary.unique_keys
    (Examples.pg [Examples.age_row; Examples.ltv_row] true) ∧
  "u42" ∈ ["u42"] ∧ "user_ltv" ∈ ["user_ltv"] ∧
  "u42" ∈ ["u1"; "u42"] ∧ "user_ltv" ∈ ["user_age"; "user_ltv"] ∧
  ∃ r1 r2,
    (Postgres.get_features
       (Examples.pg [Examples.age_row; Examples.ltv_row] true)
       ["u42"] ["user_ltv"] (Some 1005) 0).2 =
      (if Postgres.pool_up
            (Examples.pg [Examples.age_row; Examples.ltv_row] true)
       then Ok r1 else Raise PostgresError) ∧
    (Postgres.get_features
       (Examples.pg [Examples.age_row; Examples.ltv_row] true)
       ["u1"; "u42"] ["user_age"; "user_ltv"] (Some 1005) 0).2 =
      (if Postgres.pool_up
            (Examples.pg [Examples.age_row; Examples.ltv_row] true)
       then Ok r2 else Raise PostgresError) ∧
    Postgres.slot r1 "u42" "user_ltv" = Postgres.slot r2 "u42" "user_ltv".
Proof.
  assert (Vocabulary.single_version
            (Examples.pg [Examples.age_row; Examples.ltv_row] true)) as H1.
  { unfold Vocabulary.single_version.
    apply (bool_decide_unpack _). vm_compute. exact I. }
  assert (Vocabulary.unique_keys
            (Examples.pg [Examples.age_row; Examples.ltv_row] true)) as H2.
  { unfold Vocabulary.unique_keys.
    apply (bool_decide_unpack _). vm_compute. exact I. }
  assert ("u42" ∈ ["u42"]) as H3 by apply list_elem_of_here.
  assert ("user_ltv" ∈ ["user_ltv"]) as H4 by apply list_elem_of_here.
  assert ("u42" ∈ ["u1"; "u42"]) as H5
    by apply list_elem_of_further, list_elem_of_here.
  assert ("user_ltv" ∈ ["user_age"; "user_ltv"]) as H6
    by apply list_elem_of_further, list_elem_of_here.
  split_and!; [done..|].
  apply (get_features_request_independent _ _ _ _ _ 1005 0 _ _
           H1 H2 H3 H4 H5 H6).
Defined.

Lemma get_features_empty_request_witness :
  Postgres.pool_up (Examples.pg [Examples.age_row] true) = true ∧
  (@nil string = [] ∨ ["user_age"] = []) ∧
  (Postgres.get_features (Examples.pg [Examples.age_row] true)
     [] ["user_age"] None 1005).2 = Ok ∅ ∧
  Postgres.fetch_count
    (Postgres.get_features (Examples.pg [Examples.age_row] true)
       [] ["user_age"] None 1005).1 =
    S (Postgres.fetch_count (Examples.pg [Examples.age_row] true)).
Proof.
  split; [reflexivity|]. split; [by left|].
  apply (get_features_empty_request (Examples.pg [Examples.age_row] true)
           [] ["user_age"] None 1005); [reflexivity | by left].
Defined.

Lemma get_features_no_empty_entity_witness :
  ∃ result inner,
    (Postgres.get_features
       (Examples.pg [Examples.age_row; Examples.ltv_row] true)
       ["u1"; "u42"] ["user_age"] None 1005).2 = Ok result ∧
    result !! "u42" = Some inner ∧
    "u42" ∈ ["u1"; "u42"] ∧ inner ≠ ∅ ∧
    ∀ f d, inner !! f = Some d → f ∈ ["user_age"].
Proof.
  eexists _, _. split; [vm_compute; reflexivity|].
  split; [vm_compute; reflexivity|].
  eapply (get_features_no_empty_entity
            (Examples.pg [Examples.age_row; Examples.ltv_row] true)
            ["u1"; "u42"] ["user_age"] None 1005 _ "u42");
    vm_compute; reflexivity.
Defined.

(** ** The durable store: feature history *)

Section HistoryFacts.
Import Postgres History.

#[global] Instance oldest_first_total : Total oldest_first.
Proof. intros p q. unfold oldest_first. lia. Qed.

#[global] Instance oldest_first_trans : Transitive oldest_first.
Proof. intros p q r. unfold oldest_first. lia. Qed.

Lemma elem_of_history_rows (s : FeatureStore) (e f : string)
    (t0 t1 : datetime) (p : ValueRow * FeatureRow) :
  p ∈ history_rows s e f t0 t1 ↔
  p.1 ∈ feature_values s ∧ p.2 ∈ features s ∧
  f_id p.2 = fv_feature_id p.1 ∧
  fv_entity_id p.1 = e ∧ f_name p.2 = f ∧
  t0 ≤ fv_timestamp p.1 ≤ t1.
Proof.
  unfold history_rows. rewrite merge_sort_Permutation.
  rewrite list_elem_of_filter. destruct p as [fv fr].
  rewrite elem_of_join_features. unfold history_where. simpl.
  rewrite !andb_true_iff, !bool_decide_eq_true. tauto.
Qed.

Lemma history_rows_sorted (s : FeatureStore) (e f : string) (t0 t1 : datetime) :
  StronglySorted oldest_first (history_rows s e f t0 t1).
Proof. apply StronglySorted_merge_sort; apply _. Qed.

Lemma elem_of_history (s : FeatureStore) (e f : string) (t0 t1 : datetime)
    (d : FeatureData) :
  d ∈ (λ p : ValueRow * FeatureRow, data_of p.1) <$> history_rows s e f t0 t1 ↔
  ∃ fv, stored s e f fv ∧ t0 ≤ fv_timestamp fv ≤ t1 ∧ d = data_of fv.
Proof.
  rewrite list_elem_of_fmap. split.
  - intros ([fv fr] & -> & Hin).
    apply elem_of_history_rows in Hin as (? & ? & ? & ? & ? & ? & ?).
    simpl in *.
    exists fv. split_and!; [|done..]. split_and!; [done..|]. by exists fr.
  - intros (fv & (Hin & He & fr & Hfr & Hid & Hn) & Ht & ->).
    exists (fv, fr). split; [done|]. by apply elem_of_history_rows.
Qed.

Lemma get_feature_history_up (s : FeatureStore) (e f : string)
    (t0 t1 : datetime) :
  pool_up s = true →
  (get_feature_history s e f t0 t1).2 =
  Ok ((λ p : ValueRow * FeatureRow, data_of p.1) <$> history_rows s e f t0 t1).
Proof. unfold get_feature_history. by intros ->. Qed.

(** X9.  [get_feature_history] on a reachable store returns, oldest
    first, exactly the stored samples of the (entity, feature) pair whose
    timestamp lies between start_time and end_time, both bounds
    included. *)
Theorem get_feature_history_sorted_and_complete (s : FeatureStore)
    (e f : string) (t0 t1 : datetime) :
  pool_up s = true →
  ∃ hist,
    (get_feature_history s e f t0 t1).2 = Ok hist ∧
    StronglySorted (λ a b, fd_timestamp a ≤ fd_timestamp b) hist ∧
    ∀ d, d ∈ hist ↔
         ∃ fv, stored s e f fv ∧ t0 ≤ fv_timestamp fv ≤ t1 ∧ d = data_of fv.
Proof.
  intros Hup. eexists. split; [by apply get_feature_history_up|]. split.
  - apply (StronglySorted_fmap _ oldest_first); [|apply history_rows_sorted].
    by intros p q.
  - apply elem_of_history.
Qed.

Lemma last_elem_of {A} (l : list A) (x : A) : last l = Some x → x ∈ l.
Proof.
  intros [l' ->]%last_Some. apply elem_of_app. right. apply list_elem_of_here.
Qed.

Lemma StronglySorted_last {A} (R : relation A) (l : list A) (x y : A) :
  StronglySorted R l → x ∈ l → last l = Some y → x = y ∨ R x y.
Proof.
  induction 1 as [|a l Hsorted IH Hall]; intros Hin Hlast.
  - by apply elem_of_nil in Hin.
  - destruct l as [|b l].
    + apply list_elem_of_singleton in Hin as ->. injection Hlast as ->.
      by left.
    + change (last (a :: b :: l)) with (last (b :: l)) in Hlast.
      apply elem_of_cons in Hin as [->|Hin]; [|by apply IH].
      right. eapply Forall_forall; [exact Hall|].
      by apply last_elem_of.
Qed.

(** X10.  The point-in-time read and the history agree: the sample that
    [get_features] returns for a pair as of [as_of] carries the timestamp
    of the last element of the pair's history up to [as_of] (from any
    start not later than that sample). *)
Theorem latest_is_last_of_history (s : FeatureStore) (ids names : list string)
    (as_of now t0 : datetime) (result : gmap string (gmap string FeatureData))
    (e f : string) (d : FeatureData) :
  (get_features s ids names (Some as_of) now).2 = Ok result →
  slot result e f = Some d →
  t0 ≤ fd_timestamp d →
  ∃ hist,
    (get_feature_history s e f t0 as_of).2 = Ok hist ∧
    fd_timestamp <$> last hist = Some (fd_timestamp d).
Proof.
  intros Hrun Hd Ht0.
  destruct (pool_up s) eqn:Hup; [|by rewrite get_features_down in Hrun].
  rewrite get_features_up in Hrun by done. simpl in Hrun.
  injection Hrun as <-.
  apply query_slot_Some in Hd as (_ & _ & fv & (Hst & Hle & Hmax) & ->).
  simpl in Ht0.
  eexists. split; [by apply get_feature_history_up|].
  set (hist := _ <$> history_rows s e f t0 as_of).
  assert (data_of fv ∈ hist) as Hin.
  { apply elem_of_history. exists fv. split_and!; try done; lia. }
  destruct (last hist) as [y|] eqn:Hlast.
  - simpl. f_equal.
    assert (y ∈ hist) as Hy by by apply last_elem_of.
    apply elem_of_history in Hy as (fv' & Hst' & Ht' & ->).
    assert (StronglySorted (λ a b, fd_timestamp a ≤ fd_timestamp b) hist)
      as Hsorted.
    { apply (StronglySorted_fmap _ oldest_first); [|apply history_rows_sorted].
      by intros p q. }
    destruct (StronglySorted_last _ hist _ _ Hsorted Hin Hlast) as [Heq|Hord].
    + apply (f_equal fd_timestamp) in Heq. simpl in *. lia.
    + simpl in *. specialize (Hmax fv' Hst' ltac:(lia)). lia.
  - apply last_None in Hlast. rewrite Hlast in Hin.
    by apply elem_of_nil in Hin.
Qed.

End HistoryFacts.

Lemma get_feature_history_sorted_and_complete_witness :
  Postgres.pool_up (Examples.pg [Examples.age_row; Examples.ltv_row] true)
    = true ∧
  ∃ hist,
    (History.get_feature_history
       (Examples.pg [Examples.age_row; Examples.ltv_row] true)
       "u42" "user_age" 0 2000).2 = Ok hist ∧
    StronglySorted
      (λ a b, Postgres.fd_timestamp a ≤ Postgres.fd_timestamp b) hist ∧
    ∀ d, d ∈ hist ↔
         ∃ fv, Postgres.stored
                 (Examples.pg [Examples.age_row; Examples.ltv_row] true)
                 "u42" "user_age" fv ∧
               0 ≤ Postgres.fv_timestamp fv ≤ 2000 ∧
               d = Postgres.data_of fv.
Proof.
  split; [reflexivity|].
  apply (get_feature_history_sorted_and_complete
           (Examples.pg [Examples.age_row; Examples.ltv_row] true)
           "u42" "user_age" 0 2000).
  reflexivity.
Defined.

Lemma latest_is_last_of_history_witness :
  ∃ result d,
    (Postgres.get_features
       (Examples.pg [Examples.age_row; Examples.ltv_row] true)
       ["u42"] ["user_age"] (Some 1005) 0).2 = Ok result ∧
    Postgres.slot result "u42" "user_age" = Some d ∧
    0 ≤ Postgres.fd_timestamp d ∧
    ∃ hist,
      (History.get_feature_history
         (Examples.pg [Examples.age_row; Examples.ltv_row] true)
         "u42" "user_age" 0 1005).2 = Ok hist ∧
      Postgres.fd_timestamp <$> last hist = Some (Postgres.fd_timestamp d).
Proof.
  eexists _, _. split; [vm_compute; reflexivity|].
  split; [vm_compute; reflexivity|].
  split; [vm_compute; discriminate|].
  eapply (latest_is_last_of_history
            (Examples.pg [Examples.age_row; Examples.ltv_row] true)
            ["u42"] ["user_age"] 1005 0 0 _ "u42" "user_age");
    [vm_compute; reflexivity | vm_compute; reflexivity
    | vm_compute; discriminate].
Defined.

(** ** The cache tier: writes, reads and invalidation together *)

Section CacheMoreFacts.
Import RedisCache CacheOps.
Context `{Wire}.

Lemma comprehension_queue_fail (l : list (string * CacheRecord))
    (kv : string * CacheRecord) :
  kv ∈ l → packb kv.2 = None →
  ∃ e, comprehension queue_setex l = Raise e.
Proof.
  induction l as [|x l IH]; intros Hin Hfail; [by apply elem_of_nil in Hin|].
  simpl. unfold queue_setex at 1.
  destruct (packb x.2) as [b|] eqn:Hx; [|by eexists].
  apply elem_of_cons in Hin as [->|Hin]; [congruence|].
  destruct (IH Hin Hfail) as [e ->]. by eexists.
Qed.

Lemma comprehension_queue_ok (l : list (string * CacheRecord)) :
  Forall (λ kv, is_Some (packb kv.2)) l →
  ∃ cmds, comprehension queue_setex l = Ok cmds ∧
          cmds.*1 = l.*1 ∧
          ∀ k b, (k, b) ∈ cmds → ∃ v, (k, v) ∈ l ∧ packb v = Some b.
Proof.
  induction 1 as [|[k v] l [b Hb] _ (cmds & Hrun & Hkeys & Hcmds)].
  - exists []. split_and!; [done..|]. intros k b Hin.
    by apply elem_of_nil in Hin.
  - exists ((k, b) :: cmds). simpl in Hb. split_and!.
    + simpl. unfold queue_setex at 1. simpl. by rewrite Hb, Hrun.
    + rewrite !fmap_cons. by rewrite Hkeys.
    + intros k' b' [[= -> ->]|Hin]%elem_of_cons.
      * exists v. split; [apply list_elem_of_here | done].
      * destruct (Hcmds k' b' Hin) as (v' & Hv' & Hp).
        exists v'. split; [by apply list_elem_of_further | done].
Qed.

Lemma foldl_setex_lookup_notin (cmds : list (string * bytes)) (ttl : Z)
    (ks : gmap string (bytes * Z)) (k : string) :
  k ∉ cmds.*1 →
  foldl (λ ks kb, <[kb.1 := (kb.2, ttl)]> ks) ks cmds !! k = ks !! k.
Proof.
  revert ks. induction cmds as [|[k' b] cmds IH]; intros ks Hk; [done|].
  simpl in *. apply not_elem_of_cons in Hk as [Hne Hk].
  rewrite IH by done. by rewrite lookup_insert_ne.
Qed.

Lemma foldl_setex_lookup_in (cmds : list (string * bytes)) (ttl : Z)
    (ks : gmap string (bytes * Z)) (k : string) (b : bytes) :
  NoDup cmds.*1 → (k, b) ∈ cmds →
  foldl (λ ks kb, <[kb.1 := (kb.2, ttl)]> ks) ks cmds !! k = Some (b, ttl).
Proof.
  revert ks. induction cmds as [|[k' b'] cmds IH]; intros ks Hnd Hin.
  - by apply elem_of_nil in Hin.
  - simpl in *. apply NoDup_cons in Hnd as [Hfresh Hnd].
    apply elem_of_cons in Hin as [[= -> ->]|Hin].
    + rewrite foldl_setex_lookup_notin by done. apply lookup_insert_eq.
    + by apply IH.
Qed.

(** The keyspace after a [set_many] that went through. *)
Lemma set_many_keyspace (c : FeatureCache) (data : gmap string CacheRecord)
    (ttl : Z) (k : string) :
  client_up c = true →
  (∀ key v, data !! key = Some v → is_Some (packb v)) →
  client_up (set_many c data ttl).1 = true ∧
  match data !! k with
  | Some v => ∃ b, packb v = Some b ∧
                   keyspace (set_many c data ttl).1 !! k = Some (b, ttl)
  | None => keyspace (set_many c data ttl).1 !! k = keyspace c !! k
  end.
Proof.
  intros Hup Hpack. unfold set_many.
  destruct (decide (data = ∅)) as [->|Hne].
  { split; [done|]. by rewrite lookup_empty. }
  destruct (comprehension_queue_ok (map_to_list data)) as (cmds & -> & Hk & Hc).
  { apply Forall_forall. intros [key v] Hin.
    apply elem_of_map_to_list in Hin. by eapply Hpack. }
  unfold pipeline_setex. rewrite Hup. cbn [fst keyspace set_keyspace client_up].
  split; [done|].
  assert (NoDup cmds.*1) as Hnd
    by (rewrite Hk; apply NoDup_fst_map_to_list).
  destruct (data !! k) as [v|] eqn:Hv.
  - destruct (Hpack k v Hv) as [b Hb]. exists b. split; [done|].
    apply foldl_setex_lookup_in; [done|].
    assert (k ∈ cmds.*1) as Hin.
    { rewrite Hk. apply list_elem_of_fmap. exists (k, v).
      split; [done | by apply elem_of_map_to_list]. }
    apply list_elem_of_fmap in Hin as ([k' b'] & -> & Hin).
    destruct (Hc k' b' Hin) as (v' & Hv' & Hb').
    apply elem_of_map_to_list in Hv'. simpl in *.
    assert (v' = v) as -> by congruence.
    assert (b' = b) as -> by congruence. done.
  - apply foldl_setex_lookup_notin. rewrite Hk.
    intros ([k' v'] & -> & Hin)%list_elem_of_fmap.
    apply elem_of_map_to_list in Hin. simpl in *. congruence.
Qed.

(** X11.  Round trip through the cache: after [set_many data ttl] on a
    reachable server, with a positive TTL (the only kind SETEX accepts)
    and records the codec gives back, [get_many] over any keys of [data]
    returns the records of [data] in the order of the keys, whatever the
    cache held before, each key sits under the given TTL, and keys outside
    [data] keep what they had. *)
Theorem set_many_get_many_round_trip (c : FeatureCache)
    (data : gmap string CacheRecord) (ttl : Z) (keys : list string) :
  client_up c = true → 0 < ttl →
  (∀ key v, data !! key = Some v → round_trips v) →
  Forall (λ key, is_Some (data !! key)) keys →
  get_many (set_many c data ttl).1 keys = Ok ((data !!.) <$> keys) ∧
  (∀ key, is_Some (data !! key) →
          snd <$> keyspace (set_many c data ttl).1 !! key = Some ttl) ∧
  (∀ key, data !! key = None →
          keyspace (set_many c data ttl).1 !! key = keyspace c !! key).
Proof.
  intros Hup _ Hrt Hkeys.
  assert (∀ key v, data !! key = Some v → is_Some (packb v)) as Hpack.
  { intros key v Hv. destruct (Hrt key v Hv) as (b & Hb & _). eauto. }
  assert (∀ key v, data !! key = Some v →
            cached_value (set_many c data ttl).1 key = Some v ∧
            decodes (set_many c data ttl).1 key = true) as Hcached.
  { intros key v Hv.
    destruct (set_many_keyspace c data ttl key Hup Hpack) as [_ Hks].
    rewrite Hv in Hks. destruct Hks as (b & Hb & Hks).
    destruct (Hrt key v Hv) as (b' & Hb' & Htruthy & Hunpack).
    assert (b' = b) as -> by congruence.
    unfold cached_value, decodes. rewrite Hks, Htruthy, Hunpack.
    split; [done|]. apply bool_decide_eq_true_2. eauto. }
  split_and!.
  - rewrite get_many_answer. f_equal.
    apply Forall_fmap_ext_1.
    unfold answer, batch_ok.
    destruct (set_many_keyspace c data ttl "" Hup Hpack) as [-> _].
    replace (forallb _ keys) with true; simpl.
    + eapply Forall_impl; [exact Hkeys|]. intros key [v Hv].
      rewrite Hv. by apply Hcached.
    + symmetry. apply forallb_forall. intros key Hin.
      apply list_elem_of_In in Hin.
      rewrite Forall_forall in Hkeys. destruct (Hkeys key Hin) as [v Hv].
      by apply (Hcached key v).
  - intros key [v Hv].
    destruct (set_many_keyspace c data ttl key Hup Hpack) as [_ Hks].
    rewrite Hv in Hks. destruct Hks as (b & _ & ->). done.
  - intros key Hnone.
    destruct (set_many_keyspace c data ttl key Hup Hpack) as [_ Hks].
    by rewrite Hnone in Hks.
Qed.

(** X12.  [set_many] is all or nothing on a serialization failure: if one
    record of the batch cannot be packed, nothing is written, not even
    the entries that could be, and the call still returns normally. *)
Theorem set_many_pack_failure_writes_nothing (c : FeatureCache)
    (data : gmap string CacheRecord) (ttl : Z) (key : string)
    (v : CacheRecord) :
  data !! key = Some v → packb v = None →
  set_many c data ttl = (c, Ok tt).
Proof.
  intros Hv Hfail. unfold set_many.
  destruct (decide (data = ∅)) as [->|_]; [done|].
  destruct (comprehension_queue_fail (map_to_list data) (key, v)) as [e ->];
    [by apply elem_of_map_to_list | done | done].
Qed.

End CacheMoreFacts.

Section InvalidateFacts.
Import RedisCache CacheOps.
Context `{Wire}.

Lemma elem_of_scan (ks : gmap string (bytes * Z)) (pattern k : string) :
  k ∈ filter (λ key, glob_match pattern key = true) (map_to_list ks).*1 ↔
  glob_match pattern k = true ∧ is_Some (ks !! k).
Proof.
  rewrite list_elem_of_filter, list_elem_of_fmap. split.
  - intros [Hg ([k' v] & -> & Hin)]. apply elem_of_map_to_list in Hin.
    split; [done | by eexists].
  - intros [Hg [v Hv]]. split; [done|]. exists (k, v).
    split; [done | by apply elem_of_map_to_list].
Qed.

(** DEL answers with the number of entries it removed. *)
Lemma size_foldr_delete {A} (m : gmap string A) (keys : list string) :
  (size (foldr delete m keys)
   + length (filter (λ key, is_Some (m !! key)) (remove_dups keys)))%nat
  = size m.
Proof.
  induction keys as [|k keys IH]; simpl; [lia|].
  destruct (decide_rel elem_of k keys) as [Hin|Hin].
  - rewrite map_size_delete_None; [done|]. by apply lookup_foldr_delete.
  - rewrite map_size_delete, lookup_foldr_delete_not_elem_of by done.
    destruct (m !! k) as [v|] eqn:Hk.
    + rewrite filter_cons_True by (rewrite Hk; eauto). simpl.
      assert (size (foldr delete m keys) ≠ 0%nat); [|lia].
      apply (map_size_ne_0_lookup_2 _ k).
      rewrite lookup_foldr_delete_not_elem_of by done. eauto.
    + rewrite filter_cons_False by (rewrite Hk; by intros [??]). done.
Qed.

Lemma invalidate_up (c : FeatureCache) (pattern : string) :
  client_up c = true →
  invalidate c pattern =
  (set_keyspace
     (foldr delete (keyspace c)
        (filter (λ key, glob_match pattern key = true)
                (map_to_list (keyspace c)).*1)) c,
   Ok (Z.of_nat
         (length (filter (λ key, is_Some (keyspace c !! key))
                    (remove_dups
                       (filter (λ key, glob_match pattern key = true)
                               (map_to_list (keyspace c)).*1)))))).
Proof.
  intros Hup. unfold invalidate, scan_iter, delete_keys. rewrite Hup.
  destruct (filter _ _) as [|k keys] eqn:Hkeys; [|done].
  simpl. by destruct c.
Qed.

(** X13.  [invalidate] on a reachable server removes exactly the keys
    that match the pattern and leaves every other key as it was; the
    count it returns is the number of entries removed. *)
Theorem invalidate_removes_exactly_matching (c : FeatureCache)
    (pattern : string) :
  client_up c = true →
  ∃ c' n,
    invalidate c pattern = (c', Ok n) ∧
    client_up c' = true ∧
    (∀ key, keyspace c' !! key =
            if glob_match pattern key then None else keyspace c !! key) ∧
    Z.of_nat (size (keyspace c)) = Z.of_nat (size (keyspace c')) + n.
Proof.
  intros Hup. rewrite invalidate_up by done.
  eexists _, _. split; [reflexivity|]. cbn [keyspace set_keyspace client_up].
  split_and!; [done| |].
  - intros key. destruct (glob_match pattern key) eqn:Hg.
    + destruct (keyspace c !! key) as [v|] eqn:Hk.
      * apply lookup_foldr_delete, elem_of_scan. eauto.
      * rewrite lookup_foldr_delete_not_elem_of; [done|].
        intros [_ [v Hv]]%elem_of_scan. congruence.
    + apply lookup_foldr_delete_not_elem_of.
      intros [Hg' _]%elem_of_scan. congruence.
  - pose proof (size_foldr_delete (keyspace c)
                  (filter (λ key, glob_match pattern key = true)
                          (map_to_list (keyspace c)).*1)). lia.
Qed.

(** X14.  A second [invalidate] with the same pattern finds nothing to
    do: it returns 0 and leaves the cache as the first call left it,
    whether the server is reachable or not. *)
Theorem invalidate_twice (c : FeatureCache) (pattern : string) :
  invalidate (invalidate c pattern).1 pattern =
  ((invalidate c pattern).1, Ok 0).
Proof.
  destruct (client_up c) eqn:Hup.
  - rewrite (invalidate_up c) by done. cbn [fst].
    set (c' := set_keyspace _ c).
    unfold invalidate, scan_iter. cbn [client_up c' set_keyspace].
    rewrite Hup.
    replace (filter _ (map_to_list (keyspace c')).*1) with (@nil string);
      [done|].
    symmetry. apply elem_of_nil_inv. intros k [Hg [v Hv]]%elem_of_scan.
    unfold c' in Hv. cbn [keyspace set_keyspace] in Hv.
    apply lookup_foldr_delete_Some in Hv as [Hnot Hv].
    apply Hnot, elem_of_scan. eauto.
  - rewrite (invalidate_down c) by done. by apply invalidate_down.
Qed.

(** X15.  The single-key [get] and the batched [get_many] agree on one
    key: both answer the record cached under it when the server is
    reachable and the payload decodes, and absent otherwise; neither
    raises. *)
Theorem get_agrees_with_get_many (c : FeatureCache) (key : string) :
  ∃ r, get c key = Ok r ∧ get_many c [key] = Ok [r] ∧
       r = (if client_up c then cached_value c key else None).
Proof.
  rewrite get_many_answer. unfold get, answer, batch_ok, decodes, cached_value.
  destruct (client_up c); simpl; [|by eexists].
  destruct (keyspace c !! key) as [[b ttl]|]; simpl; [|by eexists].
  destruct (truthy b); simpl; [|by eexists].
  destruct (unpackb b) as [v|]; simpl; by eexists.
Qed.

(** X16.  [set] is [set_many] on a one-entry batch, and what it writes
    can be read back: on a reachable server, with a positive TTL (the
    only kind SETEX accepts) and a record the codec gives back, [get] of
    the key just set returns the record. *)
Theorem set_then_get (c : FeatureCache) (key : string) (v : CacheRecord)
    (ttl : Z) :
  client_up c = true → 0 < ttl → round_trips v →
  set c key v ttl = set_many c {[ key := v ]} ttl ∧
  get (set c key v ttl).1 key = Ok (Some v) ∧
  snd <$> keyspace (set c key v ttl).1 !! key = Some ttl.
Proof.
  intros Hup _ (b & Hb & Htruthy & Hunpack). split_and!.
  - unfold set, set_many, pipeline_setex.
    rewrite decide_False by apply insert_non_empty.
    rewrite map_to_list_singleton. simpl. unfold queue_setex. simpl.
    rewrite Hb, Hup. done.
  - unfold set, get. rewrite Hb, Hup. simpl. rewrite Hup.
    rewrite lookup_insert_eq. simpl. by rewrite Htruthy, Hunpack.
  - unfold set. rewrite Hb, Hup. simpl. by rewrite lookup_insert_eq.
Qed.

(** X17.  [flush] is the one cache operation that lets a failure through:
    with the server unreachable it raises and changes nothing; with the
    server reachable it empties the cache, so that every later
    [get_many] answers all-absent. *)
Theorem flush_raises_or_empties (c : FeatureCache) (keys : list string) :
  if client_up c
  then (flush c).2 = Ok tt ∧ keyspace (flush c).1 = ∅ ∧
       get_many (flush c).1 keys = Ok (replicate (length keys) None)
  else flush c = (c, Raise RedisError).
Proof.
  unfold flush. destruct (client_up c) eqn:Hup; [|done].
  split_and!; [done..|].
  rewrite get_many_answer. f_equal. rewrite replicate_const_fmap.
  apply Forall_fmap_ext_1, Forall_forall. intros key _.
  unfold answer, cached_value. cbn [fst keyspace set_keyspace].
  rewrite lookup_empty. by destruct (batch_ok _ _).
Qed.

End InvalidateFacts.

Lemma set_many_get_many_round_trip_witness :
  RedisCache.client_up (Examples.redis Scenarios.three_keys true) = true ∧
  0 < 60 ∧
  (∀ key v,
     ({[ "u42:user_age" := Scenarios.ltv_cached ]}
        : gmap string RedisCache.CacheRecord) !! key = Some v →
     CacheOps.round_trips v) ∧
  Forall (λ key, is_Some
            (({[ "u42:user_age" := Scenarios.ltv_cached ]}
                : gmap string RedisCache.CacheRecord) !! key))
         ["u42:user_age"] ∧
  RedisCache.get_many
    (RedisCache.set_many (Examples.redis Scenarios.three_keys true)
       {[ "u42:user_age" := Scenarios.ltv_cached ]} 60).1
    ["u42:user_age"] =
    Ok ((({[ "u42:user_age" := Scenarios.ltv_cached ]}
            : gmap string RedisCache.CacheRecord) !!.) <$> ["u42:user_age"]) ∧
  (∀ key,
     is_Some (({[ "u42:user_age" := Scenarios.ltv_cached ]}
                 : gmap string RedisCache.CacheRecord) !! key) →
     snd <$> RedisCache.keyspace
               (RedisCache.set_many (Examples.redis Scenarios.three_keys true)
                  {[ "u42:user_age" := Scenarios.ltv_cached ]} 60).1 !! key
     = Some 60) ∧
  (∀ key,
     ({[ "u42:user_age" := Scenarios.ltv_cached ]}
        : gmap string RedisCache.CacheRecord) !! key = None →
     RedisCache.keyspace
       (RedisCache.set_many (Examples.redis Scenarios.three_keys true)
          {[ "u42:user_age" := Scenarios.ltv_cached ]} 60).1 !! key =
     RedisCache.keyspace (Examples.redis Scenarios.three_keys true) !! key).
Proof.
  assert (∀ key v,
            ({[ "u42:user_age" := Scenarios.ltv_cached ]}
               : gmap string RedisCache.CacheRecord) !! key = Some v →
            CacheOps.round_trips v) as Hrt.
  { intros key v _. by exists v. }
  assert (Forall (λ key, is_Some
            (({[ "u42:user_age" := Scenarios.ltv_cached ]}
                : gmap string RedisCache.CacheRecord) !! key))
            ["u42:user_age"]) as Hkeys.
  { constructor; [|constructor]. by eexists. }
  assert (0 < 60) as Httl by lia.
  split; [reflexivity|]. split; [exact Httl|]. split; [exact Hrt|].
  split; [exact Hkeys|].
  apply (set_many_get_many_round_trip
           (Examples.redis Scenarios.three_keys true)
           {[ "u42:user_age" := Scenarios.ltv_cached ]} 60 ["u42:user_age"]
           eq_refl Httl Hrt Hkeys).
Defined.

Lemma set_many_pack_failure_writes_nothing_witness :
  ({[ "u42:user_age" := Examples.age_cached;
      "u42:user_ltv" := Scenarios.null_record ]}
     : gmap string RedisCache.CacheRecord) !! "u42:user_ltv"
    = Some Scenarios.null_record ∧
  @RedisCache.packb Scenarios.picky_wire Scenarios.null_record = None ∧
  @RedisCache.set_many Scenarios.picky_wire
    {| RedisCache.keyspace := ∅; RedisCache.client_up := true |}
    {[ "u42:user_age" := Examples.age_cached;
       "u42:user_ltv" := Scenarios.null_record ]} 3600 =
  ({| RedisCache.keyspace := ∅; RedisCache.client_up := true |}, Ok tt).
Proof.
  split; [vm_compute; reflexivity|]. split; [reflexivity|].
  apply (@set_many_pack_failure_writes_nothing Scenarios.picky_wire
           {| RedisCache.keyspace := ∅; RedisCache.client_up := true |}
           {[ "u42:user_age" := Examples.age_cached;
              "u42:user_ltv" := Scenarios.null_record ]} 3600
           "u42:user_ltv" Scenarios.null_record);
    [vm_compute; reflexivity | reflexivity].
Defined.

Lemma invalidate_removes_exactly_matching_witness :
  RedisCache.client_up (Examples.redis Scenarios.three_keys true) = true ∧
  ∃ c' n,
    RedisCache.invalidate (Examples.redis Scenarios.three_keys true) "u42:*"
      = (c', Ok n) ∧
    RedisCache.client_up c' = true ∧
    (∀ key, RedisCache.keyspace c' !! key =
            if RedisCache.glob_match "u42:*" key then None
            else RedisCache.keyspace
                   (Examples.redis Scenarios.three_keys true) !! key) ∧
    Z.of_nat (size (RedisCache.keyspace
                      (Examples.redis Scenarios.three_keys true))) =
      Z.of_nat (size (RedisCache.keyspace c')) + n.
Proof.
  split; [reflexivity|].
  apply (invalidate_removes_exactly_matching
           (Examples.redis Scenarios.three_keys true) "u42:*").
  reflexivity.
Defined.

Lemma set_then_get_witness :
  RedisCache.client_up (Examples.redis ∅ true) = true ∧
  0 < 60 ∧
  CacheOps.round_trips Examples.age_cached ∧
  CacheOps.set (Examples.redis ∅ true) "u42:user_age" Examples.age_cached 60
    = RedisCache.set_many (Examples.redis ∅ true)
        {[ "u42:user_age" := Examples.age_cached ]} 60 ∧
  CacheOps.get
    (CacheOps.set (Examples.redis ∅ true) "u42:user_age"
       Examples.age_cached 60).1 "u42:user_age" = Ok (Some Examples.age_cached) ∧
  snd <$> RedisCache.keyspace
            (CacheOps.set (Examples.redis ∅ true) "u42:user_age"
               Examples.age_cached 60).1 !! "u42:user_age" = Some 60.
Proof.
  assert (CacheOps.round_trips Examples.age_cached) as Hrt
    by by exists Examples.age_cached.
  assert (0 < 60) as Httl by lia.
  split; [reflexivity|]. split; [exact Httl|]. split; [exact Hrt|].
  apply (set_then_get (Examples.redis ∅ true) "u42:user_age"
           Examples.age_cached 60 eq_refl Httl Hrt).
Defined.

(** ** The batch read *)

Section BatchFacts.
Import Postgres RedisCache Routes MoreRoutes.
Context `{Wire}.

(** The point in time a batch request asks about. *)
Lemma get_batch_features_up (w : World) (request : BatchFeatureRequest) :
  pool_up (store w) = true →
  ∃ w' resp,
    get_batch_features w request = (w', Ok resp) ∧
    store w' =
      log_event (Fetch (entity_ids request) (b_feature_names request)
                       (default (clock w (ticks w)) (b_timestamp request)))
                (log_event AcquireConn (store w)) ∧
    cache w' = cache w ∧
    ticks w' = match b_timestamp request with
               | Some _ => ticks w
               | None => S (S (ticks w))
               end ∧
    b_features resp =
      (λ features : gmap string FeatureData, of_batch <$> features) <$>
        reshape (run_query (store w) (entity_ids request)
                   (b_feature_names request)
                   (default (clock w (ticks w)) (b_timestamp request))) ∧
    b_as_of resp = match b_timestamp request with
                   | Some t => t
                   | None => clock w (S (ticks w))
                   end ∧
    b_count resp = size (b_features resp).
Proof.
  intros Hup. unfold get_batch_features, timestamp_or_now, utcnow.
  destruct (b_timestamp request) as [t|]; cbn [store set_ticks];
    rewrite get_features_up by done; cbn [default];
    eexists _, _; split_and!; reflexivity.
Qed.

Lemma get_batch_features_down (w : World) (request : BatchFeatureRequest) :
  pool_up (store w) = false →
  (get_batch_features w request).2 = Raise PostgresError.
Proof.
  intros Hdown. unfold get_batch_features, timestamp_or_now, utcnow.
  destruct (b_timestamp request) as [t|]; cbn [store set_ticks];
    by rewrite get_features_down by done.
Qed.

(** X18.  The batch read never goes through the cache: with the store
    reachable it answers whatever the state of the cache (absent,
    unreachable, full), leaves the cache as it was and sends exactly one
    query; with the store unreachable it fails with the store's
    exception, which the global handler answers with status 500. *)
Theorem get_batch_features_bypasses_cache (w : World)
    (request : BatchFeatureRequest) :
  if pool_up (store w)
  then ∃ w' resp,
         get_batch_features w request = (w', Ok resp) ∧
         cache w' = cache w ∧
         fetch_count (store w') = S (fetch_count (store w)) ∧
         feature_values (store w') = feature_values (store w)
  else (get_batch_features w request).2 = Raise PostgresError ∧
       Main.status_code (get_batch_features w request).2 = 500.
Proof.
  destruct (pool_up (store w)) eqn:Hup.
  - destruct (get_batch_features_up w request Hup)
      as (w' & resp & Hrun & Hstore & Hcache & _).
    exists w', resp. split_and!; [done | done | |]; by rewrite Hstore.
  - rewrite get_batch_features_down by done. done.
Qed.

Lemma size_le_keys {A} (m : gmap string A) (l : list string) :
  (∀ k, is_Some (m !! k) → k ∈ l) → (size m ≤ length l)%nat.
Proof.
  intros Hdom. rewrite <- length_map_to_list.
  rewrite <- (length_fmap fst (map_to_list m)).
  apply submseteq_length, NoDup_submseteq; [apply NoDup_fst_map_to_list|].
  intros k ([k' v] & -> & Hin)%list_elem_of_fmap.
  apply elem_of_map_to_list in Hin. apply Hdom. by eexists.
Qed.

(** X19.  What the batch read returns is point-in-time correct and
    counted by entity: every entity in the response was requested and
    has at least one feature; every feature value carries the value and
    timestamp of a latest stored sample not later than the as-of time
    (the request's timestamp, or the clock when it has none) and no
    freshness; [count] is the number of entities in the response, at
    most the number requested. *)
Theorem get_batch_features_point_in_time (w w' : World)
    (request : BatchFeatureRequest) (resp : BatchFeatureResponse) :
  get_batch_features w request = (w', Ok resp) →
  (∀ e feats, b_features resp !! e = Some feats →
              e ∈ entity_ids request ∧ feats ≠ ∅) ∧
  (∀ e feats f fv,
     b_features resp !! e = Some feats → feats !! f = Some fv →
     f ∈ b_feature_names request ∧
     freshness_seconds fv = None ∧
     timestamp fv ≤ default (clock w (ticks w)) (b_timestamp request) ∧
     ∃ row, latest_as_of (store w) e f
              (default (clock w (ticks w)) (b_timestamp request)) row ∧
            value fv = fv_value row ∧ timestamp fv = fv_timestamp row) ∧
  b_count resp = size (b_features resp) ∧
  (b_count resp ≤ length (entity_ids request))%nat.
Proof.
  intros Hrun.
  destruct (pool_up (store w)) eqn:Hup;
    [|pose proof (get_batch_features_down w request Hup) as Hd;
      by rewrite Hrun in Hd].
  destruct (get_batch_features_up w request Hup)
    as (w1 & resp1 & Hrun1 & _ & _ & _ & Hfeat & _ & Hcount).
  rewrite Hrun in Hrun1. injection Hrun1 as <- <-.
  set (as_of := default (clock w (ticks w)) (b_timestamp request)) in *.
  set (matrix := reshape _) in Hfeat.
  assert (∀ e feats, b_features resp !! e = Some feats →
            ∃ inner, matrix !! e = Some inner ∧ feats = of_batch <$> inner)
    as Hinner.
  { intros e feats. rewrite Hfeat, lookup_fmap.
    destruct (matrix !! e) as [inner|]; [|done].
    intros [= <-]. by exists inner. }
  assert (∀ e inner, matrix !! e = Some inner → e ∈ entity_ids request ∧
            inner ≠ ∅) as Hentity.
  { intros e inner He.
    assert (inner ≠ ∅) as Hne.
    { eapply (reshape_inner_nonempty _ ∅); [|exact He].
      intros e' inner'. by rewrite lookup_empty. }
    split; [|done].
    destruct (slot_is_Some_inner _ e inner He Hne) as (f & d & Hd).
    by apply query_slot_Some in Hd as (? & _). }
  split_and!; [| |done|].
  - intros e feats He. destruct (Hinner e feats He) as (inner & Hi & ->).
    destruct (Hentity e inner Hi) as [? Hne]. split; [done|].
    intros Hempty. apply fmap_empty_inv in Hempty. done.
  - intros e feats f fv He Hf.
    destruct (Hinner e feats He) as (inner & Hi & ->).
    rewrite lookup_fmap in Hf.
    destruct (inner !! f) as [d|] eqn:Hd; [|done]. injection Hf as <-.
    assert (slot matrix e f = Some d) as Hslot
      by (unfold slot; by rewrite Hi).
    apply query_slot_Some in Hslot as (_ & Hin & row & Hlatest & ->).
    split_and!; [done | done | by destruct Hlatest as (_ & ? & _) |].
    by exists row.
  - rewrite Hcount. apply size_le_keys. intros e [feats He].
    destruct (Hinner e feats He) as (inner & Hi & _).
    by apply Hentity in Hi as [? _].
Qed.

(** X20.  The timestamp a batch response reports: when the request names
    a timestamp, that timestamp, and the clock is not read; when it does
    not, the query is made as of one clock reading and the response
    reports the next one, taken after the query. *)
Theorem get_batch_features_reported_timestamp (w : World)
    (request : BatchFeatureRequest) :
  pool_up (store w) = true →
  ∃ w' resp,
    get_batch_features w request = (w', Ok resp) ∧
    match b_timestamp request with
    | Some t =>
        b_as_of resp = t ∧ ticks w' = ticks w ∧
        head (pg_log (store w')) =
          Some (Fetch (entity_ids request) (b_feature_names request) t)
    | None =>
        b_as_of resp = clock w (S (ticks w)) ∧
        ticks w' = S (S (ticks w)) ∧
        head (pg_log (store w')) =
          Some (Fetch (entity_ids request) (b_feature_names request)
                      (clock w (ticks w)))
    end.
Proof.
  intros Hup.
  destruct (get_batch_features_up w request Hup)
    as (w' & resp & Hrun & Hstore & _ & Hticks & _ & Hstamp & _).
  exists w', resp. split; [done|]. rewrite Hstore.
  by destruct (b_timestamp request).
Qed.

End BatchFacts.

Lemma get_batch_features_point_in_time_witness :
  ∃ w' resp,
    MoreRoutes.get_batch_features Examples.half_cached
      (Scenarios.batch_ask ["u42"; "u1"] ["user_age"] (Some 1002)) =
      (w', Ok resp) ∧
    (∀ e feats, MoreRoutes.b_features resp !! e = Some feats →
                e ∈ ["u42"; "u1"] ∧ feats ≠ ∅) ∧
    (∀ e feats f fv,
       MoreRoutes.b_features resp !! e = Some feats → feats !! f = Some fv →
       f ∈ ["user_age"] ∧
       Routes.freshness_seconds fv = None ∧
       Routes.timestamp fv ≤ 1002 ∧
       ∃ row, Postgres.latest_as_of (Routes.store Examples.half_cached) e f
                1002 row ∧
              Routes.value fv = Postgres.fv_value row ∧
              Routes.timestamp fv = Postgres.fv_timestamp row) ∧
    MoreRoutes.b_count resp = size (MoreRoutes.b_features resp) ∧
    (MoreRoutes.b_count resp ≤ length ["u42"; "u1"])%nat.
Proof.
  eexists _, _. split; [vm_compute; reflexivity|].
  eapply (get_batch_features_point_in_time Examples.half_cached _
            (Scenarios.batch_ask ["u42"; "u1"] ["user_age"] (Some 1002))).
  vm_compute. reflexivity.
Defined.

Lemma get_batch_features_reported_timestamp_witness :
  Postgres.pool_up (Routes.store Scenarios.no_cache) = true ∧
  ∃ w' resp,
    MoreRoutes.get_batch_features Scenarios.no_cache
      (Scenarios.batch_ask ["u42"] ["user_age"] None) = (w', Ok resp) ∧
    match MoreRoutes.b_timestamp
            (Scenarios.batch_ask ["u42"] ["user_age"] None) with
    | Some t =>
        MoreRoutes.b_as_of resp = t ∧
        Routes.ticks w' = Routes.ticks Scenarios.no_cache ∧
        head (Postgres.pg_log (Routes.store w')) =
          Some (Postgres.Fetch ["u42"] ["user_age"] t)
    | None =>
        MoreRoutes.b_as_of resp =
          Routes.clock Scenarios.no_cache
            (S (Routes.ticks Scenarios.no_cache)) ∧
        Routes.ticks w' = S (S (Routes.ticks Scenarios.no_cache)) ∧
        head (Postgres.pg_log (Routes.store w')) =
          Some (Postgres.Fetch ["u42"] ["user_age"]
                  (Routes.clock Scenarios.no_cache
                     (Routes.ticks Scenarios.no_cache)))
    end.
Proof.
  split; [reflexivity|].
  apply (get_batch_features_reported_timestamp Scenarios.no_cache
           (Scenarios.batch_ask ["u42"] ["user_age"] None)).
  reflexivity.
Defined.

(** ** Invalidation, readiness, start-up and the online read *)

Section ServingFacts.
Import Postgres RedisCache Routes MoreRoutes.
Context `{Wire}.

Lemma invalidate_up_lookup (c : FeatureCache) (pattern key : string) :
  client_up c = true →
  client_up (invalidate c pattern).1 = true ∧
  keyspace (invalidate c pattern).1 !! key =
    if glob_match pattern key then None else keyspace c !! key.
Proof.
  intros Hup. rewrite invalidate_up by done.
  cbn [fst keyspace set_keyspace client_up]. split; [done|].
  destruct (glob_match pattern key) eqn:Hg.
  - destruct (keyspace c !! key) as [v|] eqn:Hk.
    + apply lookup_foldr_delete, elem_of_scan. eauto.
    + rewrite lookup_foldr_delete_not_elem_of; [done|].
      intros [_ [v Hv]]%elem_of_scan. congruence.
  - apply lookup_foldr_delete_not_elem_of.
    intros [Hg' _]%elem_of_scan. congruence.
Qed.

Lemma invalidate_ok (c : FeatureCache) (pattern : string) :
  ∃ n, invalidate c pattern = ((invalidate c pattern).1, Ok n).
Proof.
  destruct (invalidate_never_raises c pattern) as [n Hn].
  exists n. destruct (invalidate c pattern). simpl in *. by subst.
Qed.

(** Nothing cached under the keys of a request: every name is a miss. *)
Lemma misses_all (c : FeatureCache) (request : OnlineFeatureRequest) :
  (∀ name, keyspace c !! cache_key (entity_id request) name = None) →
  misses c request = feature_names request.
Proof.
  intros Hnone. unfold misses.
  induction (feature_names request) as [|n names IH]; [done|].
  rewrite filter_cons_True, IH; [done|].
  unfold hit, answer, cached_value. rewrite Hnone.
  by destruct (batch_ok _ _).
Qed.

(** X21.  After the invalidation route has run for an entity (server
    reachable, the pattern matching the entity's keys), the next online
    read for that entity finds nothing in the cache: it is tagged
    ["database"], and the store is asked for every requested name. *)
Theorem invalidate_cache_then_read_from_database (w : World)
    (c : FeatureCache) (entity : string) (names : list string) :
  cache w = Some c → client_up c = true → pool_up (store w) = true →
  names ≠ [] →
  (∀ name, glob_match (entity +:+ ":*") (cache_key entity name) = true) →
  ∃ w1 resp1 w2 resp2,
    invalidate_cache w entity = (w1, Ok resp1) ∧
    i_status resp1 = "success" ∧
    get_online_features w1
      {| entity_id := entity; feature_names := names |} = (w2, Ok resp2) ∧
    r_source resp2 = "database" ∧ r_cache_hit resp2 = false ∧
    head (pg_log (store w2)) =
      Some (Fetch [entity] names (clock w (ticks w))).
Proof.
  intros Hc Hup Hpool Hnames Hglob.
  set (request := {| entity_id := entity; feature_names := names |}).
  destruct (invalidate_ok c (entity +:+ ":*")) as [n Hinv].
  set (c' := (invalidate c (entity +:+ ":*")).1) in *.
  assert (misses c' request = names) as Hmiss.
  { rewrite misses_all; [done|]. intros name. simpl. unfold c'.
    destruct (invalidate_up_lookup c (entity +:+ ":*")
                (cache_key entity name) Hup) as [_ ->].
    by rewrite Hglob. }
  destruct (online_read_store_up (set_cache c' w) c' request)
    as (w2 & now & Hrun & Hstore & _); [done | by rewrite Hmiss | done |].
  eexists (set_cache c' w), _, w2, _. split_and!.
  - unfold invalidate_cache. rewrite Hc, Hinv. reflexivity.
  - done.
  - exact Hrun.
  - done.
  - done.
  - rewrite Hstore, Hmiss. done.
Qed.

(** The readiness probe answers 200 exactly when the store's pool
    and the cache server both answer; in every other case, a missing
    cache handle included, it answers 503. *)
Lemma readiness_check_status (w : World) :
  Main.status_code (readiness_check w).2 =
  if pool_up (store w)
     && match cache w with Some c => client_up c | None => false end
  then 200 else 503.
Proof.
  unfold readiness_check. destruct (pool_up (store w)); [|done].
  cbn [cache set_store]. destruct (cache w) as [c|]; [|done].
  by destruct (client_up c).
Qed.

(** X22.  Start-up tolerates an unreachable Redis by leaving the cache
    handle empty; the application then serves batch reads, but every
    online read fails on the missing handle and is answered with status
    500, although the store is reachable. *)
Theorem startup_without_redis (s : FeatureStore) (r : Registry.FeatureRegistry)
    (c : FeatureCache) (cfg : Config.Settings) (clk : nat → datetime)
    (request : OnlineFeatureRequest) (batch : BatchFeatureRequest) :
  pool_up s = true → Registry.registry_up r = true → client_up c = false →
  ∃ w r',
    Lifespan.startup s r c cfg clk = Ok (w, r') ∧
    cache w = None ∧
    (get_online_features w request).2 = Raise AttributeError ∧
    Main.status_code (get_online_features w request).2 = 500 ∧
    Main.status_code (get_batch_features w batch).2 = 200.
Proof.
  intros Hs Hr Hc.
  unfold Lifespan.startup, Lifespan.connect_store, Lifespan.connect_registry,
    CacheOps.connect.
  rewrite Hs, Hr, Hc. eexists _, _. split; [reflexivity|].
  split_and!; [done..|].
  match goal with |- context [get_batch_features ?w _] =>
    destruct (get_batch_features_up w batch Hs) as (w' & resp & -> & _)
  end.
  done.
Qed.

(** X23.  How many queries an online read costs: none when the cache
    answers every requested name, and otherwise exactly one, asking the
    store for the entity's missed names only, in input order; hits and
    misses add up to the number of requested names. *)
Theorem online_read_queries_only_misses (w : World) (c : FeatureCache)
    (request : OnlineFeatureRequest) :
  cache w = Some c → pool_up (store w) = true →
  pg_log (store (get_online_features w request).1) =
    (if decide (misses c request = []) then []
     else [Fetch [entity_id request] (misses c request) (clock w (ticks w));
           AcquireConn]) ++ pg_log (store w) ∧
  (hit_count c request + length (misses c request))%nat =
    length (feature_names request).
Proof.
  intros Hc Hup. split; [|apply hit_count_misses].
  destruct (decide (misses c request = [])) as [Hm|Hm].
  - by rewrite (online_read_all_cached w c).
  - destruct (online_read_store_up w c request Hc Hm Hup)
      as (w' & now & Hrun & Hstore & _).
    rewrite Hrun. cbn [fst]. by rewrite Hstore.
Qed.

End ServingFacts.

(** ** A backfill that cannot be serialized *)

Section RepeatedReadFacts.
Import Postgres RedisCache Routes.
Context `{Wire}.

(** X24.  One record that cannot be serialized spoils the whole
    backfill, and the next read pays for it.  With the store reachable,
    if the codec cannot pack one of the records the read builds for the
    cache, the read still answers normally and leaves the cache handle
    with exactly the cache it had; a repeated read then finds the same
    misses, is again tagged ["database"] with cache_hit false, and sends
    the store a second query for the same names. *)
Theorem online_read_backfill_not_serialized (w : World) (c : FeatureCache)
    (request : OnlineFeatureRequest) (key : string) (v : CacheRecord) :
  cache w = Some c → pool_up (store w) = true →
  (db_loop w request (misses c request) (hits c request)).1.2 !! key
    = Some v →
  packb v = None →
  ∃ w1 resp1 w2 resp2,
    get_online_features w request = (w1, Ok resp1) ∧
    cache w1 = Some c ∧
    get_online_features w1 request = (w2, Ok resp2) ∧
    r_source resp2 = "database" ∧ r_cache_hit resp2 = false ∧
    pg_log (store w2) =
      [Fetch [entity_id request] (misses c request) (clock w1 (ticks w1));
       AcquireConn;
       Fetch [entity_id request] (misses c request) (clock w (ticks w));
       AcquireConn] ++ pg_log (store w).
Proof.
  intros Hc Hup Hv Hfail.
  assert (misses c request ≠ []) as Hm.
  { intros Hm. rewrite Hm in Hv.
    unfold db_loop, entity_features_of, run_query in Hv.
    rewrite matching_rows_empty in Hv by (by right).
    vm_compute in Hv. discriminate Hv. }
  destruct (online_read_store_up w c request Hc Hm Hup)
    as (w1 & now1 & Hrun1 & Hstore1 & Hcache1).
  assert (cache w1 = Some c) as Hc1.
  { rewrite Hcache1. case_decide as Hdata; [done|]. f_equal.
    unfold set_many. rewrite decide_False by exact Hdata.
    destruct (comprehension_queue_fail
                (map_to_list (db_loop w request (misses c request)
                                      (hits c request)).1.2) (key, v))
      as [e ->]; [by apply elem_of_map_to_list | done | done]. }
  assert (pool_up (store w1) = true) as Hup1 by (by rewrite Hstore1).
  destruct (online_read_store_up w1 c request Hc1 Hm Hup1)
    as (w2 & now2 & Hrun2 & Hstore2 & _).
  eexists w1, _, w2, _.
  split_and!; [exact Hrun1 | exact Hc1 | exact Hrun2 | done | done |].
  by rewrite Hstore2, Hstore1.
Qed.

End RepeatedReadFacts.

Lemma invalidate_cache_then_read_from_database_witness :
  Routes.cache
    (Examples.world (Examples.pg [Examples.age_row] true)
       (Examples.redis Scenarios.three_keys true) Config.defaults
       (Examples.steady 1005)) =
    Some (Examples.redis Scenarios.three_keys true) ∧
  RedisCache.client_up (Examples.redis Scenarios.three_keys true) = true ∧
  Postgres.pool_up (Examples.pg [Examples.age_row] true) = true ∧
  ["user_age"; "user_ltv"] ≠ [] ∧
  (∀ name, RedisCache.glob_match ("u42" +:+ ":*")
             (Routes.cache_key "u42" name) = true) ∧
  ∃ w1 resp1 w2 resp2,
    MoreRoutes.invalidate_cache
      (Examples.world (Examples.pg [Examples.age_row] true)
         (Examples.redis Scenarios.three_keys true) Config.defaults
         (Examples.steady 1005)) "u42" = (w1, Ok resp1) ∧
    MoreRoutes.i_status resp1 = "success" ∧
    Routes.get_online_features w1
      {| Routes.entity_id := "u42";
         Routes.feature_names := ["user_age"; "user_ltv"] |} =
      (w2, Ok resp2) ∧
    Routes.r_source resp2 = "database" ∧ Routes.r_cache_hit resp2 = false ∧
    head (Postgres.pg_log (Routes.store w2)) =
      Some (Postgres.Fetch ["u42"] ["user_age"; "user_ltv"]
              (Examples.steady 1005 0)).
Proof.
  assert (∀ name, RedisCache.glob_match ("u42" +:+ ":*")
                    (Routes.cache_key "u42" name) = true) as Hglob
    by (intros name; reflexivity).
  split_and!; [reflexivity | reflexivity | reflexivity | discriminate
              | exact Hglob |].
  apply (invalidate_cache_then_read_from_database
           (Examples.world (Examples.pg [Examples.age_row] true)
              (Examples.redis Scenarios.three_keys true) Config.defaults
              (Examples.steady 1005))
           (Examples.redis Scenarios.three_keys true) "u42"
           ["user_age"; "user_ltv"] eq_refl eq_refl eq_refl);
    [discriminate | exact Hglob].
Defined.

Lemma startup_without_redis_witness :
  Postgres.pool_up (Examples.pg [Examples.age_row] true) = true ∧
  Registry.registry_up Scenarios.catalog = true ∧
  RedisCache.client_up Examples.down_cache = false ∧
  ∃ w r',
    Lifespan.startup (Examples.pg [Examples.age_row] true) Scenarios.catalog
      Examples.down_cache Config.defaults (Examples.steady 1005) =
      Ok (w, r') ∧
    Routes.cache w = None ∧
    (Routes.get_online_features w (Examples.ask ["user_age"])).2 =
      Raise AttributeError ∧
    Main.status_code
      (Routes.get_online_features w (Examples.ask ["user_age"])).2 = 500 ∧
    Main.status_code
      (MoreRoutes.get_batch_features w
         (Scenarios.batch_ask ["u42"] ["user_age"] None)).2 = 200.
Proof.
  split_and!; [reflexivity..|].
  apply (startup_without_redis (Examples.pg [Examples.age_row] true)
           Scenarios.catalog Examples.down_cache Config.defaults
           (Examples.steady 1005) (Examples.ask ["user_age"])
           (Scenarios.batch_ask ["u42"] ["user_age"] None));
    reflexivity.
Defined.

Lemma online_read_queries_only_misses_witness :
  Routes.cache Examples.half_cached =
    Some (Examples.redis
            {[ "u42:user_age" := (Examples.age_cached, 3600) ]} true) ∧
  Postgres.pool_up (Routes.store Examples.half_cached) = true ∧
  Postgres.pg_log
    (Routes.store
       (Routes.get_online_features Examples.half_cached
          (Examples.ask ["user_age"; "user_ltv"])).1) =
    (if decide (Routes.misses
                  (Examples.redis
                     {[ "u42:user_age" := (Examples.age_cached, 3600) ]} true)
                  (Examples.ask ["user_age"; "user_ltv"]) = [])
     then []
     else [Postgres.Fetch
             [Routes.entity_id (Examples.ask ["user_age"; "user_ltv"])]
             (Routes.misses
                (Examples.redis
                   {[ "u42:user_age" := (Examples.age_cached, 3600) ]} true)
                (Examples.ask ["user_age"; "user_ltv"]))
             (Routes.clock Examples.half_cached
                (Routes.ticks Examples.half_cached));
           Postgres.AcquireConn])
    ++ Postgres.pg_log (Routes.store Examples.half_cached) ∧
  (Routes.hit_count
     (Examples.redis
        {[ "u42:user_age" := (Examples.age_cached, 3600%Z) ]} true)
     (Examples.ask ["user_age"; "user_ltv"])
   + length (Routes.misses
               (Examples.redis
                  {[ "u42:user_age" := (Examples.age_cached, 3600%Z) ]} true)
               (Examples.ask ["user_age"; "user_ltv"])))%nat =
    length (Routes.feature_names (Examples.ask ["user_age"; "user_ltv"])).
Proof.
  split; [reflexivity|]. split; [reflexivity|].
  apply (online_read_queries_only_misses Examples.half_cached
           (Examples.redis
              {[ "u42:user_age" := (Examples.age_cached, 3600) ]} true)
           (Examples.ask ["user_age"; "user_ltv"]));
    reflexivity.
Defined.

Lemma online_read_backfill_not_serialized_witness :
  Routes.cache Scenarios.half_cached_strict =
    Some {| RedisCache.keyspace :=
              {[ "u42:user_age" := (Examples.age_cached, 3600) ]};
            RedisCache.client_up := true |} ∧
  Postgres.pool_up (Routes.store Scenarios.half_cached_strict) = true ∧
  Routes.misses
    {| RedisCache.keyspace :=
         {[ "u42:user_age" := (Examples.age_cached, 3600) ]};
       RedisCache.client_up := true |}
    (Examples.ask ["user_age"; "user_ltv"]) = ["user_ltv"] ∧
  (Routes.db_loop Scenarios.half_cached_strict
     (Examples.ask ["user_age"; "user_ltv"]) ["user_ltv"]
     {[ "user_age" := Routes.of_cached Examples.age_cached ]}).1.2
    !! "u42:user_ltv" = Some Scenarios.ltv_backfill ∧
  @RedisCache.packb Scenarios.strict_wire Scenarios.ltv_backfill = None ∧
  ∃ w1 resp1 w2 resp2,
    Routes.get_online_features Scenarios.half_cached_strict
      (Examples.ask ["user_age"; "user_ltv"]) = (w1, Ok resp1) ∧
    Routes.cache w1 =
      Some {| RedisCache.keyspace :=
                {[ "u42:user_age" := (Examples.age_cached, 3600) ]};
              RedisCache.client_up := true |} ∧
    Routes.get_online_features w1 (Examples.ask ["user_age"; "user_ltv"]) =
      (w2, Ok resp2) ∧
    Routes.r_source resp2 = "database" ∧ Routes.r_cache_hit resp2 = false ∧
    Postgres.pg_log (Routes.store w2) =
      [Postgres.Fetch ["u42"] ["user_ltv"]
         (Routes.clock w1 (Routes.ticks w1));
       Postgres.AcquireConn;
       Postgres.Fetch ["u42"] ["user_ltv"] 1005;
       Postgres.AcquireConn] ++ [].
Proof.
  split; [reflexivity|]. split; [reflexivity|].
  split; [vm_compute; reflexivity|].
  split; [vm_compute; reflexivity|]. split; [reflexivity|].
  apply (@online_read_backfill_not_serialized Scenarios.strict_wire
           Scenarios.half_cached_strict
           {| RedisCache.keyspace :=
                {[ "u42:user_age" := (Examples.age_cached, 3600) ]};
              RedisCache.client_up := true |}
           (Examples.ask ["user_age"; "user_ltv"])
           "u42:user_ltv" Scenarios.ltv_backfill
           eq_refl eq_refl);
    [vm_compute; reflexivity | reflexivity].
Defined.

(** ** Authentication *)

Section AuthFacts.
Import Routes MoreRoutes.
Context `{Wire}.



End AuthFacts.

(** ** The feature registry *)

Section RegistryFacts.
Import Registry.

#[global] Instance newest_version_first_total : Total newest_version_first.
Proof. intros a b. unfold newest_version_first. lia. Qed.

#[global] Instance newest_version_first_trans : Transitive newest_version_first.
Proof. intros a b c. unfold newest_version_first. lia. Qed.

Lemma name_version_le_spec (a b : Feature) :
  name_version_le a b ↔
  String.compare (name a) (name b) = Lt ∨
  (name a = name b ∧ version a ≤ version b).
Proof.
  unfold name_version_le, name_version_leb.
  destruct (String.compare (name a) (name b)) eqn:Hc.
  - apply compare_eq in Hc. rewrite bool_decide_eq_true.
    split; [by right|]. by intros [?|[_ ?]].
  - split; [by left | done].
  - split; [done|]. intros [?|[Heq _]]; [done|].
    by rewrite Heq, compare_refl in Hc.
Qed.

#[global] Instance name_version_le_total : Total name_version_le.
Proof.
  intros a b. rewrite !name_version_le_spec.
  destruct (String.compare (name a) (name b)) eqn:Hc.
  - apply compare_eq in Hc.
    destruct (Z.le_ge_cases (version a) (version b));
      [left | right]; right; split; done.
  - left. by left.
  - apply compare_gt_lt in Hc. right. by left.
Qed.

#[global] Instance name_version_le_trans : Transitive name_version_le.
Proof.
  intros a b c. rewrite !name_version_le_spec.
  intros [Hab|[Hab Hvab]] [Hbc|[Hbc Hvbc]].
  - left. by eapply compare_lt_trans.
  - left. by rewrite <- Hbc.
  - left. by rewrite Hab.
  - right. split; [congruence | lia].
Qed.

(** The row returned by the upsert is the one a lookup by (name, version)
    finds afterwards, and it carries the registered schema. *)
Lemma upsert_feature_found (t : list Feature) (fresh_id : Z) (sc : Schema)
    (now : datetime) :
  let '(t', row) := upsert_feature t fresh_id sc now in
  head (filter (λ x, name x = s_name sc ∧ version x = s_version sc) t')
    = Some row ∧
  name row = s_name sc ∧ version row = s_version sc ∧
  dtype row = s_dtype sc ∧ entity_type row = s_entity_type sc ∧
  ttl_hours row = s_ttl_hours sc ∧ description row = s_description sc ∧
  tags row = default [] (s_tags sc) ∧ updated_at row = now.
Proof.
  induction t as [|x t IH]; simpl.
  - rewrite filter_cons_True by done. done.
  - destruct (decide (name x = s_name sc ∧ version x = s_version sc))
      as [[Hn Hv]|Hne].
    + rewrite filter_cons_True by done. done.
    + destruct (upsert_feature t fresh_id sc now) as [t' row].
      by rewrite filter_cons_False by done.
Qed.

(** On a conflict the stored row keeps its id and its creation time, and
    the table keeps its rows' ids in place. *)
Lemma upsert_feature_conflict (t : list Feature) (fresh_id : Z) (sc : Schema)
    (now : datetime) (x : Feature) :
  x ∈ t → name x = s_name sc → version x = s_version sc →
  NoDup (name_version <$> t) →
  (upsert_feature t fresh_id sc now).2 = update_feature x sc now ∧
  id <$> (upsert_feature t fresh_id sc now).1 = id <$> t ∧
  update_feature x sc now ∈ (upsert_feature t fresh_id sc now).1.
Proof.
  intros Hin Hn Hv. induction t as [|y t IH]; intros Hnd;
    [by apply elem_of_nil in Hin|].
  rewrite fmap_cons in Hnd. apply NoDup_cons in Hnd as [Hfresh Hnd].
  simpl.
  destruct (decide (name y = s_name sc ∧ version y = s_version sc))
    as [[Hyn Hyv]|Hne].
  - apply elem_of_cons in Hin as [->|Hin].
    + simpl. split_and!; [done..|apply list_elem_of_here].
    + exfalso. apply Hfresh. apply list_elem_of_fmap. exists x.
      split; [|done]. unfold name_version. congruence.
  - apply elem_of_cons in Hin as [->|Hin]; [by destruct Hne|].
    destruct (IH Hin Hnd) as (Hrow & Hids & Hmem).
    destruct (upsert_feature t fresh_id sc now) as [t' row].
    cbn [fst snd] in *.
    split_and!; [done | by rewrite !fmap_cons, Hids
                      | by apply list_elem_of_further].
Qed.

(** X26.  Registering a (name, version) that is already registered keeps
    the row's identity: [register] returns the id and creation time the
    row had, no row is added, and the row now carries the new schema and
    the time of the update. *)
Theorem register_existing_keeps_identity (r : FeatureRegistry) (fresh_id : Z)
    (now : datetime) (sc : Schema) (x : Feature) :
  registry_up r = true → NoDup (name_version <$> rows r) →
  x ∈ rows r → name x = s_name sc → version x = s_version sc →
  (register r fresh_id now sc).2 = Ok (id x, created_at x) ∧
  id <$> rows (register r fresh_id now sc).1 = id <$> rows r ∧
  update_feature x sc now ∈ rows (register r fresh_id now sc).1.
Proof.
  intros Hup Hnd Hin Hn Hv. unfold register. rewrite Hup.
  destruct (upsert_feature_conflict (rows r) fresh_id sc now x Hin Hn Hv Hnd)
    as (Hrow & Hids & Hmem).
  destruct (upsert_feature (rows r) fresh_id sc now) as [t row].
  simpl in *. by rewrite Hrow.
Qed.

(** X27.  What is registered can be looked up: after [register], a
    [get_feature] by the same name and (non-zero) version returns a row
    with the id and creation time that [register] returned and with the
    registered type, entity type, TTL, description and tags (none given:
    empty list). *)
Theorem register_then_get_feature (r : FeatureRegistry) (fresh_id : Z)
    (now : datetime) (sc : Schema) :
  registry_up r = true → s_version sc ≠ 0 →
  ∃ r' row,
    register r fresh_id now sc = (r', Ok (id row, created_at row)) ∧
    get_feature r' (s_name sc) (Some (s_version sc)) = Ok (Some row) ∧
    dtype row = s_dtype sc ∧ entity_type row = s_entity_type sc ∧
    ttl_hours row = s_ttl_hours sc ∧ description row = s_description sc ∧
    tags row = default [] (s_tags sc) ∧ updated_at row = now.
Proof.
  intros Hup Hv. unfold register, get_feature. rewrite Hup.
  pose proof (upsert_feature_found (rows r) fresh_id sc now) as Hfound.
  destruct (upsert_feature (rows r) fresh_id sc now) as [t row].
  destruct Hfound as (Hhead & _ & _ & Hrest).
  exists (set_rows t r), row. cbn [registry_up set_rows rows].
  rewrite Hup, decide_False by done. by rewrite Hhead.
Qed.

Lemma head_sorted_max {A} (R : relation A) `{!Total R, !Transitive R}
    `{!RelDecision R} (l : list A) :
  match head (merge_sort R l) with
  | Some y => y ∈ l ∧ ∀ x, x ∈ l → R y x
  | None => l = []
  end.
Proof.
  pose proof (StronglySorted_merge_sort R l) as Hsorted.
  pose proof (merge_sort_Permutation R l) as Hperm.
  destruct (merge_sort R l) as [|y l'] eqn:Hl; simpl.
  - by apply Permutation_nil_l in Hperm.
  - apply StronglySorted_cons in Hsorted as [Hall _]. split.
    + rewrite <- Hperm. apply list_elem_of_here.
    + intros x Hx. rewrite <- Hperm in Hx.
      apply elem_of_cons in Hx as [->|Hx].
      * destruct (total R y y); done.
      * by eapply Forall_forall in Hall.
Qed.

(** X28.  [get_feature] without a version returns the row of that name
    with the greatest version, and nothing when the name is unknown; a
    version of 0 is treated as no version at all. *)
Theorem get_feature_latest_version (r : FeatureRegistry) (n : string)
    (v : option Z) :
  registry_up r = true → v = None ∨ v = Some 0 →
  match get_feature r n v with
  | Ok (Some row) =>
      row ∈ rows r ∧ name row = n ∧
      ∀ x, x ∈ rows r → name x = n → version x ≤ version row
  | Ok None => ∀ x, x ∈ rows r → name x ≠ n
  | Raise _ => False
  end.
Proof.
  intros Hup Hv. unfold get_feature. rewrite Hup.
  assert (match head (merge_sort newest_version_first
                        (filter (λ x, name x = n) (rows r))) with
          | Some row =>
              row ∈ rows r ∧ name row = n ∧
              ∀ x, x ∈ rows r → name x = n → version x ≤ version row
          | None => ∀ x, x ∈ rows r → name x ≠ n
          end) as Hlatest.
  { pose proof (head_sorted_max newest_version_first
                  (filter (λ x, name x = n) (rows r))) as Hmax.
    destruct (head _) as [row|].
    - destruct Hmax as [Hin Hmax].
      apply list_elem_of_filter in Hin as [Hn Hin]. split_and!; [done..|].
      intros x Hx Hxn. apply (Hmax x). by apply list_elem_of_filter.
    - intros x Hx Hxn.
      assert (x ∈ filter (λ x, name x = n) (rows r)) as Hf
        by by apply list_elem_of_filter.
      rewrite Hmax in Hf. by apply elem_of_nil in Hf. }
  destruct Hv as [-> | ->]; [done|]. by rewrite decide_True.
Qed.

(** X29.  [list_features] returns registered features ordered by name
    and then version, each at most as often as it is registered; with an
    entity type, exactly the features of that type; an empty entity type
    is treated as none given. *)
Theorem list_features_sorted_and_filtered (r : FeatureRegistry)
    (etype : option string) :
  registry_up r = true →
  ∃ l,
    list_features r etype = Ok l ∧
    StronglySorted name_version_le l ∧
    l ⊆+ rows r ∧
    ∀ x, x ∈ l ↔
         x ∈ rows r ∧
         match etype with
         | Some e => e = "" ∨ entity_type x = e
         | None => True
         end.
Proof.
  intros Hup. unfold list_features. rewrite Hup.
  destruct etype as [e|]; [destruct (decide (e = "")) as [->|He]|];
    eexists; (split_and!;
      [done | apply StronglySorted_merge_sort; apply _ | |]).
  - by rewrite merge_sort_Permutation.
  - intros x. rewrite merge_sort_Permutation. split; [|tauto].
    intros ?. split; [done | by left].
  - rewrite merge_sort_Permutation. apply sublist_submseteq, sublist_filter.
  - intros x. rewrite merge_sort_Permutation, list_elem_of_filter.
    split; [intros [? ?]; split; [done | by right]|].
    by intros [? [?|?]].
  - by rewrite merge_sort_Permutation.
  - intros x. rewrite merge_sort_Permutation. tauto.
Qed.

Lemma head_filter_None {A} (P : A → Prop) `{∀ x, Decision (P x)}
    (l : list A) :
  head (filter P l) = None ↔ ∀ x, x ∈ l → ¬ P x.
Proof.
  split.
  - intros Hnone x Hx HP.
    assert (x ∈ filter P l) as Hf by by apply list_elem_of_filter.
    destruct (filter P l); [by apply elem_of_nil in Hf | done].
  - intros Hall. destruct (filter P l) as [|y l'] eqn:Hf; [done|].
    assert (y ∈ filter P l) as Hy by (rewrite Hf; apply list_elem_of_here).
    apply list_elem_of_filter in Hy as [HP Hy]. by destruct (Hall y Hy).
Qed.

(** X30.  The metadata route answers 404 exactly when the reachable
    registry has no feature of that name (and, when a non-zero version is
    asked for, of that version); otherwise it returns the feature. *)
Theorem get_feature_metadata_not_found (r : FeatureRegistry) (n : string)
    (v : option Z) :
  registry_up r = true →
  (Main.status_code (MoreRoutes.get_feature_metadata r n v) = 404 ↔
   ¬ ∃ x, x ∈ rows r ∧ name x = n ∧
          match v with
          | Some v0 => v0 = 0 ∨ version x = v0
          | None => True
          end) ∧
  (Main.status_code (MoreRoutes.get_feature_metadata r n v) = 404 ∨
   Main.status_code (MoreRoutes.get_feature_metadata r n v) = 200).
Proof.
  intros Hup. unfold MoreRoutes.get_feature_metadata, get_feature.
  rewrite Hup.
  assert (∀ o : option Feature,
            Main.status_code
              (match o with
               | Some feature => Ok feature
               | None => Raise (HTTPException 404)
               end) = 404 ↔ o = None) as Hstatus
    by (intros [x|]; simpl; split; done).
  assert (head (merge_sort newest_version_first
                  (filter (λ x, name x = n) (rows r))) = None ↔
          ¬ ∃ x, x ∈ rows r ∧ name x = n) as Hlatest.
  { pose proof (head_sorted_max newest_version_first
                  (filter (λ x, name x = n) (rows r))) as Hmax.
    destruct (head _) as [row|].
    - destruct Hmax as [Hin _]. apply list_elem_of_filter in Hin as [? ?].
      split; [done|]. intros Hno. exfalso. apply Hno. by exists row.
    - split; [|done]. intros _ (x & Hx & Hn).
      assert (x ∈ filter (λ x, name x = n) (rows r)) as Hf
        by by apply list_elem_of_filter.
      rewrite Hmax in Hf. by apply elem_of_nil in Hf. }
  split.
  - destruct v as [v0|].
    + destruct (decide (v0 = 0)) as [->|Hv0].
      * rewrite Hstatus, Hlatest. split.
        -- intros Hno (x & ? & ? & _). apply Hno. by exists x.
        -- intros Hno (x & ? & ?). apply Hno. exists x.
           split_and!; [done..|by left].
      * rewrite Hstatus, head_filter_None. split.
        -- intros Hno (x & Hx & Hn & [?|Hv]); [done|]. by apply (Hno x).
        -- intros Hno x Hx [Hn Hv]. apply Hno. exists x.
           split_and!; [done..|by right].
    + rewrite Hstatus, Hlatest. split.
      * intros Hno (x & ? & ? & _). apply Hno. by exists x.
      * intros Hno (x & ? & ?). apply Hno. by exists x.
  - clear Hstatus Hlatest.
    destruct v as [v0|]; [destruct (decide (v0 = 0))|];
      (destruct (head _); [by right | by left]).
Qed.

End RegistryFacts.

Lemma register_existing_keeps_identity_witness :
  Registry.registry_up Scenarios.catalog = true ∧
  NoDup (Registry.name_version <$> Registry.rows Scenarios.catalog) ∧
  Scenarios.age_v1 ∈ Registry.rows Scenarios.catalog ∧
  (Registry.register Scenarios.catalog 9 500 Scenarios.age_v1_again).2
    = Ok (1, 100) ∧
  Registry.id <$>
    Registry.rows
      (Registry.register Scenarios.catalog 9 500 Scenarios.age_v1_again).1
    = [1; 3; 5] ∧
  Registry.update_feature Scenarios.age_v1 Scenarios.age_v1_again 500 ∈
    Registry.rows
      (Registry.register Scenarios.catalog 9 500 Scenarios.age_v1_again).1.
Proof.
  assert (NoDup (Registry.name_version <$> Registry.rows Scenarios.catalog))
    as Hnd.
  { apply (bool_decide_unpack _). vm_compute. exact I. }
  assert (Scenarios.age_v1 ∈ Registry.rows Scenarios.catalog) as Hin
    by apply list_elem_of_here.
  split; [reflexivity|]. split; [exact Hnd|]. split; [exact Hin|].
  exact (register_existing_keeps_identity Scenarios.catalog 9 500
           Scenarios.age_v1_again Scenarios.age_v1 eq_refl Hnd Hin
           eq_refl eq_refl).
Defined.

Lemma register_then_get_feature_witness :
  Registry.registry_up Scenarios.catalog = true ∧
  Registry.s_version Scenarios.age_v1_again ≠ 0 ∧
  ∃ r' row,
    Registry.register Scenarios.catalog 9 500 Scenarios.age_v1_again
      = (r', Ok (Registry.id row, Registry.created_at row)) ∧
    Registry.get_feature r' "user_age" (Some 1) = Ok (Some row) ∧
    Registry.dtype row = "float64" ∧ Registry.entity_type row = "user" ∧
    Registry.ttl_hours row = 48 ∧ Registry.description row = "age in years" ∧
    Registry.tags row = [] ∧ Registry.updated_at row = 500.
Proof.
  assert (Registry.s_version Scenarios.age_v1_again ≠ 0) as Hv by done.
  split; [reflexivity|]. split; [exact Hv|].
  exact (register_then_get_feature Scenarios.catalog 9 500
           Scenarios.age_v1_again eq_refl Hv).
Defined.

Lemma get_feature_latest_version_witness :
  Registry.registry_up Scenarios.catalog = true ∧
  Registry.get_feature Scenarios.catalog "user_age" (Some 0)
    = Ok (Some Scenarios.age_v2) ∧
  match Registry.get_feature Scenarios.catalog "user_age" (Some 0) with
  | Ok (Some row) =>
      row ∈ Registry.rows Scenarios.catalog ∧ Registry.name row = "user_age" ∧
      ∀ x, x ∈ Registry.rows Scenarios.catalog →
           Registry.name x = "user_age" →
           Registry.version x ≤ Registry.version row
  | Ok None =>
      ∀ x, x ∈ Registry.rows Scenarios.catalog → Registry.name x ≠ "user_age"
  | Raise _ => False
  end.
Proof.
  split; [reflexivity|]. split; [vm_compute; reflexivity|].
  exact (get_feature_latest_version Scenarios.catalog "user_age" (Some 0)
           eq_refl (or_intror eq_refl)).
Defined.

Lemma list_features_sorted_and_filtered_witness :
  Registry.registry_up Scenarios.catalog = true ∧
  Registry.list_features Scenarios.catalog (Some "user")
    = Ok [Scenarios.age_v1; Scenarios.age_v2] ∧
  ∃ l,
    Registry.list_features Scenarios.catalog (Some "user") = Ok l ∧
    StronglySorted Registry.name_version_le l ∧
    l ⊆+ Registry.rows Scenarios.catalog ∧
    ∀ x, x ∈ l ↔
         x ∈ Registry.rows Scenarios.catalog ∧
         ("user" = "" ∨ Registry.entity_type x = "user").
Proof.
  split; [reflexivity|]. split; [vm_compute; reflexivity|].
  exact (list_features_sorted_and_filtered Scenarios.catalog (Some "user")
           eq_refl).
Defined.

Lemma get_feature_metadata_not_found_witness :
  Registry.registry_up Scenarios.catalog = true ∧
  Main.status_code
    (MoreRoutes.get_feature_metadata Scenarios.catalog "price" (Some 2)) = 404 ∧
  (Main.status_code
     (MoreRoutes.get_feature_metadata Scenarios.catalog "price" (Some 2)) = 404 ↔
   ¬ ∃ x, x ∈ Registry.rows Scenarios.catalog ∧ Registry.name x = "price" ∧
          (2 = 0 ∨ Registry.version x = 2)) ∧
  (Main.status_code
     (MoreRoutes.get_feature_metadata Scenarios.catalog "price" (Some 2)) = 404 ∨
   Main.status_code
     (MoreRoutes.get_feature_metadata Scenarios.catalog "price" (Some 2)) = 200).
Proof.
  split; [reflexivity|]. split; [vm_compute; reflexivity|].
  exact (get_feature_metadata_not_found Scenarios.catalog "price" (Some 2)
           eq_refl).
Defined.
